(** * Comment-visualization plugin: declaration and comment extraction engine

    A shallow embedding of the extraction engine of the plugin
    (binarySearch, SymbolResolver, TagParser, JavaDocParser) and the
    properties its specification states about it.

    Conventions of the embedding.
    - A JavaScript string is a list of code units; code units are
      modelled by [ascii] (the range 0..255, read as Latin-1).
    - Line numbers and array indices are [nat]: the editor's positions
      are zero-based non-negative integers.  An index that may be [-1]
      is a [Z].
    - [null] and [undefined] results are [None].
    - A regular expression of the source is a value of [regex] below,
      run by a backtracking matcher that returns its matches in the
      priority order of the ECMAScript matcher. *)

From Stdlib Require Import List Arith ZArith Lia Bool Ascii.
From Stdlib Require String DecimalString.
Import String.StringSyntax.
From Equations Require Import Equations.
Import ListNotations.

(* ================================================================== *)
(** * Strings *)
(* ================================================================== *)

Module Js.

Definition str := list ascii.

Definition lit (s : String.string) : str := String.list_ascii_of_string s.

Definition ch (n : nat) : ascii := ascii_of_nat n.

Definition LF : ascii := ch 10.
Definition CR : ascii := ch 13.
Definition DQUOTE : ascii := ch 34.
Definition BACKSLASH : ascii := ch 92.

Definition code (c : ascii) : nat := nat_of_ascii c.

Definition between (lo hi : nat) (c : ascii) : bool :=
  (lo <=? code c) && (code c <=? hi).

Definition isChar (x c : ascii) : bool := Ascii.eqb x c.

(** WhiteSpace and LineTerminator code units below 256: TAB, LF, VT, FF,
    CR, SP and NBSP.  This is the class [\s] and the set [trim] strips. *)
Definition isSpace (c : ascii) : bool :=
  between 9 13 c || (code c =? 32) || (code c =? 160).

Definition isUpper (c : ascii) : bool := between 65 90 c.
Definition isLower (c : ascii) : bool := between 97 122 c.
Definition isDigit (c : ascii) : bool := between 48 57 c.

(** The class [\w]. *)
Definition isWord (c : ascii) : bool :=
  isUpper c || isLower c || isDigit c || isChar "_" c.

(** [.] without the [s] flag: anything but a line terminator. *)
Definition isLineTerminator (c : ascii) : bool := isChar LF c || isChar CR c.

Definition toLowerChar (c : ascii) : ascii :=
  if isUpper c then ch (code c + 32) else c.

Definition toLowerCase (s : str) : str := map toLowerChar s.

Fixpoint eqb (a b : str) : bool :=
  match a, b with
  | [], [] => true
  | x :: a', y :: b' => Ascii.eqb x y && eqb a' b'
  | _, _ => false
  end.

Fixpoint startsWith (s p : str) : bool :=
  match p, s with
  | [], _ => true
  | x :: p', y :: s' => Ascii.eqb x y && startsWith s' p'
  | _ :: _, [] => false
  end.

Definition endsWith (s p : str) : bool := startsWith (rev s) (rev p).

(** [s.indexOf(p)], [None] for [-1]. *)
Fixpoint indexOf (s p : str) : option nat :=
  if startsWith s p then Some 0
  else match s with
       | [] => None
       | _ :: s' => option_map S (indexOf s' p)
       end.

Definition includes (s p : str) : bool :=
  match indexOf s p with Some _ => true | None => false end.

(** [s.lastIndexOf(p)], [None] for [-1]. *)
Fixpoint lastIndexOf (s p : str) : option nat :=
  match s with
  | [] => if startsWith s p then Some 0 else None
  | _ :: s' =>
      match lastIndexOf s' p with
      | Some i => Some (S i)
      | None => if startsWith s p then Some 0 else None
      end
  end.

(** [s.slice(a)] and [s.slice(a, b)] for non-negative arguments. *)
Definition sliceFrom (s : str) (a : nat) : str := skipn a s.
Definition slice (s : str) (a b : nat) : str := firstn (b - a) (skipn a s).

Fixpoint trimStart (s : str) : str :=
  match s with
  | c :: s' => if isSpace c then trimStart s' else s
  | [] => []
  end.

Definition trimEnd (s : str) : str := rev (trimStart (rev s)).

Definition trim (s : str) : str := trimEnd (trimStart s).

(** [s.split("\n")]: the pieces between line feeds; never empty. *)
Fixpoint splitOn (sep : ascii) (s : str) : list str :=
  match s with
  | [] => [[]]
  | c :: s' =>
      if Ascii.eqb c sep then [] :: splitOn sep s'
      else match splitOn sep s' with
           | l :: ls => (c :: l) :: ls
           | [] => [[c]]
           end
  end.

(** [parts.join(sep)]. *)
Fixpoint join (sep : str) (parts : list str) : str :=
  match parts with
  | [] => []
  | [p] => p
  | p :: ps => p ++ sep ++ join sep ps
  end.

(** The truthiness of a string: non-empty. *)
Definition truthy (s : str) : bool :=
  match s with [] => false | _ :: _ => true end.

(** [a || b] on strings. *)
Definition orElse (a b : str) : str := if truthy a then a else b.

End Js.

Import Js.
Coercion Js.lit : String.string >-> Js.str.

Local Open Scope string_scope.
Local Open Scope list_scope.

(* ================================================================== *)
(** * Regular expressions *)
(* ================================================================== *)

(** The regular expressions of the source are kept as syntax and run by
    one matcher.  [run r st] lists every way [r] can match at [st], in
    the order in which the backtracking matcher of ECMAScript tries
    them: the head of the list is the match the engine reports.

    Where a comment quotes a pattern of the source, a blank is written
    between a star and a closing parenthesis; the blank is not part of
    the pattern. *)
Module Regex.

Inductive regex : Type :=
| Eps                          (* the empty pattern *)
| Cls (p : ascii -> bool)      (* one code unit of a class *)
| Seq (r1 r2 : regex)
| Alt (r1 r2 : regex)          (* r1|r2 *)
| Star (r : regex)             (* r*  *)
| StarLazy (r : regex)         (* r*? *)
| Grp (n : nat) (r : regex)    (* the n-th capturing group *)
| Bol                          (* ^ without the m flag *)
| Eol                          (* $ without the m flag *)
| Wordb.                       (* \b *)

(** A position in the input: the code units already passed (nearest
    first), those still ahead, and the captures made so far. *)
Record cursor : Type := mkCursor {
  before : str;
  rest : str;
  caps : list (nat * str)
}.

Definition atWord (o : option ascii) : bool :=
  match o with Some c => isWord c | None => false end.

(** Repetition.  As in the RepeatMatcher of the language definition, an
    iteration that consumes nothing is not taken; every iteration taken
    therefore shortens [rest], and [fuel] above its length is enough. *)
Fixpoint iter (greedy : bool) (step : cursor -> list cursor)
         (fuel : nat) (st : cursor) : list cursor :=
  match fuel with
  | 0 => [st]
  | S f =>
      let more :=
        flat_map (fun st' =>
                    if length (rest st') <? length (rest st)
                    then iter greedy step f st' else [])
                 (step st) in
      if greedy then more ++ [st] else st :: more
  end.

Fixpoint run (r : regex) (st : cursor) : list cursor :=
  match r with
  | Eps => [st]
  | Cls p =>
      match rest st with
      | c :: s' => if p c then [mkCursor (c :: before st) s' (caps st)] else []
      | [] => []
      end
  | Seq r1 r2 => flat_map (run r2) (run r1 st)
  | Alt r1 r2 => run r1 st ++ run r2 st
  | Star r1 => iter true (run r1) (S (length (rest st))) st
  | StarLazy r1 => iter false (run r1) (S (length (rest st))) st
  | Grp n r1 =>
      map (fun st' =>
             let taken := length (before st') - length (before st) in
             mkCursor (before st') (rest st')
                     ((n, rev (firstn taken (before st'))) :: caps st'))
          (run r1 st)
  | Bol => match before st with [] => [st] | _ :: _ => [] end
  | Eol => match rest st with [] => [st] | _ :: _ => [] end
  | Wordb =>
      if xorb (atWord (hd_error (before st))) (atWord (hd_error (rest st)))
      then [st] else []
  end.

(** Derived forms. *)
Definition Plus (r : regex) : regex := Seq r (Star r).
Definition PlusLazy (r : regex) : regex := Seq r (StarLazy r).
Definition Opt (r : regex) : regex := Alt r Eps.
Definition Chr (c : ascii) : regex := Cls (isChar c).
Definition Any : regex := Cls (fun _ => true).          (* [\s\S], . with s *)
Definition Dot : regex := Cls (fun c => negb (isLineTerminator c)).
Definition Space : regex := Cls isSpace.
Definition Word : regex := Cls isWord.

Fixpoint seqs (rs : list regex) : regex :=
  match rs with
  | [] => Eps
  | [r] => r
  | r :: rs' => Seq r (seqs rs')
  end.

Fixpoint alts (rs : list regex) : regex :=
  match rs with
  | [] => Cls (fun _ => false)
  | [r] => r
  | r :: rs' => Alt r (alts rs')
  end.

(** A literal, and a literal under the [i] flag. *)
Definition Lit (s : str) : regex := seqs (map Chr s).
Definition LitI (s : str) : regex :=
  seqs (map (fun c => Cls (fun d => Ascii.eqb (toLowerChar d) (toLowerChar c))) s).

(** The result of [exec]: where the match starts, what it covers and
    the captures. *)
Record result : Type := mkResult {
  index : nat;
  matched : str;
  groups : list (nat * str)
}.

Fixpoint lookup (n : nat) (gs : list (nat * str)) : option str :=
  match gs with
  | [] => None
  | (k, v) :: gs' => if k =? n then Some v else lookup n gs'
  end.

Definition group (n : nat) (m : result) : option str := lookup n (groups m).

(** The leftmost match at or after the current position. *)
Fixpoint scan (r : regex) (bef s : str) : option result :=
  match run r (mkCursor bef s []) with
  | st' :: _ =>
      Some (mkResult (length bef)
                     (firstn (length s - length (rest st')) s)
                     (caps st'))
  | [] =>
      match s with
      | [] => None
      | c :: s' => scan r (c :: bef) s'
      end
  end.

(** [re.exec(s)], [re.test(s)], [s.search(re)]. *)
Definition exec (r : regex) (s : str) : option result := scan r [] s.

Definition test (r : regex) (s : str) : bool :=
  match exec r s with Some _ => true | None => false end.

Definition search (r : regex) (s : str) : option nat :=
  option_map index (exec r s).

(** [s.replace(re, repl)] for [re] without the [g] flag. *)
Definition replace (r : regex) (repl s : str) : str :=
  match exec r s with
  | None => s
  | Some m =>
      firstn (index m) s ++ repl ++ skipn (index m + length (matched m)) s
  end.

(** [s.replace(re, repl)] for [re] with the [g] flag.  [bef] is what
    lies before [s] in the whole input.  After an empty match the next
    search starts one code unit further on. *)
Fixpoint replaceAllFrom (r : regex) (repl : str) (fuel : nat)
         (bef s : str) : str :=
  match fuel with
  | 0 => s
  | S f =>
      match scan r bef s with
      | None => s
      | Some m =>
          let off := index m - length bef in
          let pre := firstn off s in
          match matched m with
          | [] =>
              match skipn off s with
              | [] => pre ++ repl
              | c :: tl =>
                  pre ++ repl ++ c ::
                    replaceAllFrom r repl f (c :: rev pre ++ bef) tl
              end
          | _ :: _ =>
              let upto := off + length (matched m) in
              pre ++ repl ++
                replaceAllFrom r repl f (rev (firstn upto s) ++ bef)
                               (skipn upto s)
          end
      end
  end.

Definition replaceAll (r : regex) (repl s : str) : str :=
  replaceAllFrom r repl (S (length s)) [] s.

(** [s.split(re)] for a separator [re] that never matches the empty
    string (the only kind the source uses). *)
Fixpoint splitFrom (r : regex) (fuel : nat) (bef s : str) : list str :=
  match fuel with
  | 0 => [s]
  | S f =>
      match scan r bef s with
      | None => [s]
      | Some m =>
          let off := index m - length bef in
          let upto := off + length (matched m) in
          match matched m with
          | [] => [s]
          | _ :: _ =>
              firstn off s ::
                splitFrom r f (rev (firstn upto s) ++ bef) (skipn upto s)
          end
      end
  end.

Definition split (r : regex) (s : str) : list str :=
  splitFrom r (S (length s)) [] s.

(** [s.match(re)?.length ?? 0] for [re] with the [g] flag: the number
    of matches. *)
Fixpoint countFrom (r : regex) (fuel : nat) (bef s : str) : nat :=
  match fuel with
  | 0 => 0
  | S f =>
      match scan r bef s with
      | None => 0
      | Some m =>
          let off := index m - length bef in
          let upto := off + length (matched m) in
          match matched m with
          | [] => 0
          | _ :: _ =>
              S (countFrom r f (rev (firstn upto s) ++ bef) (skipn upto s))
          end
      end
  end.

Definition count (r : regex) (s : str) : nat :=
  countFrom r (S (length s)) [] s.

End Regex.

Import Regex.

(* ================================================================== *)
(** * types.ts *)
(* ================================================================== *)

(** [Map<string, V>]: keys in insertion order.  [set] on a key already
    present replaces its value where it stands; [set] on a new key
    appends it. *)
Module JsMap.

Definition t (V : Type) : Type := list (str * V).

Fixpoint get {V : Type} (k : str) (m : t V) : option V :=
  match m with
  | [] => None
  | (k', v) :: m' => if Js.eqb k' k then Some v else get k m'
  end.

Definition has {V : Type} (k : str) (m : t V) : bool :=
  match get k m with Some _ => true | None => false end.

Fixpoint set {V : Type} (k : str) (v : V) (m : t V) : t V :=
  match m with
  | [] => [(k, v)]
  | (k', v') :: m' =>
      if Js.eqb k' k then (k', v) :: m' else (k', v') :: set k v m'
  end.

Fixpoint delete {V : Type} (k : str) (m : t V) : t V :=
  match m with
  | [] => []
  | (k', v') :: m' =>
      if Js.eqb k' k then m' else (k', v') :: delete k m'
  end.

Definition size {V : Type} (m : t V) : nat := length m.

(** [m.keys().next().value] *)
Definition firstKey {V : Type} (m : t V) : option str :=
  match m with [] => None | (k, _) :: _ => Some k end.

Definition keys {V : Type} (m : t V) : list str := map fst m.

End JsMap.

Record ParamTag : Type := mkParamTag {
  param_name : str;
  param_type : str;
  param_description : str
}.

Record ReturnTag : Type := mkReturnTag {
  return_type : str;
  return_description : str
}.

Record ThrowsTag : Type := mkThrowsTag {
  throws_type : str;
  throws_description : str
}.

Record TagTable : Type := mkTagTable {
  params : list ParamTag;
  returns : option ReturnTag;
  throws : list ThrowsTag;
  since : option str;
  author : option str;
  deprecated : option str;
  see : list str;
  doc : option str;
  example : option str
}.

Definition EMPTY_TAG_TABLE : TagTable :=
  mkTagTable [] None [] None None None [] None None.

Inductive AccessModifier : Type :=
| AccPublic | AccProtected | AccPrivate | AccDefault.

Inductive MethodKind : Type := KindMethod | KindConstructor.

Record MethodDoc : Type := mkMethodDoc {
  id : str;
  kind : MethodKind;
  name : str;
  signature : str;
  startLine : nat;
  endLine : nat;
  hasComment : bool;
  description : str;
  tags : TagTable;
  belongsTo : str;
  accessModifier : AccessModifier
}.

Record FieldDoc : Type := mkFieldDoc {
  field_name : str;
  field_type : str;
  field_signature : str;
  field_startLine : nat;
  field_hasComment : bool;
  field_description : str;
  field_isConstant : bool;
  field_accessModifier : AccessModifier;
  field_belongsTo : str
}.

Record EnumConstantDoc : Type := mkEnumConstantDoc {
  enum_name : str;
  enum_startLine : nat;
  enum_hasComment : bool;
  enum_description : str;
  enum_arguments : str;
  enum_belongsTo : str
}.

Record GitAuthorInfo : Type := mkGitAuthorInfo {
  git_author : str;
  lastModifier : str;
  lastModifyDate : str
}.

Record ClassDoc : Type := mkClassDoc {
  className : str;
  classComment : str;
  packageName : str;
  filePath : str;
  methods : list MethodDoc;
  fields : list FieldDoc;
  enumConstants : list EnumConstantDoc;
  gitInfo : option GitAuthorInfo;
  javadocAuthor : option str;
  javadocSince : option str
}.

(* ================================================================== *)
(** * utils/binarySearch *)
(* ================================================================== *)

Module BinarySearch.

Definition isLineInsideMethod (method : MethodDoc) (cursorLine : nat) : bool :=
  (startLine method <=? cursorLine) && (cursorLine <=? endLine method).

(** The loop of [findRightmostStartLineAtOrBefore] over the half-open
    interval [[lo, hi)] (the source's [left] and [right]); it returns
    the final [left]. *)
Equations? upperBound (methods : list MethodDoc) (cursorLine : nat)
          (lo hi : nat) : nat by wf (hi - lo) lt :=
  upperBound methods cursorLine lo hi with lt_dec lo hi := {
    | right _ => lo
    | left _ with nth_error methods (lo + (hi - lo) / 2) := {
        | Some method with startLine method <=? cursorLine := {
            | true =>
                upperBound methods cursorLine (lo + (hi - lo) / 2 + 1) hi
            | false =>
                upperBound methods cursorLine lo (lo + (hi - lo) / 2) }
        | None =>
            upperBound methods cursorLine lo (lo + (hi - lo) / 2) } }.
Proof.
  all: change (fst (Nat.divmod (hi - lo) 1 0 1)) with ((hi - lo) / 2);
    assert ((hi - lo) / 2 < hi - lo) by (apply Nat.div_lt; lia); lia.
Qed.

Definition findRightmostStartLineAtOrBefore
           (methods : list MethodDoc) (cursorLine : nat) : Z :=
  (Z.of_nat (upperBound methods cursorLine 0 (length methods)) - 1)%Z.

Definition binarySearchMethod (methods : list MethodDoc) (cursorLine : nat)
  : option MethodDoc :=
  match methods with
  | [] => None
  | first :: _ =>
      match nth_error methods (length methods - 1) with
      | None => None
      | Some last =>
          if (cursorLine <? startLine first) || (endLine last <? cursorLine)
          then None
          else
            let candidateIndex :=
              findRightmostStartLineAtOrBefore methods cursorLine in
            if (candidateIndex <? 0)%Z then None
            else
              match nth_error methods (Z.to_nat candidateIndex) with
              | None => None
              | Some candidate =>
                  if isLineInsideMethod candidate cursorLine
                  then Some candidate else None
              end
      end
  end.

End BinarySearch.

Import BinarySearch.

(* ================================================================== *)
(** * parser/TagParser *)
(* ================================================================== *)

Module TagParser.

Record ParsedTagBlock : Type := mkBlock {
  tag : str;
  content : str
}.

Definition supportedTags : list String.string :=
  ["param"; "return"; "returns"; "throws"; "exception"; "since";
   "author"; "deprecated"; "see"; "doc"; "example"].

(** [ /^\s*\*?\s*@(?<tag>param|return|returns|throws|exception|since|author|deprecated|see|doc|example)\b\s*(?<content>.* )$/i ];
    group 1 is [tag], group 2 is [content]. *)
Definition TAG_LINE_PATTERN : regex :=
  seqs [Bol; Star Space; Opt (Chr "*"); Star Space; Chr "@";
        Grp 1 (alts (map (fun t : String.string => LitI t) supportedTags));
        Wordb; Star Space; Grp 2 (Star Dot); Eol].

Definition PARAM_MODIFIERS : list str := [lit "final"].

Definition javaMethodModifiers : list String.string :=
  ["public"; "private"; "protected"; "static"; "final"; "abstract";
   "synchronized"; "default"; "native"; "strictfp"].

(** [ /^\s*(?:(?:public|private|protected|static|final|abstract|synchronized|default|native|strictfp)\s+)*/ ] *)
Definition JAVA_METHOD_MODIFIER_PREFIX : regex :=
  seqs [Bol; Star Space;
        Star (Seq (alts (map (fun t : String.string => Lit t)
                             javaMethodModifiers))
                  (Plus Space))].

(** [[A-Za-z_$]] and [[\w$]] *)
Definition identStart : regex :=
  Cls (fun c => isUpper c || isLower c || isChar "_" c || isChar "$" c).
Definition identPart : regex :=
  Cls (fun c => isWord c || isChar "$" c).

(** [[\w$<>\[\].?,\s]] *)
Definition typeChar : regex :=
  Cls (fun c => isWord c || isChar "$" c || isChar "<" c || isChar ">" c
                || isChar "[" c || isChar "]" c || isChar "." c
                || isChar "?" c || isChar "," c || isSpace c).

Definition createEmptyTagTable : TagTable :=
  mkTagTable [] None [] None None None [] None None.

(** [line.replace(/^\s*\*\s?/, empty)] *)
Definition normalizeJavadocLine (line : str) : str :=
  replace (seqs [Bol; Star Space; Chr "*"; Opt Space]) [] line.

Definition isSupportedTag (value : str) : bool :=
  existsb (fun t : String.string => Js.eqb value t) supportedTags.

(** The state of the tokenizer loop. *)
Record tokenizer : Type := mkTokenizer {
  blocks : list ParsedTagBlock;
  activeTag : option str;
  buffer : list str
}.

Definition flush (st : tokenizer) : tokenizer :=
  match activeTag st with
  | None => st
  | Some t =>
      mkTokenizer
        (blocks st ++ [mkBlock t (trim (join [LF] (buffer st)))]) None []
  end.

Definition orEmpty (o : option str) : str :=
  match o with Some s => s | None => [] end.

(** One turn of the loop over the lines. *)
Definition tokenizeLine (st : tokenizer) (rawLine : str) : tokenizer :=
  let line := normalizeJavadocLine rawLine in
  match exec TAG_LINE_PATTERN line with
  | Some m =>
      let st1 := flush st in
      let tagText := toLowerCase (orEmpty (group 1 m)) in
      if isSupportedTag tagText
      then mkTokenizer (blocks st1) (Some tagText)
                       (buffer st1 ++ [trim (orEmpty (group 2 m))])
      else st1
  | None =>
      match activeTag st with
      | Some _ => mkTokenizer (blocks st) (activeTag st)
                              (buffer st ++ [trim line])
      | None => st
      end
  end.

(** [ /\r?\n/ ] *)
Definition lineBreak : regex := Seq (Opt (Chr CR)) (Chr LF).

Definition tokenizeTagBlocks (rawTags : str) : list ParsedTagBlock :=
  let lines := split lineBreak rawTags in
  blocks (flush (fold_left tokenizeLine lines (mkTokenizer [] None []))).

(** [ /^(<\s*[A-Za-z_$][\w$]*\s*>|[A-Za-z_$][\w$]* )\s*(.* )$/s ] *)
Definition paramPattern : regex :=
  seqs [Bol;
        Grp 1 (Alt (seqs [Chr "<"; Star Space; identStart; Star identPart;
                          Star Space; Chr ">"])
                   (Seq identStart (Star identPart)));
        Star Space; Grp 2 (Star Any); Eol].

Definition parseParamTag (content : str) (paramTypes : JsMap.t str)
  : option ParamTag :=
  match exec paramPattern content with
  | None => None
  | Some m =>
      let rawName := replaceAll (Plus Space) [] (orEmpty (group 1 m)) in
      let description := trim (orEmpty (group 2 m)) in
      let isTypeParameter :=
        startsWith rawName "<" && endsWith rawName ">" in
      let type :=
        if isTypeParameter then lit "type-parameter"
        else match JsMap.get rawName paramTypes with
             | Some t => t
             | None => lit "unknown"
             end in
      Some (mkParamTag rawName type description)
  end.

(** [ /^([\w.]+)\s*(.* )$/s ] *)
Definition throwsPattern : regex :=
  seqs [Bol; Grp 1 (Plus (Cls (fun c => isWord c || isChar "." c)));
        Star Space; Grp 2 (Star Any); Eol].

Definition parseThrowsTag (content : str) : option ThrowsTag :=
  match exec throwsPattern content with
  | None => None
  | Some m =>
      Some (mkThrowsTag (orEmpty (group 1 m)) (trim (orEmpty (group 2 m))))
  end.

(** The loop of [findMatchingIndex] from index [i], where [s] is the
    text from [i] on. *)
Fixpoint findMatchingFrom (s : str) (i : nat) (depth : Z)
         (openToken closeToken : ascii) : option nat :=
  match s with
  | [] => None
  | c :: s' =>
      if Ascii.eqb c openToken
      then findMatchingFrom s' (S i) (depth + 1)%Z openToken closeToken
      else if Ascii.eqb c closeToken
      then if (depth - 1 =? 0)%Z then Some i
           else findMatchingFrom s' (S i) (depth - 1)%Z openToken closeToken
      else findMatchingFrom s' (S i) depth openToken closeToken
  end.

(** [None] is the source's [-1]. *)
Definition findMatchingIndex (text : str) (startIndex : nat)
           (openToken closeToken : ascii) : option nat :=
  findMatchingFrom (skipn startIndex text) startIndex 0%Z openToken closeToken.

(** [s || null] *)
Definition nonEmpty (s : str) : option str :=
  if truthy s then Some s else None.

Definition extractParenContent (signature : str) : option str :=
  match indexOf signature "(" with
  | None => None
  | Some openParen =>
      match findMatchingIndex signature openParen "(" ")" with
      | None => nonEmpty (trim (sliceFrom signature (openParen + 1)))
      | Some closeParen =>
          nonEmpty (trim (slice signature (openParen + 1) closeParen))
      end
  end.

(** The length of the longest prefix of [s] within the class [p]. *)
Fixpoint spanLength (p : ascii -> bool) (s : str) : nat :=
  match s with
  | c :: s' => if p c then S (spanLength p s') else 0
  | [] => 0
  end.

Definition stripLeadingAnnotation (text : str) : str :=
  let index1 :=
    1 + spanLength (fun c => isWord c || isChar "." c) (skipn 1 text) in
  let index2 := index1 + spanLength isSpace (skipn index1 text) in
  match nth_error text index2 with
  | Some c =>
      if Ascii.eqb c "("
      then match findMatchingIndex text index2 "(" ")" with
           | None => []
           | Some closeParen => sliceFrom text (closeParen + 1)
           end
      else sliceFrom text index2
  | None => sliceFrom text index2
  end.

(** The first modifier of [PARAM_MODIFIERS] that [trimmed] starts with,
    followed by white space or by the end of the text. *)
Definition leadingModifier (trimmed : str) : option str :=
  find (fun modifier =>
          let followedBySpace :=
            (length trimmed =? length modifier)
            || match nth_error trimmed (length modifier) with
               | Some c => isSpace c
               | None => false
               end in
          startsWith trimmed modifier && followedBySpace)
       PARAM_MODIFIERS.

(** The [while] loop of [stripAnnotationsAndModifiers]; every turn that
    does not return shortens [remaining]. *)
Fixpoint stripLoop (fuel : nat) (remaining : str) : str :=
  match fuel with
  | 0 => remaining
  | S f =>
      match remaining with
      | [] => remaining
      | _ :: _ =>
          let trimmed := trimStart remaining in
          if startsWith trimmed "@"
          then stripLoop f (stripLeadingAnnotation trimmed)
          else match leadingModifier trimmed with
               | Some modifier => stripLoop f (sliceFrom trimmed (length modifier))
               | None => trimmed
               end
      end
  end.

Definition stripAnnotationsAndModifiers (paramDecl : str) : str :=
  stripLoop (S (length paramDecl)) paramDecl.

(** The state of the loop of [splitByTopLevelComma]. *)
Record splitter : Type := mkSplitter {
  result : list str;
  current : str;
  angleDepth : nat;
  parenDepth : nat
}.

Definition splitStep (st : splitter) (c : ascii) : splitter :=
  if Ascii.eqb c "<"
  then mkSplitter (result st) (current st ++ [c])
                  (angleDepth st + 1) (parenDepth st)
  else if Ascii.eqb c ">"
  then mkSplitter (result st) (current st ++ [c])
                  (Nat.max 0 (angleDepth st - 1)) (parenDepth st)
  else if Ascii.eqb c "("
  then mkSplitter (result st) (current st ++ [c])
                  (angleDepth st) (parenDepth st + 1)
  else if Ascii.eqb c ")"
  then mkSplitter (result st) (current st ++ [c])
                  (angleDepth st) (Nat.max 0 (parenDepth st - 1))
  else if Ascii.eqb c "," && (angleDepth st =? 0) && (parenDepth st =? 0)
  then mkSplitter (result st ++ [current st]) []
                  (angleDepth st) (parenDepth st)
  else mkSplitter (result st) (current st ++ [c])
                  (angleDepth st) (parenDepth st).

Definition splitByTopLevelComma (paramsText : str) : list str :=
  let st := fold_left splitStep paramsText (mkSplitter [] [] 0 0) in
  if truthy (trim (current st)) then result st ++ [current st] else result st.

(** One turn of the loop of [parseSignatureParams]. *)
Definition addParam (result : JsMap.t str) (declaration : str) : JsMap.t str :=
  let trimmed := trim declaration in
  if negb (truthy trimmed) then result
  else
    let cleaned := stripAnnotationsAndModifiers trimmed in
    match lastIndexOf cleaned " " with
    | None => result
    | Some lastSpace =>
        let type := trim (slice cleaned 0 lastSpace) in
        let name := trim (sliceFrom cleaned (lastSpace + 1)) in
        if negb (truthy name) || negb (truthy type) then result
        else JsMap.set name type result
    end.

Definition parseSignatureParams (signature : str) : JsMap.t str :=
  match extractParenContent signature with
  | None => []
  | Some paramsText =>
      fold_left addParam (splitByTopLevelComma paramsText) []
  end.

(** [ /^[A-Za-z_$][\w$<>\[\].?,\s]*\s+[A-Za-z_$][\w$]*\s*\(/ ] *)
Definition typeThenNamePattern : regex :=
  seqs [Bol; identStart; Star typeChar; Plus Space;
        identStart; Star identPart; Star Space; Chr "("].

Definition removeMethodGenericDecl (signature : str) : str :=
  match indexOf signature "<", indexOf signature "(" with
  | Some openAngle, Some openParen =>
      if openParen <? openAngle then signature
      else
        match findMatchingIndex signature openAngle "<" ">" with
        | None => signature
        | Some closeAngle =>
            let afterGeneric :=
              trimStart (sliceFrom signature (closeAngle + 1)) in
            if test typeThenNamePattern afterGeneric
            then slice signature 0 openAngle ++ afterGeneric
            else signature
        end
  | _, _ => signature
  end.

(** [ /^([A-Za-z_$][\w$<>\[\].?,\s]*?)\s+[A-Za-z_$][\w$]*\s*\(/ ] *)
Definition returnTypePattern : regex :=
  seqs [Bol; Grp 1 (Seq identStart (StarLazy typeChar)); Plus Space;
        identStart; Star identPart; Star Space; Chr "("].

Definition parseReturnType (signature : str) : str :=
  let cleanSignature :=
    trim (replace (seqs [Chr "{"; Star Any; Eol]) [] signature) in
  let withoutGenericDecl := removeMethodGenericDecl cleanSignature in
  let withoutModifiers :=
    replace JAVA_METHOD_MODIFIER_PREFIX [] withoutGenericDecl in
  match exec returnTypePattern withoutModifiers with
  | Some m =>
      match group 1 m with
      | Some g => if truthy g then trim g else lit "void"
      | None => lit "void"
      end
  | None => lit "void"
  end.

(** One turn of the loop over the blocks of [parseTagTable]. *)
Definition applyBlock (paramTypes : JsMap.t str) (returnType : str)
           (t : TagTable) (block : ParsedTagBlock) : TagTable :=
  let content := trim (content block) in
  let tagIs (s : String.string) := Js.eqb (tag block) s in
  if tagIs "param" then
    match parseParamTag content paramTypes with
    | Some parsed =>
        mkTagTable (params t ++ [parsed]) (returns t) (throws t) (since t)
                   (author t) (deprecated t) (see t) (doc t) (example t)
    | None => t
    end
  else if tagIs "return" || tagIs "returns" then
    if negb (Js.eqb returnType "void")
    then mkTagTable (params t) (Some (mkReturnTag returnType content))
                    (throws t) (since t) (author t) (deprecated t) (see t)
                    (doc t) (example t)
    else t
  else if tagIs "throws" || tagIs "exception" then
    match parseThrowsTag content with
    | Some parsed =>
        mkTagTable (params t) (returns t) (throws t ++ [parsed]) (since t)
                   (author t) (deprecated t) (see t) (doc t) (example t)
    | None => t
    end
  else if tagIs "since" then
    mkTagTable (params t) (returns t) (throws t) (nonEmpty content)
               (author t) (deprecated t) (see t) (doc t) (example t)
  else if tagIs "author" then
    mkTagTable (params t) (returns t) (throws t) (since t)
               (nonEmpty content) (deprecated t) (see t) (doc t) (example t)
  else if tagIs "deprecated" then
    mkTagTable (params t) (returns t) (throws t) (since t)
               (author t) (nonEmpty content) (see t) (doc t) (example t)
  else if tagIs "see" then
    if truthy content
    then mkTagTable (params t) (returns t) (throws t) (since t)
                    (author t) (deprecated t) (see t ++ [content])
                    (doc t) (example t)
    else t
  else if tagIs "doc" then
    mkTagTable (params t) (returns t) (throws t) (since t)
               (author t) (deprecated t) (see t) (nonEmpty content) (example t)
  else if tagIs "example" then
    mkTagTable (params t) (returns t) (throws t) (since t)
               (author t) (deprecated t) (see t) (doc t) (nonEmpty content)
  else t.

Definition parseTagTable (rawTags signature : str) : TagTable :=
  if negb (truthy (trim rawTags)) then createEmptyTagTable
  else
    let blocks := tokenizeTagBlocks rawTags in
    match blocks with
    | [] => createEmptyTagTable
    | _ :: _ =>
        let paramTypes := parseSignatureParams signature in
        let returnType := parseReturnType signature in
        fold_left (applyBlock paramTypes returnType) blocks
                  createEmptyTagTable
    end.

End TagParser.

Import TagParser.

(* ================================================================== *)
(** * The editor's symbol model (vscode) *)
(* ================================================================== *)

Inductive SymbolKind : Type :=
| File | Module_ | Namespace | Package | Class | Method | Property | Field
| Constructor | Enum | Interface | Function | Variable_ | Constant
| String_ | Number | Boolean | Array | Object | Key | Null | EnumMember
| Struct | Event | Operator | TypeParameter.

Definition SymbolKind_eqb (a b : SymbolKind) : bool :=
  match a, b with
  | File, File | Module_, Module_ | Namespace, Namespace
  | Package, Package | Class, Class | Method, Method
  | Property, Property | Field, Field | Constructor, Constructor
  | Enum, Enum | Interface, Interface | Function, Function
  | Variable_, Variable_ | Constant, Constant | String_, String_
  | Number, Number | Boolean, Boolean | Array, Array | Object, Object
  | Key, Key | Null, Null | EnumMember, EnumMember | Struct, Struct
  | Event, Event | Operator, Operator
  | TypeParameter, TypeParameter => true
  | _, _ => false
  end.

Record Position : Type := mkPosition { line : nat; character : nat }.

Record Range : Type := mkRange { start : Position; end_ : Position }.

(** [selectionRange] is read through [?.] by the parser, so it may be
    absent. *)
#[warnings="-register-all"] Inductive DocumentSymbol : Type :=
| mkDocumentSymbol (name detail : str) (kind : SymbolKind)
                   (range : Range) (selectionRange : option Range)
                   (children : list DocumentSymbol).

Definition sym_name (s : DocumentSymbol) : str :=
  match s with mkDocumentSymbol n _ _ _ _ _ => n end.
Definition sym_detail (s : DocumentSymbol) : str :=
  match s with mkDocumentSymbol _ d _ _ _ _ => d end.
Definition sym_kind (s : DocumentSymbol) : SymbolKind :=
  match s with mkDocumentSymbol _ _ k _ _ _ => k end.
Definition sym_range (s : DocumentSymbol) : Range :=
  match s with mkDocumentSymbol _ _ _ r _ _ => r end.
Definition sym_selectionRange (s : DocumentSymbol) : option Range :=
  match s with mkDocumentSymbol _ _ _ _ r _ => r end.
Definition sym_children (s : DocumentSymbol) : list DocumentSymbol :=
  match s with mkDocumentSymbol _ _ _ _ _ c => c end.

(** An open document of the editor, as far as the resolver reads it. *)
Record TextDocument : Type := mkTextDocument {
  doc_uri : str;
  doc_version : Z
}.

(** What the resolver reads of the editor at the time of a call:
    [vscode.window.activeTextEditor?.document] and
    [vscode.workspace.textDocuments]. *)
Record Editor : Type := mkEditor {
  activeDocument : option TextDocument;
  textDocuments : list TextDocument
}.

(* ================================================================== *)
(** * parser/SymbolResolver *)
(* ================================================================== *)

Module SymbolResolver.

Definition MAX_CACHE_ENTRIES : nat := 128.

Definition CLASS_LIKE_KINDS : list SymbolKind := [Class; Interface; Enum].
Definition METHOD_KINDS : list SymbolKind := [Method; Constructor; Function].
Definition FIELD_KINDS : list SymbolKind := [Field; Constant].

Definition kindIn (ks : list SymbolKind) (k : SymbolKind) : bool :=
  existsb (SymbolKind_eqb k) ks.

Definition isClassLikeSymbol (symbol : DocumentSymbol) : bool :=
  kindIn CLASS_LIKE_KINDS (sym_kind symbol).
Definition isMethodSymbol (symbol : DocumentSymbol) : bool :=
  kindIn METHOD_KINDS (sym_kind symbol).
Definition isFieldSymbol (symbol : DocumentSymbol) : bool :=
  kindIn FIELD_KINDS (sym_kind symbol).
Definition isEnumMemberSymbol (symbol : DocumentSymbol) : bool :=
  SymbolKind_eqb (sym_kind symbol) EnumMember.
Definition isConstructorSymbol (symbol : DocumentSymbol) : bool :=
  SymbolKind_eqb (sym_kind symbol) Constructor.

Record CachedSymbols : Type := mkCached {
  version : Z;
  symbols : list DocumentSymbol
}.

(** [symbolCache]: document key to cached symbols, in insertion order. *)
Definition Cache := JsMap.t CachedSymbols.

(** The result and the cache after the call. *)
Definition getCachedSymbols (cacheKey : str) (version_ : Z) (symbolCache : Cache)
  : option (list DocumentSymbol) * Cache :=
  match JsMap.get cacheKey symbolCache with
  | None => (None, symbolCache)
  | Some cached =>
      if negb (version cached =? version_)%Z then (None, symbolCache)
      else (Some (symbols cached),
            JsMap.set cacheKey cached (JsMap.delete cacheKey symbolCache))
  end.

Definition setCachedSymbols (cacheKey : str) (version_ : Z)
           (symbols_ : list DocumentSymbol) (symbolCache : Cache) : Cache :=
  let evicted :=
    if negb (JsMap.has cacheKey symbolCache)
       && (MAX_CACHE_ENTRIES <=? JsMap.size symbolCache)
    then match JsMap.firstKey symbolCache with
         | Some oldestKey => JsMap.delete oldestKey symbolCache
         | None => symbolCache
         end
    else symbolCache in
  JsMap.set cacheKey (mkCached version_ symbols_) evicted.

Definition getOpenDocumentVersion (editor : Editor) (cacheKey : str)
  : option Z :=
  let fromList :=
    option_map doc_version
      (find (fun item => Js.eqb (doc_uri item) cacheKey)
            (textDocuments editor)) in
  match activeDocument editor with
  | Some document =>
      if Js.eqb (doc_uri document) cacheKey
      then Some (doc_version document) else fromList
  | None => fromList
  end.

(** The decimal text of an integer, as a template literal prints it. *)
Definition showZ (z : Z) : str :=
  lit (DecimalString.NilZero.string_of_int (Z.to_int z)).

Definition requestKeyOf (cacheKey : str) (version_ : option Z) : str :=
  cacheKey ++ lit "#" ++
    match version_ with Some v => showZ v | None => lit "untracked" end.

(** A lookup handed to the provider.  [Fetching]: the provider has not
    answered.  [Fulfilled]: it has answered and the [then] callback has
    run; the [finally] callback is still to run. *)
Inductive Stage : Type :=
| Fetching
| Fulfilled (symbols_ : list DocumentSymbol).

Record Request : Type := mkRequest {
  req_uri : str;
  req_version : option Z;
  req_key : str;
  req_stage : Stage
}.

(** The module's state: its two maps, the promises it has created and
    that are not yet through their [finally] (by promise number), and
    the log of the calls made to the provider. *)
Record Resolver : Type := mkResolver {
  symbolCache : Cache;
  inFlightRequests : JsMap.t nat;
  promises : list (nat * Request);
  nextPromise : nat;
  providerCalls : list str
}.

Definition initial : Resolver := mkResolver [] [] [] 0 [].

(** What a call of [resolveSymbols] returns: symbols from the cache, or
    a promise (one already pending, or the one it has just created). *)
Inductive Resolved : Type :=
| FromCache (symbols_ : list DocumentSymbol)
| Pending (promise : nat)
| Issued (promise : nat).

(** [resolveSymbols] up to its [return]: it runs without suspension,
    the provider being called inside [fetchAndNormalizeSymbols] before
    its first [await]. *)
Definition resolveSymbols (editor : Editor) (uri : str) (w : Resolver)
  : Resolved * Resolver :=
  let cacheKey := uri in
  let version_ := getOpenDocumentVersion editor cacheKey in
  let hit :=
    match version_ with
    | Some v => getCachedSymbols cacheKey v (symbolCache w)
    | None => (None, symbolCache w)
    end in
  match fst hit with
  | Some cached =>
      (FromCache cached,
       mkResolver (snd hit) (inFlightRequests w) (promises w)
                  (nextPromise w) (providerCalls w))
  | None =>
      let requestKey := requestKeyOf cacheKey version_ in
      match JsMap.get requestKey (inFlightRequests w) with
      | Some pending => (Pending pending, w)
      | None =>
          let request := nextPromise w in
          (Issued request,
           mkResolver (symbolCache w)
                      (JsMap.set requestKey request (inFlightRequests w))
                      (promises w ++
                         [(request, mkRequest uri version_ requestKey Fetching)])
                      (S (nextPromise w))
                      (providerCalls w ++ [uri]))
      end
  end.

Fixpoint findPromise (p : nat) (ps : list (nat * Request)) : option Request :=
  match ps with
  | [] => None
  | (q, r) :: ps' => if q =? p then Some r else findPromise p ps'
  end.

Fixpoint updatePromise (p : nat) (r : Request) (ps : list (nat * Request))
  : list (nat * Request) :=
  match ps with
  | [] => []
  | (q, r') :: ps' =>
      if q =? p then (q, r) :: ps' else (q, r') :: updatePromise p r ps'
  end.

Definition removePromise (p : nat) (ps : list (nat * Request))
  : list (nat * Request) :=
  filter (fun qr => negb (fst qr =? p)) ps.

(** The provider answers promise [p]: [Some symbols_] is its normalized
    reply, [None] its failure, which [fetchAndNormalizeSymbols] turns
    into the empty list.  The [then] callback then caches the symbols
    when the version was known. *)
Definition settle (p : nat) (reply : option (list DocumentSymbol))
           (w : Resolver) : Resolver :=
  match findPromise p (promises w) with
  | Some r =>
      match req_stage r with
      | Fetching =>
          let symbols_ := match reply with Some s => s | None => [] end in
          let cache' :=
            match req_version r with
            | Some v => setCachedSymbols (req_uri r) v symbols_ (symbolCache w)
            | None => symbolCache w
            end in
          mkResolver cache' (inFlightRequests w)
                     (updatePromise p
                        (mkRequest (req_uri r) (req_version r) (req_key r)
                                   (Fulfilled symbols_))
                        (promises w))
                     (nextPromise w) (providerCalls w)
      | Fulfilled _ => w
      end
  | None => w
  end.

(** The [finally] callback of promise [p]. *)
Definition finally (p : nat) (w : Resolver) : Resolver :=
  match findPromise p (promises w) with
  | Some r =>
      match req_stage r with
      | Fulfilled _ =>
          mkResolver (symbolCache w)
                     (JsMap.delete (req_key r) (inFlightRequests w))
                     (removePromise p (promises w))
                     (nextPromise w) (providerCalls w)
      | Fetching => w
      end
  | None => w
  end.

(** The loop of [clearInFlightByPrefix]. *)
Definition clearInFlightByPrefix (prefix : str) (m : JsMap.t nat)
  : JsMap.t nat :=
  filter (fun kv => negb (startsWith (fst kv) prefix)) m.

Definition clearSymbolCache (uri : str) (w : Resolver) : Resolver :=
  let cacheKey := uri in
  mkResolver (JsMap.delete cacheKey (symbolCache w))
             (clearInFlightByPrefix (cacheKey ++ lit "#") (inFlightRequests w))
             (promises w) (nextPromise w) (providerCalls w).

Definition clearAllSymbolCache (w : Resolver) : Resolver :=
  mkResolver [] [] (promises w) (nextPromise w) (providerCalls w).

(** The turns of the event loop that touch the module. *)
Inductive Event : Type :=
| CallResolve (editor : Editor) (uri : str)
| ProviderSettles (promise : nat) (reply : option (list DocumentSymbol))
| FinallyRuns (promise : nat)
| CallClear (uri : str)
| CallClearAll.

Definition step (w : Resolver) (e : Event) : Resolver :=
  match e with
  | CallResolve editor uri => snd (resolveSymbols editor uri w)
  | ProviderSettles p reply => settle p reply w
  | FinallyRuns p => finally p w
  | CallClear uri => clearSymbolCache uri w
  | CallClearAll => clearAllSymbolCache w
  end.

Definition runEvents (es : list Event) (w : Resolver) : Resolver :=
  fold_left step es w.

(** The lookups of key [k] the provider has been handed and has not
    answered. *)
Definition inFlightLookups (k : str) (w : Resolver) : list nat :=
  map fst
      (filter (fun pr =>
                 Js.eqb (req_key (snd pr)) k
                 && match req_stage (snd pr) with
                    | Fetching => true
                    | Fulfilled _ => false
                    end)
              (promises w)).

End SymbolResolver.

Import SymbolResolver.

(* ================================================================== *)
(** * parser/JavaDocParser *)
(* ================================================================== *)

Module JavaDocParser.

Record FlattenedSymbol : Type := mkFlattened {
  symbol : DocumentSymbol;
  flat_belongsTo : str
}.

(** [lines[i]], or the empty text where the index is out of range. *)
Definition lineAt (lines : list str) (i : nat) : str :=
  match nth_error lines i with Some l => l | None => [] end.

(** [lines.slice(a, b)] *)
Definition sliceLines (lines : list str) (a b : nat) : list str :=
  firstn (b - a) (skipn a lines).

(** The decimal text of a line number, as a template literal prints it. *)
Definition showNat (n : nat) : str :=
  lit (DecimalString.NilZero.string_of_uint (Nat.to_uint n)).

(** [ /^\s*@[\w.]+/ ] *)
Definition annotationPattern : regex :=
  seqs [Bol; Star Space; Chr "@";
        Plus (Cls (fun c => isWord c || isChar "." c))].

Definition typeModifiers : list String.string :=
  ["public"; "protected"; "private"; "abstract"; "final"; "static";
   "sealed"; "non-sealed"; "strictfp"].

Definition typeKeywords : list String.string :=
  ["class"; "interface"; "enum"; "record"; "@interface"].

(** [ /^\s*(?:@[\w.]+(?:\([^)]*\))?\s+)*(?:(?:public|protected|private|abstract|final|static|sealed|non-sealed|strictfp)\s+)*(?:class|interface|enum|record|@interface)\s+([A-Za-z_$][\w$]* )\b/ ] *)
Definition topLevelTypePattern : regex :=
  seqs [Bol; Star Space;
        Star (seqs [Chr "@"; Plus (Cls (fun c => isWord c || isChar "." c));
                    Opt (seqs [Chr "(";
                               Star (Cls (fun c => negb (isChar ")" c)));
                               Chr ")"]);
                    Plus Space]);
        Star (Seq (alts (map (fun t : String.string => Lit t) typeModifiers))
                  (Plus Space));
        alts (map (fun t : String.string => Lit t) typeKeywords);
        Plus Space;
        Grp 1 (Seq identStart (Star identPart));
        Wordb].

(** ** Symbol tree *)

(** [flattenSymbols] for one element of the array: the body of its
    [for] loop.  The recursive call on [symbol.children] is the
    [flat_map]. *)
Fixpoint flattenSymbol (parentName : str) (symbol : DocumentSymbol)
  : list FlattenedSymbol :=
  if isClassLikeSymbol symbol then
    let currentClass :=
      if truthy parentName
      then parentName ++ lit "." ++ sym_name symbol
      else sym_name symbol in
    match symbol with
    | mkDocumentSymbol _ _ _ _ _ children =>
        if 0 <? length children
        then flat_map (flattenSymbol currentClass) children
        else []
    end
  else if isMethodSymbol symbol || isFieldSymbol symbol
          || isEnumMemberSymbol symbol then
    [mkFlattened symbol (orElse parentName "Unknown")]
  else [].

Definition flattenSymbols (symbols : list DocumentSymbol) (parentName : str)
  : list FlattenedSymbol :=
  flat_map (flattenSymbol parentName) symbols.

(** ** Comments *)

(** The two nested loops of [onlyBlankOrAnnotations], which both step
    one line at a time, as one loop: [parenDepth] is [Some d] inside
    the inner loop (the arguments of an annotation are being skipped)
    and [None] at the head of the outer loop. *)
Definition parenBalance (l : str) : Z :=
  (Z.of_nat (count (Chr "(") l) - Z.of_nat (count (Chr ")") l))%Z.

Fixpoint blankOrAnnotations (lines : list str) (parenDepth : option Z) : bool :=
  match lines with
  | [] => true
  | l :: lines' =>
      let outer :=
        let line := trim l in
        if negb (truthy line) then blankOrAnnotations lines' None
        else if negb (test annotationPattern line) then false
        else blankOrAnnotations lines' (Some (parenBalance l)) in
      match parenDepth with
      | Some d =>
          if (0 <? d)%Z
          then blankOrAnnotations lines' (Some (d + parenBalance l)%Z)
          else outer
      | None => outer
      end
  end.

Definition onlyBlankOrAnnotations (lines : list str) : bool :=
  blankOrAnnotations lines None.

(** The inner loop of [extractComment]: from [startLine] upward, the
    comment that opens with the nearest line holding the opening token;
    [None] when the loop breaks or runs out. *)
Fixpoint findOpening (lines : list str) (endLine startLine : nat)
  : option str :=
  let line := lineAt lines startLine in
  if includes line "/**"
  then Some (join [LF] (sliceLines lines startLine (endLine + 1)))
  else if negb (startLine =? endLine) && includes line "*/" then None
  else match startLine with
       | 0 => None
       | S above => findOpening lines endLine above
       end.

(** The outer loop of [extractComment], for [endLine] from [n - 1]
    down to [0]. *)
Fixpoint extractCommentFrom (lines : list str) (targetLine n : nat) : str :=
  match n with
  | 0 => []
  | S endLine =>
      let trimmed := trim (lineAt lines endLine) in
      if negb (truthy trimmed) then extractCommentFrom lines targetLine endLine
      else if negb (endsWith trimmed "*/")
      then extractCommentFrom lines targetLine endLine
      else if negb (onlyBlankOrAnnotations
                      (sliceLines lines (endLine + 1) targetLine))
      then extractCommentFrom lines targetLine endLine
      else match findOpening lines endLine endLine with
           | Some comment => comment
           | None => extractCommentFrom lines targetLine endLine
           end
  end.

Definition extractComment (text : str) (targetLine : nat) : str :=
  extractCommentFrom (splitOn LF text) targetLine targetLine.

Definition extractMemberComment (text : str) (targetLine : nat)
           (classComment : str) : str :=
  let raw := extractComment text targetLine in
  if length raw =? 0 then []
  else if (0 <? length classComment) && Js.eqb raw classComment then []
  else raw.

(** [ /\/\*\*|\*\//g ] and [ /\n{3,}/g ] *)
Definition commentDelimiters : regex := Alt (Lit "/**") (Lit "*/").
Definition threeLineFeeds : regex :=
  seqs [Chr LF; Chr LF; Chr LF; Star (Chr LF)].

Definition cleanComment (raw : str) : str :=
  let unix := replaceAll (Lit [CR; LF]) [LF] raw in
  let bare := replaceAll commentDelimiters [] unix in
  let lines :=
    map (replace (seqs [Bol; Star Space; Chr "*"; Opt Space]) [])
        (splitOn LF bare) in
  trim (replaceAll threeLineFeeds [LF; LF] (join [LF] lines)).

(** [ /@\w+/ ] *)
Definition tagMarker : regex := Seq (Chr "@") (Plus Word).

Definition parseJavadoc (rawComment signature : str) : str * TagTable :=
  let cleaned := cleanComment rawComment in
  let tagIndex := search tagMarker cleaned in
  let description :=
    match tagIndex with
    | None => cleaned
    | Some i => trim (slice cleaned 0 i)
    end in
  let rawTags :=
    match tagIndex with
    | None => []
    | Some i => sliceFrom cleaned i
    end in
  (description, parseTagTable rawTags signature).

(** [ /@author\s+(.+?)(?:\n|$)/ ] and the same for [@since] *)
Definition classTagPattern (t : String.string) : regex :=
  seqs [Lit t; Plus Space; Grp 1 (PlusLazy Dot); Alt (Chr LF) Eol].

Definition parseClassJavadoc (comment : str) : option str * option str :=
  let field t :=
    match exec (classTagPattern t) comment with
    | Some m => option_map trim (group 1 m)
    | None => None
    end in
  (field "@author", field "@since").

(** ** Signatures *)

Definition MAX_SIGNATURE_LINES : nat := 15.

Record sigScan : Type := mkSigScan {
  sig_text : str;
  sig_parenDepth : Z;
  foundOpenParen : bool
}.

(** The loop over the characters of one line; [true] when the closing
    parenthesis of the declaration has been reached. *)
Fixpoint scanSignatureLine (line : str) (st : sigScan) : sigScan * bool :=
  match line with
  | [] => (st, false)
  | c :: line' =>
      let text := sig_text st ++ [c] in
      if Ascii.eqb c "("
      then scanSignatureLine line'
             (mkSigScan text (sig_parenDepth st + 1)%Z true)
      else if Ascii.eqb c ")"
      then
        let depth := (sig_parenDepth st - 1)%Z in
        if foundOpenParen st && (depth =? 0)%Z
        then (mkSigScan text depth (foundOpenParen st), true)
        else scanSignatureLine line'
               (mkSigScan text depth (foundOpenParen st))
      else scanSignatureLine line'
             (mkSigScan text (sig_parenDepth st) (foundOpenParen st))
  end.

Fixpoint scanSignature (lines : list str) (st : sigScan) : str :=
  match lines with
  | [] => sig_text st
  | l :: lines' =>
      let (st', closed) := scanSignatureLine l st in
      if closed then sig_text st'
      else scanSignature lines'
             (mkSigScan (sig_text st' ++ lit " ") (sig_parenDepth st')
                        (foundOpenParen st'))
  end.

Definition extractFullSignature (lines : list str) (startLine_ : nat) : str :=
  let maxLine := Nat.min (length lines) (startLine_ + MAX_SIGNATURE_LINES) in
  trim (replaceAll (Plus Space) (lit " ")
          (scanSignature (sliceLines lines startLine_ maxLine)
                         (mkSigScan [] 0%Z false))).

Definition extractAccessModifierFromLine (l : str) : AccessModifier :=
  if includes l "public " then AccPublic
  else if includes l "protected " then AccProtected
  else if includes l "private " then AccPrivate
  else AccDefault.

Definition extractSignatureFromLine (l : str) : str :=
  let withoutBody := trim (replace (seqs [Chr "{"; Star Dot; Eol]) [] l) in
  orElse withoutBody l.

(** ** Fields and enum constants *)

Definition extractFieldType (l : str) : str :=
  let withoutAssign :=
    match splitOn "=" l with p :: _ => p | [] => [] end in
  let withoutSemicolon :=
    trim (replace (Seq (Chr ";") Eol) [] withoutAssign) in
  let parts := split (Plus Space) withoutSemicolon in
  if 2 <=? length parts
  then match nth_error parts (length parts - 2) with
       | Some p => p
       | None => lit "unknown"
       end
  else lit "unknown".

(** The loop of [extractEnumArguments] from index [i]; [s] is the text
    from [i] on. *)
Fixpoint closingParenFrom (s : str) (i : nat) (depth : Z) : option nat :=
  match s with
  | [] => None
  | c :: s' =>
      if Ascii.eqb c "(" then closingParenFrom s' (S i) (depth + 1)%Z
      else if Ascii.eqb c ")"
      then if (depth - 1 =? 0)%Z then Some i
           else closingParenFrom s' (S i) (depth - 1)%Z
      else closingParenFrom s' (S i) depth
  end.

Definition extractEnumArguments (lineText : str) : str :=
  match indexOf lineText "(" with
  | None => []
  | Some openIndex =>
      match closingParenFrom (skipn openIndex lineText) openIndex 0%Z with
      | Some i => slice lineText openIndex (i + 1)
      | None =>
          replace (seqs [Cls (fun c => isChar "," c || isChar ";" c);
                         Star Space; Eol])
                  [] (sliceFrom lineText openIndex)
      end
  end.

(** ** Text-scanning fallback *)

Record LineState : Type := mkLineState {
  inBlockComment : bool;
  inString : bool;
  inChar : bool
}.

Record ParsedLine : Type := mkParsedLine {
  code : str;
  openBraces : nat;
  closeBraces : nat;
  state : LineState
}.

(** The loop of [parseLineForStructure] over the characters still to
    read; [acc] holds the counters and flags so far and [escaped] is
    the flag local to the line. *)
Fixpoint scanStructure (s : str) (acc : ParsedLine) (escaped : bool)
  : ParsedLine :=
  match s with
  | [] => acc
  | c :: s' =>
      let st := state acc in
      let nextIs (x : ascii) :=
        match s' with n :: _ => Ascii.eqb n x | [] => false end in
      let keep st' esc := scanStructure s'
        (mkParsedLine (code acc) (openBraces acc) (closeBraces acc) st') esc in
      if inBlockComment st then
        match s' with
        | n :: s'' =>
            if Ascii.eqb c "*" && Ascii.eqb n "/"
            then scanStructure s''
                   (mkParsedLine (code acc) (openBraces acc) (closeBraces acc)
                      (mkLineState false (inString st) (inChar st)))
                   escaped
            else keep st escaped
        | [] => keep st escaped
        end
      else if inString st then
        if escaped then keep st false
        else if Ascii.eqb c BACKSLASH then keep st true
        else if Ascii.eqb c DQUOTE
        then keep (mkLineState (inBlockComment st) false (inChar st)) escaped
        else keep st escaped
      else if inChar st then
        if escaped then keep st false
        else if Ascii.eqb c BACKSLASH then keep st true
        else if Ascii.eqb c "'"
        then keep (mkLineState (inBlockComment st) (inString st) false) escaped
        else keep st escaped
      else if Ascii.eqb c "/" && nextIs "/"%char then acc
      else
        match s' with
        | n :: s'' =>
            if Ascii.eqb c "/" && Ascii.eqb n "*"
            then scanStructure s''
                   (mkParsedLine (code acc) (openBraces acc) (closeBraces acc)
                      (mkLineState true (inString st) (inChar st)))
                   escaped
            else if Ascii.eqb c DQUOTE
            then keep (mkLineState (inBlockComment st) true (inChar st)) escaped
            else if Ascii.eqb c "'"
            then keep (mkLineState (inBlockComment st) (inString st) true) escaped
            else scanStructure s'
                   (mkParsedLine (code acc ++ [c])
                      (if Ascii.eqb c "{" then S (openBraces acc)
                       else openBraces acc)
                      (if Ascii.eqb c "}" then S (closeBraces acc)
                       else closeBraces acc)
                      st)
                   escaped
        | [] =>
            if Ascii.eqb c DQUOTE
            then keep (mkLineState (inBlockComment st) true (inChar st)) escaped
            else if Ascii.eqb c "'"
            then keep (mkLineState (inBlockComment st) (inString st) true) escaped
            else scanStructure s'
                   (mkParsedLine (code acc ++ [c])
                      (if Ascii.eqb c "{" then S (openBraces acc)
                       else openBraces acc)
                      (if Ascii.eqb c "}" then S (closeBraces acc)
                       else closeBraces acc)
                      st)
                   escaped
        end
  end.

Definition parseLineForStructure (l : str) (st : LineState) : ParsedLine :=
  scanStructure l (mkParsedLine [] 0 0 st) false.

(** The loop of [extractPrimaryTypeInfoFromText] from line [i] on: the
    pair of [preferred] and [first] when it ends. *)
Fixpoint primaryTypeLoop (baseName : str) (lines : list str) (i : nat)
         (braceDepth : Z) (st : LineState) (first : option (str * nat))
  : option (str * nat) * option (str * nat) :=
  match lines with
  | [] => (None, first)
  | rawLine :: lines' =>
      let parsed := parseLineForStructure rawLine st in
      let depth' :=
        (braceDepth + Z.of_nat (openBraces parsed)
         - Z.of_nat (closeBraces parsed))%Z in
      let continue first' :=
        primaryTypeLoop baseName lines' (S i) depth' (state parsed) first' in
      if (braceDepth =? 0)%Z then
        match exec topLevelTypePattern (code parsed) with
        | Some m =>
            match group 1 m with
            | Some name_ =>
                if truthy name_ then
                  let first' :=
                    match first with
                    | Some f => Some f
                    | None => Some (name_, i)
                    end in
                  if Js.eqb name_ baseName then (Some (name_, i), first')
                  else continue first'
                else continue first
            | None => continue first
            end
        | None => continue first
        end
      else continue first
  end.

Record PrimaryTypeInfo : Type := mkPrimaryTypeInfo {
  info_className : str;
  info_classLine : nat;
  info_classComment : str
}.

(** [ /(?:class|interface|enum)\s+(\w+)/ ] *)
Definition classNamePattern : regex :=
  seqs [alts [Lit "class"; Lit "interface"; Lit "enum"]; Plus Space;
        Grp 1 (Plus Word)].

Definition extractClassNameFromText (text : str) : str :=
  match exec classNamePattern text with
  | Some m => match group 1 m with Some n => n | None => lit "Unknown" end
  | None => lit "Unknown"
  end.

(** [ /package\s+([\w.]+);/ ] *)
Definition packagePattern : regex :=
  seqs [Lit "package"; Plus Space;
        Grp 1 (Plus (Cls (fun c => isWord c || isChar "." c))); Chr ";"].

Definition extractPackageName (text : str) : str :=
  match exec packagePattern text with
  | Some m => orEmpty (group 1 m)
  | None => []
  end.

(** ** The parser *)

(** One line written to the console by a [catch] block: the message and
    the error. *)
Record ConsoleError : Type := mkConsoleError {
  message : str;
  error : str
}.

Section Parser.

(** [path.basename(filePath, path.extname(filePath))] of the runtime's
    path library. *)
Variable baseNameOf : str -> str.

(** The operations the [try] blocks of the three per-declaration
    parsers are embedded with do not throw.  An exception of any
    other origin raised while such a block runs for a declaration is
    given by [fault]: [fault fs = Some e] when extracting the details
    of [fs] throws [e]. *)
Variable fault : FlattenedSymbol -> option str.

Definition extractPrimaryTypeInfoFromText (text filePath_ : str)
  : PrimaryTypeInfo :=
  let lines := splitOn LF text in
  let baseName := baseNameOf filePath_ in
  let '(preferred, first) :=
    primaryTypeLoop baseName lines 0 0%Z
                    (mkLineState false false false) None in
  let chosen :=
    match preferred with Some p => Some p | None => first end in
  let className_ :=
    match chosen with Some c => fst c | None => lit "Unknown" end in
  let classLine :=
    match chosen with Some c => snd c | None => 0 end in
  mkPrimaryTypeInfo className_ classLine (extractComment text classLine).

Definition findClassSymbol (symbols_ : list DocumentSymbol) (filePath_ : str)
  : option DocumentSymbol :=
  let classLikes := filter isClassLikeSymbol symbols_ in
  match classLikes with
  | [] => None
  | firstClass :: _ =>
      let baseName := baseNameOf filePath_ in
      match find (fun s => Js.eqb (sym_name s) baseName) classLikes with
      | Some matched => Some matched
      | None => Some firstClass
      end
  end.

(** [symbol.selectionRange?.start.line ?? symbol.range.start.line] *)
Definition startLineOf (s : DocumentSymbol) : nat :=
  match sym_selectionRange s with
  | Some r => line (start r)
  | None => line (start (sym_range s))
  end.

(** The [try] block of [parseMethod]. *)
Definition methodDetails (text : str) (flattened : FlattenedSymbol)
           (classComment_ : str) : MethodDoc :=
  let symbol_ := symbol flattened in
  let lines := splitOn LF text in
  let startLine_ := startLineOf symbol_ in
  let endLine_ := line (end_ (sym_range symbol_)) in
  let fullSignature := extractFullSignature lines startLine_ in
  let rawComment := extractMemberComment text startLine_ classComment_ in
  let hasComment_ := 0 <? length rawComment in
  let '(description_, tags_) :=
    if hasComment_ then parseJavadoc rawComment fullSignature
    else ([], EMPTY_TAG_TABLE) in
  let kind_ :=
    if isConstructorSymbol symbol_ then KindConstructor else KindMethod in
  let displaySignature :=
    orElse (sym_detail symbol_)
           (extractSignatureFromLine (lineAt lines startLine_)) in
  mkMethodDoc (sym_name symbol_ ++ lit "_" ++ showNat startLine_)
              kind_ (sym_name symbol_) displaySignature startLine_ endLine_
              hasComment_ description_ tags_ (flat_belongsTo flattened)
              (extractAccessModifierFromLine fullSignature).

(** The [try] block of [parseField]. *)
Definition fieldDetails (text : str) (flattened : FlattenedSymbol)
           (classComment_ : str) : FieldDoc :=
  let symbol_ := symbol flattened in
  let lines := splitOn LF text in
  let startLine_ := startLineOf symbol_ in
  let lineText :=
    match nth_error lines startLine_ with
    | Some l => trim l
    | None => []
    end in
  let rawComment := extractMemberComment text startLine_ classComment_ in
  let hasComment_ := 0 <? length rawComment in
  let description_ := if hasComment_ then cleanComment rawComment else [] in
  let isConstant :=
    includes lineText "static" && includes lineText "final" in
  mkFieldDoc (sym_name symbol_)
             (orElse (sym_detail symbol_) (extractFieldType lineText))
             lineText startLine_ hasComment_ description_ isConstant
             (extractAccessModifierFromLine lineText)
             (flat_belongsTo flattened).

(** The [try] block of [parseEnumConstant]. *)
Definition enumConstantDetails (text : str) (flattened : FlattenedSymbol)
           (classComment_ : str) : EnumConstantDoc :=
  let symbol_ := symbol flattened in
  let lines := splitOn LF text in
  let startLine_ := startLineOf symbol_ in
  let lineText :=
    match nth_error lines startLine_ with
    | Some l => trim l
    | None => []
    end in
  let rawComment := extractMemberComment text startLine_ classComment_ in
  let hasComment_ := 0 <? length rawComment in
  let description_ := if hasComment_ then cleanComment rawComment else [] in
  mkEnumConstantDoc (sym_name symbol_) startLine_ hasComment_ description_
                    (extractEnumArguments lineText)
                    (flat_belongsTo flattened).

(** [try { ... } catch (error) { console.error(...); return null; }]:
    the value returned and what is written to the console. *)
Definition tryCatch {A : Type} (what : String.string)
           (flattened : FlattenedSymbol) (details : A)
  : option A * list ConsoleError :=
  match fault flattened with
  | Some e =>
      (None,
       [mkConsoleError
          (lit "[JavaDocParser] Failed to parse " ++ lit what ++ lit ": "
             ++ sym_name (symbol flattened)) e])
  | None => (Some details, [])
  end.

Definition parseMethod (text : str) (flattened : FlattenedSymbol)
           (classComment_ : str) : option MethodDoc * list ConsoleError :=
  tryCatch "method" flattened (methodDetails text flattened classComment_).

Definition parseField (text : str) (flattened : FlattenedSymbol)
           (classComment_ : str) : option FieldDoc * list ConsoleError :=
  tryCatch "field" flattened (fieldDetails text flattened classComment_).

Definition parseEnumConstant (text : str) (flattened : FlattenedSymbol)
           (classComment_ : str)
  : option EnumConstantDoc * list ConsoleError :=
  tryCatch "enum constant" flattened
           (enumConstantDetails text flattened classComment_).

(** [xs.sort((a, b) => key(a) - key(b))]: the sort of an array is
    stable. *)
Fixpoint insertBy {A : Type} (key : A -> nat) (x : A) (l : list A) : list A :=
  match l with
  | [] => [x]
  | y :: l' =>
      if key x <=? key y then x :: l else y :: insertBy key x l'
  end.

Definition sortBy {A : Type} (key : A -> nat) (l : list A) : list A :=
  fold_right (insertBy key) [] l.

(** [xs.filter(pick).map(parseOne).filter((m) => m !== null)] with the
    console output of the calls, in order. *)
Definition parseAll {A : Type} (pick : DocumentSymbol -> bool)
           (parseOne : FlattenedSymbol -> option A * list ConsoleError)
           (flattenedSymbols : list FlattenedSymbol)
  : list A * list ConsoleError :=
  let outcomes :=
    map parseOne (filter (fun fs => pick (symbol fs)) flattenedSymbols) in
  (flat_map (fun o => match fst o with Some d => [d] | None => [] end)
            outcomes,
   flat_map snd outcomes).

(** [parse], given what its two [await]s yield: the symbols of
    [resolveSymbols] and the result of [getGitInfo]. *)
Definition parse (text filePath_ : str) (symbols_ : list DocumentSymbol)
           (gitInfo_ : option GitAuthorInfo) : ClassDoc * list ConsoleError :=
  let classSymbol := findClassSymbol symbols_ filePath_ in
  let fallbackClassInfo :=
    match classSymbol with
    | Some _ => None
    | None => Some (extractPrimaryTypeInfoFromText text filePath_)
    end in
  let className_ :=
    match classSymbol, fallbackClassInfo with
    | Some c, _ => sym_name c
    | None, Some f => info_className f
    | None, None => extractClassNameFromText text
    end in
  let packageName_ := extractPackageName text in
  let classLine :=
    match classSymbol, fallbackClassInfo with
    | Some c, _ => startLineOf c
    | None, Some f => info_classLine f
    | None, None => 0
    end in
  let classComment_ :=
    orElse (match classSymbol with
            | Some _ => extractComment text classLine
            | None => []
            end)
           (orElse (match fallbackClassInfo with
                    | Some f => info_classComment f
                    | None => []
                    end)
                   []) in
  let '(author_, since_) := parseClassJavadoc classComment_ in
  let flattenedSymbols := flattenSymbols symbols_ [] in
  let '(methods_, log1) :=
    parseAll isMethodSymbol
             (fun fs => parseMethod text fs classComment_) flattenedSymbols in
  let '(fields_, log2) :=
    parseAll isFieldSymbol
             (fun fs => parseField text fs classComment_) flattenedSymbols in
  let '(enumConstants_, log3) :=
    parseAll isEnumMemberSymbol
             (fun fs => parseEnumConstant text fs classComment_)
             flattenedSymbols in
  (mkClassDoc className_ (cleanComment classComment_) packageName_ filePath_
              (sortBy startLine methods_)
              (sortBy field_startLine fields_)
              (sortBy enum_startLine enumConstants_)
              gitInfo_ author_ since_,
   log1 ++ log2 ++ log3).

End Parser.

End JavaDocParser.

Import JavaDocParser.

(* ================================================================== *)
(** * SidebarProvider *)
(* ================================================================== *)

Module SidebarProvider.

(** The messages sent down to the webview. *)
Inductive DownstreamMessage : Type :=
| UpdateView (payload : ClassDoc)
| HighlightMethod (id_ : str)
| ClearView.

(** The fields of the provider that its handlers read and write, and
    the messages the webview has been sent.  [view] tells whether a
    webview is attached. *)
Record Sidebar : Type := mkSidebar {
  view : bool;
  currentMethods : list MethodDoc;
  lastHighlightId : option str;
  posted : list DownstreamMessage
}.

(** [void this.view?.webview.postMessage(message)] *)
Definition postMessage (message : DownstreamMessage) (s : Sidebar) : Sidebar :=
  if view s
  then mkSidebar (view s) (currentMethods s) (lastHighlightId s)
                 (posted s ++ [message])
  else s.

Definition clearView (s : Sidebar) : Sidebar :=
  postMessage ClearView (mkSidebar (view s) [] None (posted s)).

(** [refresh] from the point where [parse] has returned [classDoc]. *)
Definition refreshed (classDoc : ClassDoc) (s : Sidebar) : Sidebar :=
  postMessage (UpdateView classDoc)
              (mkSidebar (view s) (methods classDoc) None (posted s)).

Definition dispose (s : Sidebar) : Sidebar :=
  mkSidebar false [] None (posted s).

(** [a === b] on [MethodId | null]. *)
Definition sameId (a b : option str) : bool :=
  match a, b with
  | Some x, Some y => Js.eqb x y
  | None, None => true
  | _, _ => false
  end.

Definition updateHighlight (cursorLine : nat) (s : Sidebar) : Sidebar :=
  let method := binarySearchMethod (currentMethods s) cursorLine in
  let newId := option_map id method in
  if sameId newId (lastHighlightId s) then s
  else
    let s1 := mkSidebar (view s) (currentMethods s) newId (posted s) in
    match newId with
    | Some i => if truthy i then postMessage (HighlightMethod i) s1 else s1
    | None => s1
    end.

End SidebarProvider.

Import SidebarProvider.

(* ================================================================== *)
(** * Vocabulary of the properties *)
(* ================================================================== *)

Fixpoint ascending (ks : list nat) : bool :=
  match ks with
  | a :: ks' =>
      match ks' with
      | b :: _ => (a <=? b) && ascending ks'
      | [] => true
      end
  | [] => true
  end.

Definition ascendingBy (key : MethodDoc -> nat) (ms : list MethodDoc) : Prop :=
  forall i j a b, i < j -> nth_error ms i = Some a -> nth_error ms j = Some b ->
                  key a <= key b.

Definition encloses (D : MethodDoc) (l : nat) : Prop :=
  startLine D <= l /\ l <= endLine D.

Definition rightmostAtOrBefore (ms : list MethodDoc) (l : nat) (i : nat) (D : MethodDoc) : Prop :=
  nth_error ms i = Some D /\ startLine D <= l /\
  forall j b, i < j -> nth_error ms j = Some b -> l < startLine b.

Definition span (n : String.string) (s e : nat) : MethodDoc :=
  mkMethodDoc (lit n ++ lit "_" ++ showNat s) KindMethod n n s e false [] EMPTY_TAG_TABLE "Unknown" AccDefault.


Definition nested : list MethodDoc := [span "outer" 1 100; span "inner" 5 10].

Definition apart : list MethodDoc := [span "first" 1 3; span "second" 5 9].

(** The signature of the round-trip property. *)
Definition mergeSignature : str :=
  "public Map<String, List<Integer>> merge(@NotNull final String a, int[] b)".

Definition constructorSignature : str := "public Foo()".

(** The comment content ["Computes @return value. \n@param x the input"]. *)
Definition proseComment : str :=
  lit "Computes @return value. " ++ [LF] ++ lit "@param x the input".

(** A class documented above an annotation, and a generated field that
    the language server reports on the line of the class declaration. *)
Definition lombokSource : str :=
  join [LF] [lit "/** The service. */";
             lit "@Slf4j";
             lit "public class Service {";
             lit "}"].

Definition lineRange (a b : nat) : Range :=
  mkRange (mkPosition a 0) (mkPosition b 0).

Definition generatedLog : FlattenedSymbol :=
  mkFlattened
    (mkDocumentSymbol "log" "" Field (lineRange 2 2) (Some (lineRange 2 2)) [])
    "Service".

Definition noFault : FlattenedSymbol -> option str := fun _ => None.




(** A turn does not invalidate a lookup that is still pending: a
    [clearSymbolCache] comes when no promise of the document is
    pending, a [clearAllSymbolCache] when none is pending at all. *)
Definition undisturbed (w : Resolver) (e : Event) : bool :=
  match e with
  | CallClear uri =>
      forallb (fun pr => negb (startsWith (req_key (snd pr)) (uri ++ lit "#")))
              (promises w)
  | CallClearAll =>
      match promises w with [] => true | _ :: _ => false end
  | _ => true
  end.

Fixpoint undisturbedRun (es : list Event) (w : Resolver) : bool :=
  match es with
  | [] => true
  | e :: es' => undisturbed w e && undisturbedRun es' (step w e)
  end.

(** What holds of the module's state between two turns. *)
Record Coherent (w : Resolver) : Prop := mkCoherent {
  coh_cache : NoDup (JsMap.keys (symbolCache w));
  coh_markers : NoDup (JsMap.keys (inFlightRequests w));
  coh_promises : NoDup (map fst (promises w));
  coh_fresh : forall p r,
      findPromise p (promises w) = Some r -> p < nextPromise w;
  coh_marked : forall p r,
      findPromise p (promises w) = Some r ->
      JsMap.get (req_key r) (inFlightRequests w) = Some p;
  coh_owner : forall k p,
      JsMap.get k (inFlightRequests w) = Some p ->
      exists r, findPromise p (promises w) = Some r /\ req_key r = k;
  coh_key : forall p r,
      findPromise p (promises w) = Some r ->
      req_key r = requestKeyOf (req_uri r) (req_version r);
  coh_miss : forall p r v c,
      findPromise p (promises w) = Some r ->
      req_stage r = Fetching -> req_version r = Some v ->
      JsMap.get (req_uri r) (symbolCache w) = Some c -> version c <> v
}.

(** An editor with one open document. *)
Definition editing (uri : str) (v : Z) : Editor :=
  mkEditor (Some (mkTextDocument uri v)) [mkTextDocument uri v].

(** A lookup, the invalidation of its document while it is pending,
    and a second lookup. *)
Definition disturbedRun : list Event :=
  [CallResolve (editing "file:///A.java" 1) "file:///A.java";
   CallClear "file:///A.java";
   CallResolve (editing "file:///A.java" 1) "file:///A.java"].

(** Two callers join one lookup, which then settles. *)
Definition coalescedRun : list Event :=
  [CallResolve (editing "file:///A.java" 1) "file:///A.java";
   CallResolve (editing "file:///A.java" 1) "file:///A.java";
   CallResolve (editing "file:///B.java" 4) "file:///B.java"].

(** Induction over a symbol tree. *)
Fixpoint DocumentSymbol_tree_ind (P : DocumentSymbol -> Prop)
         (step : forall n d k r sr children,
             Forall P children -> P (mkDocumentSymbol n d k r sr children))
         (s : DocumentSymbol) : P s :=
  match s with
  | mkDocumentSymbol n d k r sr children =>
      step n d k r sr children
           ((fix all (l : list DocumentSymbol) : Forall P l :=
               match l with
               | [] => Forall_nil P
               | c :: l' =>
                   Forall_cons c (DocumentSymbol_tree_ind P step c) (all l')
               end) children)
  end.

(** The flattening as the specification words it.  [chain] holds the
    names of the class-like containers passed on the way from a root,
    outermost first. *)
Definition isLeafSymbol (s : DocumentSymbol) : bool :=
  isMethodSymbol s || isFieldSymbol s || isEnumMemberSymbol s.

Definition ownerTag (chain : list str) : str :=
  match chain with
  | [] => lit "Unknown"
  | _ :: _ => join (lit ".") chain
  end.

Fixpoint leavesThroughContainers (chain : list str) (s : DocumentSymbol)
  : list FlattenedSymbol :=
  match s with
  | mkDocumentSymbol n _ _ _ _ children =>
      if isClassLikeSymbol s
      then flat_map (leavesThroughContainers (chain ++ [n])) children
      else if isLeafSymbol s then [mkFlattened s (ownerTag chain)]
      else []
  end.

(** Every class-like container that the walk enters has a name. *)
Fixpoint containersNamed (s : DocumentSymbol) : bool :=
  match s with
  | mkDocumentSymbol n _ _ _ _ children =>
      if isClassLikeSymbol s
      then truthy n && forallb containersNamed children
      else true
  end.

Definition plainSymbol (n : String.string) (k : SymbolKind)
           (children : list DocumentSymbol) : DocumentSymbol :=
  mkDocumentSymbol n "" k (mkRange (mkPosition 0 0) (mkPosition 0 0)) None
                   children.

(** A class without a name holding one method. *)
Definition unnamedClass : DocumentSymbol :=
  plainSymbol "" Class [plainSymbol "run" Method []].

(** Nested containers, a namespace and a method with a local class. *)
Definition sampleTree : list DocumentSymbol :=
  [plainSymbol "Outer" Class
     [plainSymbol "count" Field [];
      plainSymbol "Inner" Interface
        [plainSymbol "apply" Method [plainSymbol "Local" Class
                                       [plainSymbol "hidden" Method []]]];
      plainSymbol "Color" Enum [plainSymbol "RED" EnumMember []];
      plainSymbol "T" TypeParameter []];
   plainSymbol "util" Namespace [plainSymbol "helper" Function []];
   plainSymbol "main" Function []].

(** Whether extracting the details of a declaration throws. *)
Definition faulty (fault : FlattenedSymbol -> option str)
           (fs : FlattenedSymbol) : bool :=
  match fault fs with Some _ => true | None => false end.

(** The declarations of one category that are parsed without a throw,
    and those whose parse throws. *)
Definition parsedOf (fault : FlattenedSymbol -> option str)
           (pick : DocumentSymbol -> bool) (l : list FlattenedSymbol)
  : list FlattenedSymbol :=
  filter (fun fs => pick (symbol fs) && negb (faulty fault fs)) l.

Definition failedOf (fault : FlattenedSymbol -> option str)
           (pick : DocumentSymbol -> bool) (l : list FlattenedSymbol)
  : list FlattenedSymbol :=
  filter (fun fs => pick (symbol fs) && faulty fault fs) l.

(** The console line of a failed declaration. *)
Definition failureMessage (what : String.string) (fs : FlattenedSymbol) : str :=
  lit "[JavaDocParser] Failed to parse " ++ lit what ++ lit ": "
    ++ sym_name (symbol fs).

(** A class with three methods; extracting the second one throws. *)
Definition threeMethods : str :=
  join [LF] [lit "class A {";
             lit "  void a() {}";
             lit "  void b() {}";
             lit "  void c() {}";
             lit "}"].

Definition methodAt (n : String.string) (l : nat) : DocumentSymbol :=
  mkDocumentSymbol n "" Method (mkRange (mkPosition l 2) (mkPosition l 13))
                   (Some (mkRange (mkPosition l 7) (mkPosition l 8))) [].

Definition threeMethodSymbols : list DocumentSymbol :=
  [mkDocumentSymbol "A" "" Class (mkRange (mkPosition 0 0) (mkPosition 4 1))
                    (Some (mkRange (mkPosition 0 6) (mkPosition 0 7)))
                    [methodAt "c" 3; methodAt "b" 2; methodAt "a" 1]].

Definition secondThrows (fs : FlattenedSymbol) : option str :=
  if Js.eqb (sym_name (symbol fs)) "b" then Some (lit "TypeError") else None.

(** The position [n] code units further on. *)
Definition advance (n : nat) (st : cursor) : cursor :=
  mkCursor (rev (firstn n (rest st)) ++ before st) (skipn n (rest st)) (caps st).

(** [n], [n - 1], ..., [0]. *)
Fixpoint countdown (n : nat) : list nat :=
  match n with
  | 0 => [0]
  | S m => S m :: countdown m
  end.

(** The start of a search in [s]. *)
Definition atStart (s : str) : cursor := mkCursor [] s [].



(** [st'] lies further on in the input of [st]. *)
Definition consumes (st st' : cursor) : Prop :=
  exists c, rest st = c ++ rest st' /\ before st' = rev c ++ before st.

(** No code unit of [s] ends a line. *)
Definition oneLine (s : str) : bool :=
  forallb (fun c => negb (isLineTerminator c)) s.

(** [s] has white space neither at its start nor at its end. *)
Definition trimmed (s : str) : Prop :=
  trimStart s = s /\ trimStart (rev s) = rev s.


(** The alternatives of the [tag] group, and the pattern after its [^]. *)
Definition tagNames : regex :=
  alts (map (fun t : String.string => LitI t) supportedTags).

Definition tagLineBody : regex :=
  Seq (Star Space)
      (Seq (Opt (Chr "*"))
           (Seq (Star Space)
                (Seq (Chr "@")
                     (Seq (Grp 1 tagNames)
                          (Seq Wordb
                               (Seq (Star Space)
                                    (Seq (Grp 2 (Star Dot)) Eol))))))).

(** From the optional marker to the tag name, and from the white space
    after the name to the end. *)
Definition tagHead : regex :=
  Seq (Opt (Chr "*")) (Seq (Star Space) (Seq (Chr "@") (Grp 1 tagNames))).

Definition tagTail : regex :=
  Seq (Star Space) (Seq (Grp 2 (Star Dot)) Eol).

















(** A provider with a webview attached that shows [ms] and has
    highlighted nothing yet. *)
Definition showing (ms : list MethodDoc) : Sidebar :=
  mkSidebar true ms None [].

(** Opening tokens minus closing tokens in [s]. *)
Fixpoint balance (openToken closeToken : ascii) (s : str) : Z :=
  match s with
  | [] => 0
  | x :: s' =>
      ((if Ascii.eqb x openToken then 1
        else if Ascii.eqb x closeToken then -1 else 0)
       + balance openToken closeToken s')%Z
  end.

(** Index [i] holds a closing token and the text from [startIndex] up
    to it holds as many opening tokens as closing ones. *)
Definition closesAt (text : str) (startIndex : nat)
           (openToken closeToken : ascii) (i : nat) : Prop :=
  startIndex <= i
  /\ nth_error text i = Some closeToken
  /\ balance openToken closeToken (slice text startIndex (i + 1)) = 0%Z.



(** The tag a line opens: the [tag] group of the pattern in lower case,
    for a line the pattern matches once its marker is stripped. *)
Definition lineTag (rawLine : str) : option str :=
  match exec TAG_LINE_PATTERN (normalizeJavadocLine rawLine) with
  | Some m => Some (toLowerCase (orEmpty (group 1 m)))
  | None => None
  end.

Definition optionList {A : Type} (o : option A) : list A :=
  match o with Some a => [a] | None => [] end.

(** The blocks whose tag is one of [names], in their order. *)
Definition withTag (names : list String.string) (bs : list ParsedTagBlock)
  : list ParsedTagBlock :=
  filter (fun b => existsb (fun n : String.string => Js.eqb (tag b) n) names)
         bs.

Fixpoint lastOf {A : Type} (l : list A) : option A :=
  match l with
  | [] => None
  | x :: l' => match lastOf l' with Some y => Some y | None => Some x end
  end.

(** The value of a tag that is kept once: the trimmed content of its
    last block, [None] when that is empty or when there is no block. *)
Definition lastContent (name : String.string) (bs : list ParsedTagBlock)
  : option str :=
  match lastOf (withTag [name] bs) with
  | Some b => nonEmpty (trim (content b))
  | None => None
  end.
(** The blocks so far have supported tags and trimmed contents, and so
    has the tag that is open. *)
Definition tidy (st : tokenizer) : Prop :=
  Forall (fun b => isSupportedTag (tag b) = true /\ trimmed (content b))
         (blocks st)
  /\ forall t, activeTag st = Some t -> isSupportedTag t = true.
(** The table after the loop over [bs], started from the empty
    table. *)
Definition tableOf (paramTypes : JsMap.t str) (returnType : str)
           (bs : list ParsedTagBlock) : TagTable :=
  mkTagTable
    (flat_map (fun b => optionList (parseParamTag (trim (content b)) paramTypes))
              (withTag ["param"] bs))
    (if Js.eqb returnType "void" then None
     else option_map (fun b => mkReturnTag returnType (trim (content b)))
                     (lastOf (withTag ["return"; "returns"] bs)))
    (flat_map (fun b => optionList (parseThrowsTag (trim (content b))))
              (withTag ["throws"; "exception"] bs))
    (lastContent "since" bs)
    (lastContent "author" bs)
    (lastContent "deprecated" bs)
    (filter truthy (map (fun b => trim (content b)) (withTag ["see"] bs)))
    (lastContent "doc" bs)
    (lastContent "example" bs).

(** The position in [s] after [k] code units, for a search that began
    with [bef] behind it. *)
Definition cursorAt (bef s : str) (k : nat) : cursor :=
  mkCursor (rev (firstn k s) ++ bef) (skipn k s) [].



(** The lines [first] to [last] of [lines] are a documentation comment
    that ends just above line [targetLine]: the first holds the opening
    token, no later one does, the last ends with the closing token, no
    line between them holds it, and between the comment and the target
    line there are only blank lines and annotations. *)
Definition commentAbove (lines : list str) (targetLine first last : nat)
  : Prop :=
  first <= last /\ last < targetLine
  /\ includes (lineAt lines first) "/**" = true
  /\ endsWith (trim (lineAt lines last)) "*/" = true
  /\ onlyBlankOrAnnotations (sliceLines lines (last + 1) targetLine) = true
  /\ (forall j, first < j <= last -> includes (lineAt lines j) "/**" = false)
  /\ (forall j, first < j < last -> includes (lineAt lines j) "*/" = false).



(** The match that the matcher tries first. *)
Definition firstMatch (r : regex) (st : cursor) : option cursor :=
  hd_error (run r st).

(** The classes [[\w.]], [[A-Za-z_$]] and [[\w$]]. *)
Definition isWordOrDot (c : ascii) : bool := isWord c || isChar "." c.
Definition isIdentStart (c : ascii) : bool :=
  isUpper c || isLower c || isChar "_" c || isChar "$" c.
Definition isIdentPart (c : ascii) : bool := isWord c || isChar "$" c.

(** A position with one more capture. *)
Definition capturing (n : nat) (text : str) (st : cursor) : cursor :=
  mkCursor (before st) (rest st) ((n, text) :: caps st).

(** [s] with every run of code units of the class [p] replaced by
    [repl]; [inRun] tells that the code unit before [s] was of the
    class. *)
Fixpoint squeeze (p : ascii -> bool) (repl : str) (inRun : bool) (s : str)
  : str :=
  match s with
  | [] => []
  | c :: t =>
      if p c
      then if inRun then squeeze p repl true t
           else repl ++ squeeze p repl true t
      else c :: squeeze p repl false t
  end.

Definition atSpace (s : str) : bool :=
  match s with
  | c :: _ => isSpace c
  | [] => false
  end.

(** The only white space of [s] are blanks, and no blank is followed by
    white space. *)
Fixpoint singleSpaced (s : str) : bool :=
  match s with
  | [] => true
  | c :: t =>
      (if isSpace c then Ascii.eqb c " " && negb (atSpace t) else true)
      && singleSpaced t
  end.

Definition noSpace (s : str) : bool :=
  forallb (fun c => negb (isSpace c)) s.

(* ================================================================== *)
(** * Properties *)
(* ================================================================== *)

(** ** Strings *)

Lemma eqb_eq (a b : str) : Js.eqb a b = true <-> a = b.
Proof.
  revert b. induction a as [|x a IH]; destruct b as [|y b]; simpl;
    try (split; [discriminate | intros H; inversion H]); try tauto.
  rewrite andb_true_iff, Ascii.eqb_eq, IH.
  split; [intros [-> ->]; reflexivity | intros H; inversion H; auto].
Qed.

Lemma eqb_refl (a : str) : Js.eqb a a = true.
Proof. apply eqb_eq. reflexivity. Qed.

Lemma eqb_neq (a b : str) : Js.eqb a b = false <-> a <> b.
Proof.
  rewrite <- eqb_eq. destruct (Js.eqb a b); split; congruence.
Qed.

(** ** The cursor locator *)

Lemma half_bounds (lo hi : nat) :
  lo < hi -> lo <= lo + (hi - lo) / 2 < hi.
Proof.
  intros H. assert ((hi - lo) / 2 < hi - lo) by (apply Nat.div_lt; lia). lia.
Qed.

Lemma upperBound_spec (ms : list MethodDoc) (l lo hi : nat) :
  ascendingBy startLine ms ->
  lo <= hi <= length ms ->
  (forall i a, i < lo -> nth_error ms i = Some a -> startLine a <= l) ->
  (forall i a, hi <= i -> nth_error ms i = Some a -> l < startLine a) ->
  let r := upperBound ms l lo hi in
  lo <= r <= hi /\
  (forall i a, i < r -> nth_error ms i = Some a -> startLine a <= l) /\
  (forall i a, r <= i -> nth_error ms i = Some a -> l < startLine a).
Proof.
  intros Hs. funelim (upperBound ms l lo hi); intros Hb Hl Hr; cbn zeta;
    try match goal with
        | Hlt : ?a < ?b |- _ => pose proof (half_bounds _ _ Hlt) as Hm
        end.
  - assert (lo = hi) by lia. subst. repeat split; auto; lia.
  - match goal with
    | Hn : nth_error _ _ = None |- _ => apply nth_error_None in Hn; lia
    end.
  - match goal with
    | Hle : (_ <=? _) = true, Hnth : nth_error _ _ = Some _,
      IH : _ -> _ -> _ -> _ -> _ |- _ =>
        apply Nat.leb_le in Hle;
        destruct IH as (Hrange & Hlow & Hhigh); auto; try lia;
        [ intros i a Hi Ha;
          destruct (Nat.eq_dec i (lo + (hi - lo) / 2)) as [->|Hne];
          [ rewrite Hnth in Ha; inversion Ha; subst; exact Hle
          | assert (startLine a <= startLine method)
              by (apply (Hs i (lo + (hi - lo) / 2)); auto; lia); lia ]
        | repeat split; auto; lia ]
    end.
  - match goal with
    | Hle : (_ <=? _) = false, Hnth : nth_error _ _ = Some _,
      IH : _ -> _ -> _ -> _ -> _ |- _ =>
        apply Nat.leb_gt in Hle;
        destruct IH as (Hrange & Hlow & Hhigh); auto; try lia;
        [ intros i a Hi Ha;
          destruct (Nat.eq_dec i (lo + (hi - lo) / 2)) as [->|Hne];
          [ rewrite Hnth in Ha; inversion Ha; subst; exact Hle
          | assert (startLine method <= startLine a)
              by (apply (Hs (lo + (hi - lo) / 2) i); auto; lia); lia ]
        | repeat split; auto; lia ]
    end.
Qed.

Lemma binarySearchMethod_candidate (ms : list MethodDoc) (l : nat) :
  ascendingBy startLine ms ->
  forall first rest last,
    ms = first :: rest ->
    nth_error ms (length ms - 1) = Some last ->
    startLine first <= l -> l <= endLine last ->
    exists i C, rightmostAtOrBefore ms l i C /\
      binarySearchMethod ms l =
        if isLineInsideMethod C l then Some C else None.
Proof.
  intros Hs first rest last Hms Hlast Hf Hl.
  destruct (upperBound_spec ms l 0 (length ms) Hs) as (Hr & Hlow & Hhigh).
  - lia.
  - intros; lia.
  - intros i a Hi Ha.
    assert (i < length ms) by (apply nth_error_Some; congruence). lia.
  - set (r := upperBound ms l 0 (length ms)) in *.
    assert (0 < r) as Hpos.
    { destruct r; [|lia]. exfalso.
      specialize (Hhigh 0 first). subst ms. simpl in Hhigh.
      specialize (Hhigh (Nat.le_refl 0) eq_refl). lia. }
    destruct (nth_error ms (r - 1)) as [C|] eqn:HC.
    2:{ apply nth_error_None in HC. lia. }
    exists (r - 1), C. split.
    + repeat split; auto.
      * apply (Hlow (r - 1)); auto; lia.
      * intros j b Hj Hb. apply (Hhigh j); auto; lia.
    + unfold binarySearchMethod. rewrite Hms at 1. rewrite Hlast.
      assert ((l <? startLine first) = false) as -> by (apply Nat.ltb_ge; lia).
      assert ((endLine last <? l) = false) as -> by (apply Nat.ltb_ge; lia).
      simpl orb. cbv iota. unfold findRightmostStartLineAtOrBefore. fold r.
      assert ((Z.of_nat r - 1 <? 0)%Z = false) as -> by (apply Z.ltb_ge; lia).
      replace (Z.to_nat (Z.of_nat r - 1)) with (r - 1) by lia.
      rewrite HC. reflexivity.
Qed.

Lemma ascending_nth (ks : list nat) :
  ascending ks = true ->
  forall i j a b, i < j -> nth_error ks i = Some a -> nth_error ks j = Some b ->
                  a <= b.
Proof.
  induction ks as [|k ks IH]; intros Ha i j a b Hij Hi Hj.
  - destruct i; discriminate.
  - assert (ascending ks = true /\
            forall c, nth_error ks 0 = Some c -> k <= c) as [Hks Hhd].
    { simpl in Ha. destruct ks as [|c ks]; [split; [reflexivity|discriminate]|].
      apply andb_prop in Ha as [Hkc Hrest]. apply Nat.leb_le in Hkc.
      split; [exact Hrest|]. intros c' Hc'. simpl in Hc'. inversion Hc'; subst.
      exact Hkc. }
    destruct j as [|j]; [lia|]. simpl in Hj.
    destruct i as [|i].
    + simpl in Hi. inversion Hi; subst a.
      destruct j as [|j]; [apply Hhd; exact Hj|].
      destruct ks as [|c ks]; [discriminate|].
      specialize (Hhd c eq_refl).
      assert (c <= b) by (apply (IH Hks 0 (S j)); auto; lia). lia.
    + simpl in Hi. apply (IH Hks i j); auto; lia.
Qed.

Lemma ascending_by (key : MethodDoc -> nat) (ms : list MethodDoc) :
  ascending (map key ms) = true -> ascendingBy key ms.
Proof.
  intros Ha i j a b Hij Hi Hj.
  apply (ascending_nth _ Ha i j _ _ Hij); rewrite nth_error_map;
    [rewrite Hi | rewrite Hj]; reflexivity.
Qed.

Lemma binarySearchMethod_before (ms : list MethodDoc) (l : nat) first rest :
  ms = first :: rest -> l < startLine first -> binarySearchMethod ms l = None.
Proof.
  intros -> Hb. unfold binarySearchMethod.
  destruct (nth_error (first :: rest) (length (first :: rest) - 1));
    [|reflexivity].
  apply Nat.ltb_lt in Hb. rewrite Hb. reflexivity.
Qed.

Lemma binarySearchMethod_after (ms : list MethodDoc) (l : nat) last :
  nth_error ms (length ms - 1) = Some last -> endLine last < l ->
  binarySearchMethod ms l = None.
Proof.
  intros Hlast Ha. unfold binarySearchMethod. destruct ms; [reflexivity|].
  rewrite Hlast. apply Nat.ltb_lt in Ha. rewrite Ha, orb_true_r. reflexivity.
Qed.

(** C1, amended.  On a list of method documents whose start lines
    ascend and whose end lines ascend too, so that no range lies inside
    an earlier one, the locator returns a document that encloses the
    line and that has the rightmost start line at or before it; and it
    returns nothing only when no document of the list encloses the
    line, as for a line in a gap between two declarations. *)
Theorem C1_locator_on_ascending_ranges (ms : list MethodDoc) (l : nat) :
  ascending (map startLine ms) = true ->
  ascending (map endLine ms) = true ->
  match binarySearchMethod ms l with
  | Some D => exists i, rightmostAtOrBefore ms l i D /\ encloses D l
  | None => forall D, In D ms -> ~ encloses D l
  end.
Proof.
  intros Hs He. apply ascending_by in Hs. apply ascending_by in He.
  destruct ms as [|first rest] eqn:Hms.
  - simpl. intros D [].
  - rewrite <- Hms in *.
    destruct (nth_error ms (length ms - 1)) as [last|] eqn:Hlast.
    2:{ apply nth_error_None in Hlast. subst ms. simpl in Hlast. lia. }
    destruct (Nat.lt_ge_cases l (startLine first)) as [Hbefore|Hf].
    { rewrite (binarySearchMethod_before ms l first rest Hms Hbefore).
      intros D HD [Hstart _].
      apply In_nth_error in HD as [i Hi].
      destruct i as [|i].
      - subst ms. simpl in Hi. inversion Hi; subst. lia.
      - assert (startLine first <= startLine D)
          by (apply (Hs 0 (S i)); [lia | subst ms; reflexivity | exact Hi]).
        lia. }
    destruct (Nat.lt_ge_cases (endLine last) l) as [Hafter|Hl].
    { rewrite (binarySearchMethod_after ms l last Hlast Hafter).
      intros D HD [_ Hend].
      apply In_nth_error in HD as [i Hi].
      assert (i < length ms) by (apply nth_error_Some; congruence).
      destruct (Nat.eq_dec i (length ms - 1)) as [->|Hne].
      - rewrite Hlast in Hi. inversion Hi; subst. lia.
      - assert (endLine D <= endLine last)
          by (apply (He i (length ms - 1)); auto; lia).
        lia. }
    destruct (binarySearchMethod_candidate ms l Hs first rest last Hms Hlast Hf Hl)
      as (i & C & Hright & ->).
    destruct (isLineInsideMethod C l) eqn:Hin.
    + exists i. split; [exact Hright|].
      unfold isLineInsideMethod in Hin. apply andb_prop in Hin as [H1 H2].
      apply Nat.leb_le in H1, H2. split; assumption.
    + destruct Hright as (HC & Hstart & Hlater).
      intros D HD [Hs1 He1].
      unfold isLineInsideMethod in Hin.
      apply andb_false_iff in Hin as [Hin|Hin]; apply Nat.leb_gt in Hin; [lia|].
      apply In_nth_error in HD as [j Hj].
      destruct (Nat.lt_trichotomy j i) as [Hlt|[->|Hgt]].
      * assert (endLine D <= endLine C) by (apply (He j i); auto). lia.
      * rewrite HC in Hj. inversion Hj; subst. lia.
      * specialize (Hlater j D Hgt Hj). lia.
Qed.


Lemma C1_counterexample_nested_ranges :
  ascending (map startLine nested) = true /\
  In (span "outer" 1 100) nested /\
  encloses (span "outer" 1 100) 50 /\
  binarySearchMethod nested 50 = None.
Proof.
  repeat split; try reflexivity; simpl; auto; lia.
Qed.


Lemma C1_witness :
  ascending (map startLine apart) = true /\
  ascending (map endLine apart) = true /\
  (exists i, rightmostAtOrBefore apart 6 i (span "second" 5 9)
             /\ encloses (span "second" 5 9) 6) /\
  (forall D, In D apart -> ~ encloses D 4).
Proof.
  split; [reflexivity|]. split; [reflexivity|]. split.
  - exact (C1_locator_on_ascending_ranges apart 6 eq_refl eq_refl).
  - exact (C1_locator_on_ascending_ranges apart 4 eq_refl eq_refl).
Defined.

(** ** TagParser *)

(** C4: the signature-derived tables of the round-trip signature. *)
Theorem C4_merge_signature_types :
  parseSignatureParams mergeSignature
    = [(lit "a", lit "String"); (lit "b", lit "int[]")]
  /\ JsMap.get "a" (parseSignatureParams mergeSignature) = Some (lit "String")
  /\ JsMap.get "b" (parseSignatureParams mergeSignature) = Some (lit "int[]")
  /\ parseReturnType mergeSignature = lit "Map<String, List<Integer>>".
Proof. vm_compute. repeat split. Qed.

Lemma applyBlock_void_keeps_no_return paramTypes returnType t block :
  returnType = lit "void" -> returns t = None ->
  returns (applyBlock paramTypes returnType t block) = None.
Proof.
  intros -> Ht. unfold applyBlock. rewrite eqb_refl. cbn [negb].
  repeat match goal with
         | |- context [if ?b then _ else _] => destruct b
         | |- context [match ?o with Some _ => _ | None => _ end] => destruct o
         end; simpl; auto.
Qed.

Lemma fold_applyBlock_void paramTypes returnType blocks t :
  returnType = lit "void" -> returns t = None ->
  returns (fold_left (applyBlock paramTypes returnType) blocks t) = None.
Proof.
  intros Hv. revert t. induction blocks as [|b bs IH]; intros t Ht; simpl.
  - exact Ht.
  - apply IH. apply applyBlock_void_keeps_no_return; assumption.
Qed.

(** C5: whatever the raw tag text holds, when the return type of the
    signature resolves to ["void"] the Tag Table has no return tag. *)
Theorem C5_void_return_type_suppresses_return (rawTags signature : str) :
  parseReturnType signature = lit "void" ->
  returns (parseTagTable rawTags signature) = None.
Proof.
  intros Hv. unfold parseTagTable.
  destruct (negb (truthy (trim rawTags))); [reflexivity|].
  destruct (tokenizeTagBlocks rawTags) as [|b bs] eqn:Hb; [reflexivity|].
  apply fold_applyBlock_void; [exact Hv | reflexivity].
Qed.

Lemma C5_witness_constructor :
  parseReturnType constructorSignature = lit "void"
  /\ map tag (tokenizeTagBlocks "@return the new instance") = [lit "return"]
  /\ returns (parseTagTable "@return the new instance" constructorSignature)
     = None.
Proof.
  split; [reflexivity|]. split; [reflexivity|].
  apply (C5_void_return_type_suppresses_return
           "@return the new instance" constructorSignature).
  reflexivity.
Defined.

(** C2, at the input of the property: the description is cut at the
    [@return] inside the prose, which is read as a return tag. *)
Theorem C2_prose_tag_cuts_description :
  (forall signature,
      fst (parseJavadoc proseComment signature) = lit "Computes")
  /\ includes (lit "Computes") "Computes @return value." = false
  /\ parseJavadoc proseComment "public int f(int x)"
     = (lit "Computes",
        mkTagTable [mkParamTag "x" "int" "the input"]
                   (Some (mkReturnTag "int" "value."))
                   [] None None None [] None None).
Proof.
  split; [|split; vm_compute; reflexivity].
  intros signature. unfold parseJavadoc. cbv zeta. cbn [fst].
  vm_compute. reflexivity.
Qed.

(** ** Comment de-duplication *)

Lemma extractMemberComment_same_as_class (text : str) (targetLine : nat)
      (classComment_ : str) :
  0 < length classComment_ ->
  extractComment text targetLine = classComment_ ->
  extractMemberComment text targetLine classComment_ = [].
Proof.
  intros Hlen Heq. unfold extractMemberComment. rewrite Heq.
  destruct (length classComment_ =? 0); [reflexivity|].
  apply Nat.ltb_lt in Hlen. rewrite Hlen, eqb_refl. reflexivity.
Qed.

(** C6: a declaration whose recovered comment is the container's own
    non-empty comment is given no comment, whichever of the three
    per-declaration parsers handles it. *)
Theorem C6_container_comment_is_discarded
        (fault : FlattenedSymbol -> option str)
        (text : str) (flattened : FlattenedSymbol) (classComment_ : str) :
  0 < length classComment_ ->
  extractComment text (startLineOf (symbol flattened)) = classComment_ ->
  fault flattened = None ->
  (exists f, parseField fault text flattened classComment_ = (Some f, [])
             /\ field_hasComment f = false /\ field_description f = [])
  /\ (exists e, parseEnumConstant fault text flattened classComment_ = (Some e, [])
                /\ enum_hasComment e = false /\ enum_description e = [])
  /\ (exists m, parseMethod fault text flattened classComment_ = (Some m, [])
                /\ hasComment m = false /\ description m = []).
Proof.
  intros Hlen Heq Hok.
  pose proof (extractMemberComment_same_as_class _ _ _ Hlen Heq) as Hraw.
  unfold parseField, parseEnumConstant, parseMethod, tryCatch. rewrite Hok.
  repeat split; eexists; (split; [reflexivity|]);
    unfold fieldDetails, enumConstantDetails, methodDetails;
    cbv zeta; rewrite Hraw; split; reflexivity.
Qed.

Lemma C6_witness_generated_field :
  0 < length (lit "/** The service. */")
  /\ extractComment lombokSource (startLineOf (symbol generatedLog))
     = lit "/** The service. */"
  /\ (exists f, parseField noFault lombokSource generatedLog
                           "/** The service. */" = (Some f, [])
                /\ field_hasComment f = false /\ field_description f = []).
Proof.
  split; [vm_compute; lia|]. split; [reflexivity|].
  apply (C6_container_comment_is_discarded noFault lombokSource generatedLog
           (lit "/** The service. */")).
  - vm_compute; lia.
  - reflexivity.
  - reflexivity.
Defined.

(** ** The insertion-ordered map *)

Section MapFacts.
Context {V : Type}.
Implicit Types (m : JsMap.t V) (k : str) (v : V).


Lemma has_keys m k : JsMap.has k m = true <-> In k (JsMap.keys m).
Proof.
  unfold JsMap.has, JsMap.keys. induction m as [|[k' v'] m IH]; simpl.
  - split; [discriminate | tauto].
  - destruct (Js.eqb k' k) eqn:E.
    + apply eqb_eq in E. split; auto.
    + apply eqb_neq in E. rewrite IH. split; [auto | intros [H|H]; tauto].
Qed.

Lemma set_absent m k v :
  JsMap.has k m = false -> JsMap.set k v m = m ++ [(k, v)].
Proof.
  unfold JsMap.has. induction m as [|[k' v'] m IH]; simpl; [reflexivity|].
  destruct (Js.eqb k' k); [discriminate|].
  intros H. rewrite IH by exact H. reflexivity.
Qed.

Lemma keys_set_present m k v :
  JsMap.has k m = true -> JsMap.keys (JsMap.set k v m) = JsMap.keys m.
Proof.
  unfold JsMap.has, JsMap.keys. induction m as [|[k' v'] m IH]; simpl;
    [discriminate|].
  destruct (Js.eqb k' k); simpl; [reflexivity|].
  intros H. rewrite IH by exact H. reflexivity.
Qed.

Lemma get_set_same m k v : JsMap.get k (JsMap.set k v m) = Some v.
Proof.
  induction m as [|[k' v'] m IH]; simpl.
  - rewrite eqb_refl. reflexivity.
  - destruct (Js.eqb k' k) eqn:E; simpl; rewrite E; auto.
Qed.

Lemma get_set_other m k k' v :
  k' <> k -> JsMap.get k' (JsMap.set k v m) = JsMap.get k' m.
Proof.
  intros Hne. induction m as [|[k0 v0] m IH]; simpl.
  - assert (Js.eqb k k' = false) as -> by (apply eqb_neq; congruence).
    reflexivity.
  - destruct (Js.eqb k0 k) eqn:E; simpl.
    + apply eqb_eq in E. subst k0.
      assert (Js.eqb k k' = false) as -> by (apply eqb_neq; congruence).
      reflexivity.
    + destruct (Js.eqb k0 k'); auto.
Qed.



Lemma keys_delete_subset m k k' :
  In k' (JsMap.keys (JsMap.delete k m)) -> In k' (JsMap.keys m).
Proof.
  unfold JsMap.keys. induction m as [|[k0 v0] m IH]; simpl; [tauto|].
  destruct (Js.eqb k0 k); simpl; tauto.
Qed.

Lemma NoDup_delete m k :
  NoDup (JsMap.keys m) -> NoDup (JsMap.keys (JsMap.delete k m)).
Proof.
  unfold JsMap.keys. induction m as [|[k0 v0] m IH]; simpl; intros H.
  - constructor.
  - inversion H; subst. destruct (Js.eqb k0 k); [assumption|].
    simpl. constructor; [|auto].
    intros Hin. apply keys_delete_subset in Hin. contradiction.
Qed.

Lemma has_delete_same m k :
  NoDup (JsMap.keys m) -> JsMap.has k (JsMap.delete k m) = false.
Proof.
  intros H. destruct (JsMap.has k (JsMap.delete k m)) eqn:E; [|reflexivity].
  exfalso. apply has_keys in E. revert H E.
  unfold JsMap.keys. induction m as [|[k0 v0] m IH]; simpl; [tauto|].
  intros H. inversion H; subst.
  destruct (Js.eqb k0 k) eqn:E0; simpl.
  - apply eqb_eq in E0. subst. tauto.
  - apply eqb_neq in E0. intros [?|?]; [congruence | auto].
Qed.

Lemma keys_set m k v :
  JsMap.keys (JsMap.set k v m)
  = if JsMap.has k m then JsMap.keys m else JsMap.keys m ++ [k].
Proof.
  destruct (JsMap.has k m) eqn:E.
  - apply keys_set_present. exact E.
  - rewrite set_absent by exact E. unfold JsMap.keys. rewrite map_app.
    reflexivity.
Qed.

Lemma NoDup_set m k v :
  NoDup (JsMap.keys m) -> NoDup (JsMap.keys (JsMap.set k v m)).
Proof.
  intros H. rewrite keys_set. destruct (JsMap.has k m) eqn:E; [exact H|].
  apply NoDup_app; [exact H | repeat constructor; simpl; tauto |].
  intros x Hx [<-|[]]. apply has_keys in Hx. congruence.
Qed.


End MapFacts.


(** ** The symbol cache *)





Lemma setCachedSymbols_NoDup (c : Cache) k v s :
  NoDup (JsMap.keys c) -> NoDup (JsMap.keys (setCachedSymbols k v s c)).
Proof.
  intros Hnd. unfold setCachedSymbols.
  apply NoDup_set.
  destruct (negb (JsMap.has k c) && (MAX_CACHE_ENTRIES <=? JsMap.size c));
    [|exact Hnd].
  destruct (JsMap.firstKey c); [apply NoDup_delete|]; exact Hnd.
Qed.



Lemma getCachedSymbols_NoDup (c : Cache) k v :
  NoDup (JsMap.keys c) ->
  NoDup (JsMap.keys (snd (getCachedSymbols k v c))).
Proof.
  intros Hnd. unfold getCachedSymbols.
  destruct (JsMap.get k c) as [entry|]; [|exact Hnd].
  destruct (negb (version entry =? v)%Z); [exact Hnd|]. simpl snd.
  apply NoDup_set, NoDup_delete, Hnd.
Qed.





(** ** Promises and markers *)

Section MoreMapFacts.
Context {V : Type}.
Implicit Types (m : JsMap.t V) (k : str) (v : V).

Lemma get_delete_other m k k' :
  k' <> k -> JsMap.get k' (JsMap.delete k m) = JsMap.get k' m.
Proof.
  intros Hne. induction m as [|[k0 v0] m IH]; simpl; [reflexivity|].
  destruct (Js.eqb k0 k) eqn:E; simpl.
  - apply eqb_eq in E. subst k0.
    assert (Js.eqb k k' = false) as -> by (apply eqb_neq; congruence).
    reflexivity.
  - rewrite IH. reflexivity.
Qed.

Lemma get_delete_same m k :
  NoDup (JsMap.keys m) -> JsMap.get k (JsMap.delete k m) = None.
Proof.
  intros Hnd. pose proof (has_delete_same m k Hnd) as H.
  unfold JsMap.has in H. destruct (JsMap.get k (JsMap.delete k m));
    [discriminate | reflexivity].
Qed.

Lemma get_delete_some m k k' v :
  NoDup (JsMap.keys m) ->
  JsMap.get k' (JsMap.delete k m) = Some v -> JsMap.get k' m = Some v.
Proof.
  intros Hnd Hget. destruct (list_eq_dec ascii_dec k' k) as [->|Hne].
  - rewrite get_delete_same in Hget by exact Hnd. discriminate.
  - rewrite get_delete_other in Hget by exact Hne. exact Hget.
Qed.

Lemma get_promote m k k' v :
  JsMap.get k m = Some v ->
  JsMap.get k' (JsMap.set k v (JsMap.delete k m)) = JsMap.get k' m.
Proof.
  intros Hget. destruct (list_eq_dec ascii_dec k' k) as [->|Hne].
  - rewrite get_set_same. symmetry. exact Hget.
  - rewrite get_set_other, get_delete_other by exact Hne. reflexivity.
Qed.

Lemma get_In m k v : JsMap.get k m = Some v -> In (k, v) m.
Proof.
  induction m as [|[k0 v0] m IH]; simpl; [discriminate|].
  destruct (Js.eqb k0 k) eqn:E.
  - apply eqb_eq in E. intros H. inversion H; subst. left. reflexivity.
  - intros H. right. apply IH, H.
Qed.

Lemma In_get m k v :
  NoDup (JsMap.keys m) -> In (k, v) m -> JsMap.get k m = Some v.
Proof.
  unfold JsMap.keys. induction m as [|[k0 v0] m IH]; simpl; [tauto|].
  intros Hnd [Heq|Hin].
  - inversion Heq; subst. rewrite eqb_refl. reflexivity.
  - inversion Hnd; subst. destruct (Js.eqb k0 k) eqn:E.
    + apply eqb_eq in E. subst k0. exfalso. apply H1.
      apply in_map_iff. exists (k, v). auto.
    + apply IH; assumption.
Qed.

End MoreMapFacts.

Lemma findPromise_In p r ps : findPromise p ps = Some r -> In (p, r) ps.
Proof.
  induction ps as [|[q r'] ps IH]; simpl; [discriminate|].
  destruct (q =? p) eqn:E.
  - apply Nat.eqb_eq in E. intros H. inversion H; subst. left. reflexivity.
  - intros H. right. apply IH, H.
Qed.

Lemma In_findPromise p r ps :
  NoDup (map fst ps) -> In (p, r) ps -> findPromise p ps = Some r.
Proof.
  induction ps as [|[q r'] ps IH]; simpl; [tauto|].
  intros Hnd [Heq|Hin].
  - inversion Heq; subst. rewrite Nat.eqb_refl. reflexivity.
  - inversion Hnd; subst. destruct (q =? p) eqn:E.
    + apply Nat.eqb_eq in E. subst q. exfalso. apply H1.
      apply in_map_iff. exists (p, r). auto.
    + apply IH; assumption.
Qed.

Lemma findPromise_None p ps :
  findPromise p ps = None <-> ~ In p (map fst ps).
Proof.
  induction ps as [|[q r'] ps IH]; simpl; [tauto|].
  destruct (q =? p) eqn:E.
  - apply Nat.eqb_eq in E. split; [discriminate | intros H; exfalso; auto].
  - apply Nat.eqb_neq in E. rewrite IH. tauto.
Qed.

Lemma findPromise_snoc q p r ps :
  findPromise p ps = None ->
  findPromise q (ps ++ [(p, r)])
  = if q =? p then Some r else findPromise q ps.
Proof.
  intros Hnone. induction ps as [|[p0 r0] ps IH]; simpl.
  - rewrite Nat.eqb_sym. reflexivity.
  - simpl in Hnone. destruct (p0 =? p) eqn:E0; [discriminate|].
    destruct (p0 =? q) eqn:E1.
    + apply Nat.eqb_eq in E1. subst p0. rewrite E0. reflexivity.
    + apply IH, Hnone.
Qed.

Lemma findPromise_update q p r ps :
  findPromise q (updatePromise p r ps)
  = if q =? p
    then match findPromise p ps with Some _ => Some r | None => None end
    else findPromise q ps.
Proof.
  induction ps as [|[p0 r0] ps IH]; simpl.
  - destruct (q =? p); reflexivity.
  - destruct (p0 =? p) eqn:E0; simpl.
    + apply Nat.eqb_eq in E0. subst p0. rewrite (Nat.eqb_sym p q).
      destruct (q =? p); reflexivity.
    + destruct (p0 =? q) eqn:E1; [|exact IH].
      apply Nat.eqb_eq in E1. subst p0. rewrite E0. reflexivity.
Qed.

Lemma keys_updatePromise p r ps :
  map fst (updatePromise p r ps) = map fst ps.
Proof.
  induction ps as [|[p0 r0] ps IH]; simpl; [reflexivity|].
  destruct (p0 =? p); simpl; [reflexivity | rewrite IH; reflexivity].
Qed.

Lemma findPromise_remove q p ps :
  findPromise q (removePromise p ps)
  = if q =? p then None else findPromise q ps.
Proof.
  unfold removePromise. induction ps as [|[p0 r0] ps IH]; simpl.
  - destruct (q =? p); reflexivity.
  - destruct (p0 =? p) eqn:E0; simpl.
    + apply Nat.eqb_eq in E0. subst p0. rewrite IH.
      rewrite (Nat.eqb_sym p q). destruct (q =? p); reflexivity.
    + destruct (p0 =? q) eqn:E1; [|exact IH].
      apply Nat.eqb_eq in E1. subst p0. rewrite E0. reflexivity.
Qed.

Lemma NoDup_removePromise p ps :
  NoDup (map fst ps) -> NoDup (map fst (removePromise p ps)).
Proof.
  unfold removePromise. induction ps as [|[p0 r0] ps IH]; simpl; intros H;
    [constructor|].
  inversion H; subst. destruct (p0 =? p); simpl; [auto|].
  constructor; [|auto]. intros Hin. apply H2.
  apply in_map_iff in Hin as [[q r] [Hq Hin]]. simpl in Hq. subst q.
  apply filter_In in Hin as [Hin _]. apply in_map_iff. exists (p0, r). auto.
Qed.

(** ** Coherence of the resolver's state *)

Lemma initial_coherent : Coherent initial.
Proof.
  constructor; simpl; try constructor; try discriminate.
Qed.

Lemma getCachedSymbols_get (c : Cache) k v k' :
  JsMap.get k' (snd (getCachedSymbols k v c)) = JsMap.get k' c.
Proof.
  unfold getCachedSymbols. destruct (JsMap.get k c) as [entry|] eqn:Hget;
    [|reflexivity].
  destruct (negb (version entry =? v)%Z); [reflexivity|]. simpl snd.
  apply get_promote. exact Hget.
Qed.

Lemma getCachedSymbols_miss (c : Cache) k v :
  fst (getCachedSymbols k v c) = None ->
  forall entry, JsMap.get k c = Some entry -> version entry <> v.
Proof.
  unfold getCachedSymbols. intros Hmiss entry Hget. rewrite Hget in Hmiss.
  destruct (version entry =? v)%Z eqn:E; simpl in Hmiss; [discriminate|].
  apply Z.eqb_neq. exact E.
Qed.

Lemma getCachedSymbols_miss_same (c : Cache) k v :
  fst (getCachedSymbols k v c) = None -> snd (getCachedSymbols k v c) = c.
Proof.
  unfold getCachedSymbols. destruct (JsMap.get k c) as [entry|]; [|reflexivity].
  destruct (negb (version entry =? v)%Z); [reflexivity | discriminate].
Qed.

Lemma resolveSymbols_coherent (editor : Editor) (uri : str) (w : Resolver) :
  Coherent w -> Coherent (snd (resolveSymbols editor uri w)).
Proof.
  intros C. unfold resolveSymbols.
  set (ver := getOpenDocumentVersion editor uri).
  set (hit := match ver with
              | Some v => getCachedSymbols uri v (symbolCache w)
              | None => (None, symbolCache w)
              end).
  assert (forall k', JsMap.get k' (snd hit) = JsMap.get k' (symbolCache w))
    as Hsame
    by (intros k'; unfold hit; destruct ver;
        [apply getCachedSymbols_get | reflexivity]).
  destruct (fst hit) as [cached|] eqn:Hhit.
  - destruct C. constructor; simpl; auto.
    + unfold hit. destruct ver; [apply getCachedSymbols_NoDup|]; assumption.
    + intros p r v c Hp Hs Hv. rewrite Hsame. eauto.
  - set (key := requestKeyOf uri ver).
    destruct (JsMap.get key (inFlightRequests w)) as [pending|] eqn:Hpending;
      [exact C|].
    destruct C.
    assert (findPromise (nextPromise w) (promises w) = None) as Hnew.
    { destruct (findPromise (nextPromise w) (promises w)) eqn:E;
        [|reflexivity].
      apply coh_fresh0 in E. lia. }
    constructor; simpl.
    + assumption.
    + apply NoDup_set. assumption.
    + rewrite map_app. simpl. apply NoDup_app; [assumption | |].
      * repeat constructor. simpl. tauto.
      * intros x Hx [<-|[]]. apply findPromise_None in Hnew. contradiction.
    + intros p r. rewrite findPromise_snoc by exact Hnew.
      destruct (p =? nextPromise w) eqn:E.
      * apply Nat.eqb_eq in E. lia.
      * intros H. apply coh_fresh0 in H. lia.
    + intros p r. rewrite findPromise_snoc by exact Hnew.
      destruct (p =? nextPromise w) eqn:E.
      * apply Nat.eqb_eq in E. subst p. intros H. inversion H; subst. simpl.
        apply get_set_same.
      * intros H. pose proof (coh_marked0 _ _ H) as Hm.
        rewrite get_set_other; [exact Hm|].
        intros Heq. rewrite Heq in Hm. fold key in Hm. congruence.
    + intros k p Hget.
      destruct (list_eq_dec ascii_dec k key) as [->|Hne].
      * rewrite get_set_same in Hget. inversion Hget; subst p.
        eexists. rewrite findPromise_snoc, Nat.eqb_refl by exact Hnew.
        split; reflexivity.
      * rewrite get_set_other in Hget by exact Hne.
        destruct (coh_owner0 _ _ Hget) as (r & Hr & Hk).
        exists r. rewrite findPromise_snoc by exact Hnew.
        destruct (p =? nextPromise w) eqn:E; [|auto].
        apply Nat.eqb_eq in E. subst p. congruence.
    + intros p r. rewrite findPromise_snoc by exact Hnew.
      destruct (p =? nextPromise w); [|apply coh_key0].
      intros H. inversion H; subst. reflexivity.
    + intros p r v c. rewrite findPromise_snoc by exact Hnew.
      destruct (p =? nextPromise w); [|apply coh_miss0].
      intros H. inversion H; subst. simpl. intros _ Hv Hc.
      unfold hit in Hhit. rewrite Hv in Hhit.
      apply (getCachedSymbols_miss _ _ _ Hhit _ Hc).
Qed.

Lemma get_setCachedSymbols_same (c : Cache) k v s :
  JsMap.get k (setCachedSymbols k v s c) = Some (mkCached v s).
Proof. unfold setCachedSymbols. apply get_set_same. Qed.

Lemma get_setCachedSymbols_other (c : Cache) k v s k' entry :
  NoDup (JsMap.keys c) -> k' <> k ->
  JsMap.get k' (setCachedSymbols k v s c) = Some entry ->
  JsMap.get k' c = Some entry.
Proof.
  intros Hnd Hne. unfold setCachedSymbols. rewrite get_set_other by exact Hne.
  destruct (negb (JsMap.has k c) && (MAX_CACHE_ENTRIES <=? JsMap.size c));
    [|auto].
  destruct (JsMap.firstKey c); [|auto].
  apply get_delete_some. exact Hnd.
Qed.

Lemma settle_coherent (p : nat) (reply : option (list DocumentSymbol))
      (w : Resolver) :
  Coherent w -> Coherent (settle p reply w).
Proof.
  intros C. unfold settle.
  destruct (findPromise p (promises w)) as [r|] eqn:Hp; [|exact C].
  destruct (req_stage r) eqn:Hstage; [|exact C].
  destruct C. constructor; simpl.
  - destruct (req_version r); [apply setCachedSymbols_NoDup|]; assumption.
  - assumption.
  - rewrite keys_updatePromise. assumption.
  - intros q r0. rewrite findPromise_update, Hp.
    destruct (q =? p) eqn:E; [|apply coh_fresh0].
    apply Nat.eqb_eq in E. subst q. intros _. eapply coh_fresh0, Hp.
  - intros q r0. rewrite findPromise_update, Hp.
    destruct (q =? p) eqn:E; [|apply coh_marked0].
    apply Nat.eqb_eq in E. subst q. intros H. inversion H; subst. simpl.
    apply coh_marked0, Hp.
  - intros k q Hget. destruct (coh_owner0 _ _ Hget) as (r0 & Hr0 & Hk).
    rewrite findPromise_update, Hp.
    destruct (q =? p) eqn:E; [|eauto].
    apply Nat.eqb_eq in E. subst q. eexists. split; [reflexivity|]. simpl.
    congruence.
  - intros q r0. rewrite findPromise_update, Hp.
    destruct (q =? p) eqn:E; [|apply coh_key0].
    intros H. inversion H; subst. simpl. eapply coh_key0, Hp.
  - intros q r0 v c. rewrite findPromise_update, Hp.
    destruct (q =? p) eqn:E.
    { intros H. inversion H; subst. simpl. discriminate. }
    apply Nat.eqb_neq in E. intros Hq Hs Hv Hc.
    destruct (req_version r) as [v0|] eqn:Hv0; [|eapply coh_miss0; eauto].
    destruct (list_eq_dec ascii_dec (req_uri r0) (req_uri r)) as [Huri|Huri].
    + rewrite Huri, get_setCachedSymbols_same in Hc. inversion Hc; subst.
      simpl. intros ->. apply E.
      pose proof (coh_marked0 _ _ Hq) as M1.
      pose proof (coh_marked0 _ _ Hp) as M2.
      rewrite (coh_key0 _ _ Hq), Huri, Hv in M1.
      rewrite (coh_key0 _ _ Hp), Hv0 in M2. congruence.
    + apply get_setCachedSymbols_other in Hc; [|assumption|assumption].
      eapply coh_miss0; eauto.
Qed.

Lemma finally_coherent (p : nat) (w : Resolver) :
  Coherent w -> Coherent (finally p w).
Proof.
  intros C. unfold finally.
  destruct (findPromise p (promises w)) as [r|] eqn:Hp; [|exact C].
  destruct (req_stage r) eqn:Hstage; [exact C|].
  destruct C.
  assert (forall q r0, q <> p -> findPromise q (promises w) = Some r0 ->
                       req_key r0 <> req_key r) as Hother.
  { intros q r0 Hne Hq Heq. apply Hne.
    pose proof (coh_marked0 _ _ Hq) as M1.
    pose proof (coh_marked0 _ _ Hp) as M2. congruence. }
  constructor; simpl.
  - assumption.
  - apply NoDup_delete. assumption.
  - apply NoDup_removePromise. assumption.
  - intros q r0. rewrite findPromise_remove.
    destruct (q =? p); [discriminate | apply coh_fresh0].
  - intros q r0. rewrite findPromise_remove.
    destruct (q =? p) eqn:E; [discriminate|]. apply Nat.eqb_neq in E.
    intros Hq. rewrite get_delete_other by (eapply Hother; eauto).
    apply coh_marked0, Hq.
  - intros k q Hget.
    destruct (list_eq_dec ascii_dec k (req_key r)) as [->|Hne].
    { rewrite get_delete_same in Hget by assumption. discriminate. }
    rewrite get_delete_other in Hget by exact Hne.
    destruct (coh_owner0 _ _ Hget) as (r0 & Hr0 & Hk).
    exists r0. rewrite findPromise_remove.
    destruct (q =? p) eqn:E; [|auto].
    apply Nat.eqb_eq in E. subst q. congruence.
  - intros q r0. rewrite findPromise_remove.
    destruct (q =? p); [discriminate | apply coh_key0].
  - intros q r0 v c. rewrite findPromise_remove.
    destruct (q =? p); [discriminate | apply coh_miss0].
Qed.

Lemma clearInFlightByPrefix_id (prefix : str) (m : JsMap.t nat) :
  (forall k p, JsMap.get k m = Some p -> startsWith k prefix = false) ->
  NoDup (JsMap.keys m) ->
  clearInFlightByPrefix prefix m = m.
Proof.
  intros Hall Hnd. unfold clearInFlightByPrefix.
  apply forallb_filter_id. apply forallb_forall. intros [k p] Hin. simpl.
  apply negb_true_iff. apply (Hall k p). apply In_get; assumption.
Qed.

Lemma clearSymbolCache_coherent (uri : str) (w : Resolver) :
  undisturbed w (CallClear uri) = true ->
  Coherent w -> Coherent (clearSymbolCache uri w).
Proof.
  intros Hq C. destruct C. simpl in Hq. rewrite forallb_forall in Hq.
  unfold clearSymbolCache.
  rewrite clearInFlightByPrefix_id; [|intros k p Hget|assumption].
  2:{ destruct (coh_owner0 _ _ Hget) as (r & Hr & <-).
      apply findPromise_In in Hr. specialize (Hq _ Hr). simpl in Hq.
      apply negb_true_iff. exact Hq. }
  constructor; simpl; auto.
  - apply NoDup_delete. assumption.
  - intros p r v c Hp Hs Hv Hc. apply get_delete_some in Hc; [|assumption].
    eapply coh_miss0; eauto.
Qed.

Lemma clearAllSymbolCache_coherent (w : Resolver) :
  undisturbed w CallClearAll = true ->
  Coherent w -> Coherent (clearAllSymbolCache w).
Proof.
  intros Hq C. destruct C. simpl in Hq.
  destruct (promises w) as [|pr ps] eqn:Hps; [|discriminate].
  unfold clearAllSymbolCache. rewrite Hps.
  constructor; simpl; try constructor; try discriminate.
Qed.

Lemma step_coherent (w : Resolver) (e : Event) :
  undisturbed w e = true -> Coherent w -> Coherent (step w e).
Proof.
  intros Hq C. destruct e; simpl.
  - apply resolveSymbols_coherent, C.
  - apply settle_coherent, C.
  - apply finally_coherent, C.
  - apply clearSymbolCache_coherent; assumption.
  - apply clearAllSymbolCache_coherent; assumption.
Qed.

Lemma runEvents_coherent (es : list Event) (w : Resolver) :
  undisturbedRun es w = true -> Coherent w -> Coherent (runEvents es w).
Proof.
  revert w. induction es as [|e es IH]; intros w Hq C; simpl; [exact C|].
  simpl in Hq. apply andb_prop in Hq as [He Hes].
  apply IH; [exact Hes | apply step_coherent; assumption].
Qed.

(** ** At most one lookup per key *)

Lemma NoDup_all_equal {A : Type} (l : list A) :
  NoDup l -> (forall x y, In x l -> In y l -> x = y) -> length l <= 1.
Proof.
  intros Hnd Heq. destruct l as [|a [|b l]]; simpl; try lia.
  exfalso. inversion Hnd; subst. apply H1.
  rewrite (Heq a b); simpl; auto.
Qed.

Lemma NoDup_map_filter {A B : Type} (f : A -> B) (g : A -> bool) (l : list A) :
  NoDup (map f l) -> NoDup (map f (filter g l)).
Proof.
  induction l as [|a l IH]; simpl; intros H; [constructor|].
  inversion H; subst. destruct (g a); simpl; [|auto].
  constructor; [|auto]. intros Hin. apply H2.
  apply in_map_iff in Hin as (x & Hx & Hin). apply filter_In in Hin as [Hin _].
  apply in_map_iff. exists x. auto.
Qed.

Lemma coherent_one_lookup (w : Resolver) (k : str) :
  Coherent w -> length (inFlightLookups k w) <= 1.
Proof.
  intros C. destruct C. unfold inFlightLookups.
  apply NoDup_all_equal.
  - apply NoDup_map_filter. assumption.
  - assert (forall x, In x (map fst
               (filter (fun pr => Js.eqb (req_key (snd pr)) k
                                  && match req_stage (snd pr) with
                                     | Fetching => true
                                     | Fulfilled _ => false
                                     end) (promises w))) ->
                      JsMap.get k (inFlightRequests w) = Some x) as Hmark.
    { intros x Hx. apply in_map_iff in Hx as ([p r] & <- & Hin).
      apply filter_In in Hin as [Hin Hf]. simpl in *.
      apply andb_prop in Hf as [Hk _]. apply eqb_eq in Hk. subst k.
      apply coh_marked0. apply In_findPromise; assumption. }
    intros x y Hx Hy. apply Hmark in Hx, Hy. congruence.
Qed.

Lemma coherent_joins_pending (w : Resolver) (p : nat) (r : Request)
      (editor : Editor) :
  Coherent w ->
  findPromise p (promises w) = Some r ->
  getOpenDocumentVersion editor (req_uri r) = req_version r ->
  (req_stage r = Fetching ->
   resolveSymbols editor (req_uri r) w = (Pending p, w))
  /\ providerCalls (snd (resolveSymbols editor (req_uri r) w))
     = providerCalls w.
Proof.
  intros C Hp Hver. destruct C.
  pose proof (coh_marked0 _ _ Hp) as Hmark.
  rewrite (coh_key0 _ _ Hp) in Hmark.
  unfold resolveSymbols. rewrite Hver.
  split.
  - intros Hstage.
    assert (fst match req_version r with
                | Some v => getCachedSymbols (req_uri r) v (symbolCache w)
                | None => (None, symbolCache w)
                end = None) as ->.
    { destruct (req_version r) as [v|] eqn:Hv; [|reflexivity].
      unfold getCachedSymbols.
      destruct (JsMap.get (req_uri r) (symbolCache w)) as [c|] eqn:Hc;
        [|reflexivity].
      assert (version c <> v) as Hne by (eapply coh_miss0; eauto).
      apply Z.eqb_neq in Hne. rewrite Hne. reflexivity. }
    rewrite Hmark. reflexivity.
  - destruct (fst _); [reflexivity|]. rewrite Hmark. reflexivity.
Qed.

Lemma coherent_settled_clears (w : Resolver) (p : nat) (r : Request)
      (reply : option (list DocumentSymbol)) :
  Coherent w ->
  findPromise p (promises w) = Some r -> req_stage r = Fetching ->
  JsMap.get (req_key r) (inFlightRequests (finally p (settle p reply w)))
  = None
  /\ findPromise p (promises (finally p (settle p reply w))) = None.
Proof.
  intros C Hp Hstage. destruct C.
  unfold settle. rewrite Hp, Hstage.
  unfold finally. simpl promises.
  rewrite findPromise_update, Nat.eqb_refl, Hp. simpl.
  split.
  - apply get_delete_same. assumption.
  - rewrite findPromise_remove, Nat.eqb_refl. reflexivity.
Qed.

(** C3 (as amended): in a run of the module in which no invalidation
    comes while a promise it would touch is pending, every request key
    has at most one lookup in flight; the key of a lookup is the one
    built from its document and its version or ["untracked"]; a call
    for the document and version of a promise still pending makes no
    call to the provider, and returns that very promise, leaving the
    state as it is, while the lookup is in flight; and once the lookup
    settles, with a reply or with a failure, and its [finally] has run,
    the marker of its key and the promise are gone. *)
Theorem C3_one_lookup_in_flight_per_key (es : list Event) :
  undisturbedRun es initial = true ->
  (forall k, length (inFlightLookups k (runEvents es initial)) <= 1)
  /\ (forall p r,
         findPromise p (promises (runEvents es initial)) = Some r ->
         req_key r = requestKeyOf (req_uri r) (req_version r))
  /\ (forall p r editor,
         findPromise p (promises (runEvents es initial)) = Some r ->
         getOpenDocumentVersion editor (req_uri r) = req_version r ->
         (req_stage r = Fetching ->
          resolveSymbols editor (req_uri r) (runEvents es initial)
          = (Pending p, runEvents es initial))
         /\ providerCalls
              (snd (resolveSymbols editor (req_uri r) (runEvents es initial)))
            = providerCalls (runEvents es initial))
  /\ (forall p r reply,
         findPromise p (promises (runEvents es initial)) = Some r ->
         req_stage r = Fetching ->
         JsMap.get (req_key r)
                   (inFlightRequests
                      (finally p (settle p reply (runEvents es initial))))
         = None
         /\ findPromise p
              (promises (finally p (settle p reply (runEvents es initial))))
            = None).
Proof.
  intros Hq.
  pose proof (runEvents_coherent es initial Hq initial_coherent) as C.
  split; [|split; [|split]].
  - intros k. apply coherent_one_lookup, C.
  - intros p r. apply (coh_key _ C).
  - intros p r editor. apply coherent_joins_pending, C.
  - intros p r reply. apply coherent_settled_clears, C.
Qed.

Lemma C3_counterexample_invalidation_while_pending :
  inFlightLookups (requestKeyOf "file:///A.java" (Some 1%Z))
                  (runEvents disturbedRun initial) = [0; 1]
  /\ providerCalls (runEvents disturbedRun initial)
     = [lit "file:///A.java"; lit "file:///A.java"]
  /\ fst (resolveSymbols (editing "file:///A.java" 1) "file:///A.java"
            (runEvents (firstn 2 disturbedRun) initial)) = Issued 1.
Proof. repeat split; reflexivity. Qed.

Lemma C3_witness_coalesced_calls :
  undisturbedRun coalescedRun initial = true
  /\ (forall k, length (inFlightLookups k (runEvents coalescedRun initial)) <= 1)
  /\ providerCalls (runEvents coalescedRun initial)
     = [lit "file:///A.java"; lit "file:///B.java"]
  /\ inFlightLookups (requestKeyOf "file:///A.java" (Some 1%Z))
                     (runEvents coalescedRun initial) = [0].
Proof.
  split; [reflexivity|]. split; [|split; reflexivity].
  exact (proj1 (C3_one_lookup_in_flight_per_key coalescedRun eq_refl)).
Defined.

(** ** Flattening *)

Lemma join_snoc (sep : str) (chain : list str) (x : str) :
  chain <> [] -> join sep (chain ++ [x]) = join sep chain ++ sep ++ x.
Proof.
  induction chain as [|a chain IH]; [congruence|]. intros _.
  destruct chain as [|b chain].
  - reflexivity.
  - change (join sep ((a :: b :: chain) ++ [x]))
      with (a ++ sep ++ join sep ((b :: chain) ++ [x])).
    rewrite IH by discriminate.
    change (join sep (a :: b :: chain)) with (a ++ sep ++ join sep (b :: chain)).
    rewrite <- !app_assoc. reflexivity.
Qed.

Lemma truthy_app_l (a b : str) : truthy a = true -> truthy (a ++ b) = true.
Proof. destruct a; [discriminate | reflexivity]. Qed.

Lemma truthy_join (sep : str) (chain : list str) :
  chain <> [] -> Forall (fun n => truthy n = true) chain ->
  truthy (join sep chain) = true.
Proof.
  destruct chain as [|a chain]; [congruence|]. intros _ Hall.
  inversion Hall; subst. destruct chain; [assumption|].
  apply truthy_app_l. assumption.
Qed.

(** The running owner path of the source is the dot-joined chain. *)
Lemma flattenSymbol_refines (s : DocumentSymbol) :
  forall chain,
    Forall (fun n => truthy n = true) chain ->
    containersNamed s = true ->
    flattenSymbol (join (lit ".") chain) s = leavesThroughContainers chain s.
Proof.
  induction s as [n d k r sr children IH] using DocumentSymbol_tree_ind.
  intros chain Hchain Hnamed. simpl in Hnamed |- *.
  destruct (isClassLikeSymbol (mkDocumentSymbol n d k r sr children)) eqn:Hc.
  - apply andb_prop in Hnamed as [Hn Hkids].
    assert (flat_map (flattenSymbol
                        (if truthy (join (lit ".") chain)
                         then join (lit ".") chain ++ lit "." ++ n else n))
                     children
            = flat_map (leavesThroughContainers (chain ++ [n])) children)
      as Hflat.
    { match goal with
      | |- context [flattenSymbol ?p] =>
          assert (p = join (lit ".") (chain ++ [n])) as ->
      end.
      { destruct chain as [|a chain]; [reflexivity|].
        rewrite truthy_join by (auto; discriminate).
        rewrite join_snoc by discriminate. reflexivity. }
      assert (Forall (fun n => truthy n = true) (chain ++ [n])) as Hchain'
        by (apply Forall_app; split; [assumption | repeat constructor; assumption]).
      rewrite forallb_forall in Hkids.
      clear Hc. induction children as [|c cs IHcs]; [reflexivity|].
      inversion IH; subst. simpl. f_equal.
      - apply H1; [exact Hchain' | apply Hkids; left; reflexivity].
      - apply IHcs; [assumption | intros x Hx; apply Hkids; right; exact Hx]. }
    change (sym_name (mkDocumentSymbol n d k r sr children)) with n.
    destruct (0 <? length children) eqn:Hlen; [exact Hflat|].
    apply Nat.ltb_ge in Hlen. destruct children; [reflexivity | simpl in Hlen; lia].
  - unfold isLeafSymbol.
    destruct (isMethodSymbol _ || isFieldSymbol _ || isEnumMemberSymbol _);
      [|reflexivity].
    f_equal. f_equal. unfold ownerTag, orElse.
    destruct chain as [|a chain]; [reflexivity|].
    rewrite truthy_join by (auto; discriminate). reflexivity.
Qed.

(** C10 (as amended): on a symbol tree whose class-like containers all
    have a name, [flattenSymbols] from the empty owner path lists, in
    the order of the walk, exactly the callable, data-member and
    enum-member symbols reached from the roots through class-like
    containers only, each with the dot-joined names of those containers
    or with ["Unknown"] when there is none; symbols of other kinds are
    left out with all below them, and nothing below a listed symbol is
    visited. *)
Theorem C10_flattenSymbols_lists_reachable_leaves
        (symbols_ : list DocumentSymbol) :
  forallb containersNamed symbols_ = true ->
  flattenSymbols symbols_ [] = flat_map (leavesThroughContainers []) symbols_.
Proof.
  intros Hnamed. unfold flattenSymbols. rewrite forallb_forall in Hnamed.
  induction symbols_ as [|s ss IH]; [reflexivity|]. simpl. f_equal.
  - apply (flattenSymbol_refines s []); [constructor | apply Hnamed; left; reflexivity].
  - apply IH. intros x Hx. apply Hnamed. right. exact Hx.
Qed.

Lemma C10_counterexample_unnamed_container :
  flattenSymbols [unnamedClass] []
    <> flat_map (leavesThroughContainers []) [unnamedClass]
  /\ map flat_belongsTo (flattenSymbols [unnamedClass] []) = [lit "Unknown"]
  /\ map flat_belongsTo (flat_map (leavesThroughContainers []) [unnamedClass])
     = [[]].
Proof.
  split; [|split; reflexivity].
  intros H. apply (f_equal (map flat_belongsTo)) in H. vm_compute in H.
  discriminate H.
Qed.

Lemma C10_witness_sample_tree :
  forallb containersNamed sampleTree = true
  /\ flattenSymbols sampleTree [] = flat_map (leavesThroughContainers []) sampleTree
  /\ map (fun fs => (sym_name (symbol fs), flat_belongsTo fs))
         (flattenSymbols sampleTree [])
     = [(lit "count", lit "Outer"); (lit "apply", lit "Outer.Inner");
        (lit "RED", lit "Outer.Color"); (lit "main", lit "Unknown")].
Proof.
  split; [reflexivity|]. split; [|reflexivity].
  apply (C10_flattenSymbols_lists_reachable_leaves sampleTree). reflexivity.
Defined.

(** ** Recovery from a failing declaration *)

Lemma parseAll_tryCatch {A : Type} (fault : FlattenedSymbol -> option str)
      (what : String.string) (pick : DocumentSymbol -> bool)
      (details : FlattenedSymbol -> A) (l : list FlattenedSymbol) :
  parseAll pick (fun fs => tryCatch fault what fs (details fs)) l
  = (map details (parsedOf fault pick l),
     map (fun fs => mkConsoleError (failureMessage what fs)
                                   (orEmpty (fault fs)))
         (failedOf fault pick l)).
Proof.
  unfold parseAll, parsedOf, failedOf, faulty.
  induction l as [|fs l IH]; [reflexivity|].
  inversion IH as [[Hd Hl]]. clear IH.
  simpl filter. destruct (pick (symbol fs)); simpl andb; cbv iota;
    [|rewrite Hd, Hl; reflexivity].
  simpl map. simpl flat_map.
  destruct (fault fs) as [e|] eqn:E.
  - assert (tryCatch fault what fs (details fs)
            = (None, [mkConsoleError (failureMessage what fs) e])) as ->
      by (unfold tryCatch; rewrite E; reflexivity).
    simpl. rewrite ?E. simpl. rewrite Hd, Hl. reflexivity.
  - assert (tryCatch fault what fs (details fs) = (Some (details fs), [])) as ->
      by (unfold tryCatch; rewrite E; reflexivity).
    simpl. rewrite ?E. simpl. rewrite Hd, Hl. reflexivity.
Qed.

(** C8: whichever declarations throw while their details are extracted,
    [parse] returns a document model.  Its three lists hold, sorted by
    start line, the details of every declaration of the category that
    did not throw and of no other; the console receives one line per
    declaration that threw, naming it.  The comment of the container,
    against which the details are computed, does not depend on which
    declarations throw. *)
Theorem C8_failing_declaration_is_dropped
        (baseNameOf : str -> str) (text filePath_ : str)
        (symbols_ : list DocumentSymbol) (gitInfo_ : option GitAuthorInfo) :
  exists classComment_ : str,
  forall fault : FlattenedSymbol -> option str,
    let flat := flattenSymbols symbols_ [] in
    let doc := fst (parse baseNameOf fault text filePath_ symbols_ gitInfo_) in
    let log := snd (parse baseNameOf fault text filePath_ symbols_ gitInfo_) in
    methods doc
    = sortBy startLine
        (map (fun fs => methodDetails text fs classComment_)
             (parsedOf fault isMethodSymbol flat))
    /\ fields doc
       = sortBy field_startLine
           (map (fun fs => fieldDetails text fs classComment_)
                (parsedOf fault isFieldSymbol flat))
    /\ enumConstants doc
       = sortBy enum_startLine
           (map (fun fs => enumConstantDetails text fs classComment_)
                (parsedOf fault isEnumMemberSymbol flat))
    /\ map message log
       = map (failureMessage "method") (failedOf fault isMethodSymbol flat)
         ++ map (failureMessage "field") (failedOf fault isFieldSymbol flat)
         ++ map (failureMessage "enum constant")
                (failedOf fault isEnumMemberSymbol flat).
Proof.
  eexists. intros fault. cbv zeta. unfold parse.
  cbv zeta. destruct (parseClassJavadoc _) as [author_ since_].
  unfold parseMethod, parseField, parseEnumConstant.
  rewrite !parseAll_tryCatch. cbn [fst snd methods fields enumConstants].
  rewrite !map_app, !map_map. cbn [message].
  repeat split; reflexivity.
Qed.

(** The model returned when extracting the second of three methods
    throws. *)
Lemma parse_with_one_failure :
  let result := parse (fun _ => lit "A") secondThrows threeMethods "A.java"
                      threeMethodSymbols None in
  map name (methods (fst result)) = [lit "a"; lit "c"]
  /\ map message (snd result)
     = [lit "[JavaDocParser] Failed to parse method: b"].
Proof. vm_compute. split; reflexivity. Qed.

(** ** The matcher *)

Lemma advance_0 (st : cursor) : advance 0 st = st.
Proof. destruct st. reflexivity. Qed.

Lemma advance_S (n : nat) (st : cursor) c s' :
  rest st = c :: s' ->
  advance (S n) st = advance n (mkCursor (c :: before st) s' (caps st)).
Proof.
  intros H. unfold advance. rewrite H. simpl. rewrite <- app_assoc.
  reflexivity.
Qed.

Lemma In_countdown (n k : nat) : In k (countdown n) <-> k <= n.
Proof.
  induction n as [|n IH]; simpl.
  - split; [intros [<-|[]]; lia | intros H; left; lia].
  - rewrite IH. split; [intros [<-|H]; lia | intros H].
    destruct (Nat.eq_dec k (S n)); [left; congruence | right; lia].
Qed.

Lemma iter_S (greedy : bool) (step : cursor -> list cursor) (f : nat)
      (st : cursor) :
  iter greedy step (S f) st
  = let more :=
      flat_map (fun st' =>
                  if length (rest st') <? length (rest st)
                  then iter greedy step f st' else [])
               (step st) in
    if greedy then more ++ [st] else st :: more.
Proof. reflexivity. Qed.

Lemma run_Cls (p : ascii -> bool) (st : cursor) :
  run (Cls p) st
  = match rest st with
    | c :: s' => if p c then [mkCursor (c :: before st) s' (caps st)] else []
    | [] => []
    end.
Proof. reflexivity. Qed.

Lemma map_advance_S (st : cursor) c s' (ks : list nat) :
  rest st = c :: s' ->
  map (fun k => advance k (mkCursor (c :: before st) s' (caps st))) ks
  = map (fun k => advance (S k) st) ks.
Proof.
  intros H. apply map_ext. intros k. symmetry. apply advance_S. exact H.
Qed.

Lemma countdown_S (n : nat) (st : cursor) :
  map (fun k => advance k st) (countdown (S n))
  = map (fun k => advance (S k) st) (countdown n) ++ [st].
Proof.
  induction n as [|n IH].
  - simpl. rewrite advance_0. reflexivity.
  - change (countdown (S (S n))) with (S (S n) :: countdown (S n)).
    rewrite map_cons, IH. reflexivity.
Qed.

(** A greedy repetition of a class: every prefix of the longest run of
    the class, the longest first. *)
Lemma iter_class (p : ascii -> bool) (fuel : nat) (st : cursor) :
  length (rest st) < fuel ->
  iter true (run (Cls p)) fuel st
  = map (fun k => advance k st) (countdown (spanLength p (rest st))).
Proof.
  revert st. induction fuel as [|f IH]; intros st Hfuel; [lia|].
  rewrite iter_S. cbv zeta. rewrite run_Cls.
  destruct (rest st) as [|c s'] eqn:Hrest.
  - simpl. rewrite advance_0. reflexivity.
  - simpl spanLength. destruct (p c) eqn:Hp.
    + cbn [flat_map rest]. rewrite app_nil_r.
      assert ((length s' <? length (c :: s')) = true) as ->
        by (apply Nat.ltb_lt; simpl; lia).
      rewrite IH by (simpl in *; lia). cbn [rest].
      rewrite countdown_S, (map_advance_S st c s' _ Hrest). reflexivity.
    + simpl. rewrite advance_0. reflexivity.
Qed.

Lemma run_Star_class (p : ascii -> bool) (st : cursor) :
  run (Star (Cls p)) st
  = map (fun k => advance k st) (countdown (spanLength p (rest st))).
Proof. apply iter_class. lia. Qed.

Lemma In_run_Star_class (p : ascii -> bool) (st st' : cursor) :
  In st' (run (Star (Cls p)) st)
  <-> exists k, k <= spanLength p (rest st) /\ st' = advance k st.
Proof.
  rewrite run_Star_class, in_map_iff. split.
  - intros (k & <- & Hk). exists k. split; [apply In_countdown, Hk | reflexivity].
  - intros (k & Hk & ->). exists k. split; [reflexivity | apply In_countdown, Hk].
Qed.

Lemma In_run_Seq (r1 r2 : regex) (st st' : cursor) :
  In st' (run (Seq r1 r2) st)
  <-> exists mid, In mid (run r1 st) /\ In st' (run r2 mid).
Proof. simpl. apply in_flat_map. Qed.

Lemma In_run_Alt (r1 r2 : regex) (st st' : cursor) :
  In st' (run (Alt r1 r2) st) <-> In st' (run r1 st) \/ In st' (run r2 st).
Proof. simpl. apply in_app_iff. Qed.

Lemma In_run_Cls (p : ascii -> bool) (st st' : cursor) :
  In st' (run (Cls p) st)
  <-> exists c s', rest st = c :: s' /\ p c = true
                   /\ st' = mkCursor (c :: before st) s' (caps st).
Proof.
  rewrite run_Cls. destruct (rest st) as [|c s'].
  - split; [intros [] | intros (c & s' & H & _); discriminate].
  - destruct (p c) eqn:Hp.
    + split.
      * intros [<-|[]]. exists c, s'. auto.
      * intros (c' & s'' & H & _ & ->). inversion H; subst. left. reflexivity.
    + split; [intros [] | intros (c' & s'' & H & Hp' & _)].
      inversion H; subst. congruence.
Qed.

Lemma In_run_Grp (n : nat) (r : regex) (st st' : cursor) :
  In st' (run (Grp n r) st)
  <-> exists st1,
      In st1 (run r st)
      /\ st' = mkCursor (before st1) (rest st1)
                        ((n, rev (firstn (length (before st1)
                                          - length (before st))
                                         (before st1))) :: caps st1).
Proof.
  simpl. rewrite in_map_iff. split.
  - intros (st1 & <- & H). exists st1. auto.
  - intros (st1 & H & ->). exists st1. auto.
Qed.

Lemma In_run_Eol (st st' : cursor) :
  In st' (run Eol st) <-> rest st = [] /\ st' = st.
Proof.
  simpl. destruct (rest st); simpl; split.
  - intros [<-|[]]. auto.
  - intros [_ ->]. left. reflexivity.
  - intros [].
  - intros [H _]. discriminate.
Qed.

Lemma In_run_Wordb (st st' : cursor) :
  In st' (run Wordb st)
  <-> xorb (atWord (hd_error (before st))) (atWord (hd_error (rest st))) = true
      /\ st' = st.
Proof.
  simpl. destruct (xorb _ _); simpl; split.
  - intros [<-|[]]. auto.
  - intros [_ ->]. left. reflexivity.
  - intros [].
  - intros [H _]. discriminate.
Qed.

Lemma run_Bol_later (r : regex) (st : cursor) :
  before st <> [] -> run (Seq Bol r) st = [].
Proof. simpl. destruct (before st); [congruence | reflexivity]. Qed.

Lemma run_Bol_start (r : regex) (s : str) :
  run (Seq Bol r) (atStart s) = run r (atStart s).
Proof. simpl. apply app_nil_r. Qed.

Lemma scan_Bol_later (r : regex) (bef s : str) :
  bef <> [] -> scan (Seq Bol r) bef s = None.
Proof.
  revert bef. induction s as [|c s IH]; intros bef Hbef.
  - unfold scan. rewrite run_Bol_later by exact Hbef. reflexivity.
  - unfold scan; fold scan. rewrite run_Bol_later by exact Hbef.
    apply IH. discriminate.
Qed.

(** An anchored pattern matches at the start or not at all. *)
Lemma exec_Bol (r : regex) (s : str) :
  exec (Seq Bol r) s
  = match run r (atStart s) with
    | st' :: _ =>
        Some (mkResult 0 (firstn (length s - length (rest st')) s) (caps st'))
    | [] => None
    end.
Proof.
  unfold exec. destruct s as [|c s]; unfold scan; fold scan;
    change (mkCursor [] ?x []) with (atStart x); rewrite run_Bol_start.
  - destruct (run r (atStart [])); reflexivity.
  - destruct (run r (atStart (c :: s))); [|reflexivity].
    apply scan_Bol_later. discriminate.
Qed.

Lemma consumes_refl (st : cursor) : consumes st st.
Proof. exists []. split; reflexivity. Qed.

Lemma consumes_trans (a b c : cursor) :
  consumes a b -> consumes b c -> consumes a c.
Proof.
  intros (x & Hx1 & Hx2) (y & Hy1 & Hy2). exists (x ++ y). split.
  - rewrite Hx1, Hy1, app_assoc. reflexivity.
  - rewrite Hy2, Hx2, rev_app_distr, app_assoc. reflexivity.
Qed.

Lemma iter_consumes (greedy : bool) (step : cursor -> list cursor) :
  (forall st st', In st' (step st) -> consumes st st') ->
  forall fuel st st', In st' (iter greedy step fuel st) -> consumes st st'.
Proof.
  intros Hstep. induction fuel as [|f IH]; intros st st' Hin.
  - destruct Hin as [<-|[]]. apply consumes_refl.
  - rewrite iter_S in Hin. cbv zeta in Hin.
    assert (In st' (flat_map (fun x =>
                                if length (rest x) <? length (rest st)
                                then iter greedy step f x else [])
                             (step st)) \/ st' = st) as [Hmore | ->].
    { destruct greedy; [apply in_app_iff in Hin as [H|[<-|[]]]; auto|].
      destruct Hin as [<-|H]; auto. }
    + apply in_flat_map in Hmore as (mid & Hmid & Hin').
      destruct (length (rest mid) <? length (rest st)); [|destruct Hin'].
      eapply consumes_trans; [apply Hstep, Hmid | apply IH, Hin'].
    + apply consumes_refl.
Qed.

(** A match only moves forward over the input. *)
Lemma run_consumes (r : regex) :
  forall st st', In st' (run r st) -> consumes st st'.
Proof.
  induction r as [|p|r1 IH1 r2 IH2|r1 IH1 r2 IH2|r1 IH1|r1 IH1|n r1 IH1| | |];
    intros st st' Hin.
  - destruct Hin as [<-|[]]. apply consumes_refl.
  - apply In_run_Cls in Hin as (c & s' & Hrest & _ & ->).
    exists [c]. split; [exact Hrest | reflexivity].
  - apply In_run_Seq in Hin as (mid & H1 & H2).
    eapply consumes_trans; eauto.
  - apply In_run_Alt in Hin as [H|H]; auto.
  - change (In st' (iter true (run r1) (S (length (rest st))) st)) in Hin.
    apply (iter_consumes true (run r1) IH1 _ _ _ Hin).
  - change (In st' (iter false (run r1) (S (length (rest st))) st)) in Hin.
    apply (iter_consumes false (run r1) IH1 _ _ _ Hin).
  - apply In_run_Grp in Hin as (st1 & H1 & ->).
    destruct (IH1 _ _ H1) as (c & Hc1 & Hc2). exists c. auto.
  - simpl in Hin. destruct (before st); [|destruct Hin].
    destruct Hin as [<-|[]]. apply consumes_refl.
  - apply In_run_Eol in Hin as [_ ->]. apply consumes_refl.
  - apply In_run_Wordb in Hin as [_ ->]. apply consumes_refl.
Qed.

Lemma spanLength_le (p : ascii -> bool) (s : str) : spanLength p s <= length s.
Proof.
  induction s as [|c s IH]; simpl; [lia|]. destruct (p c); simpl; lia.
Qed.


Lemma spanLength_all (p : ascii -> bool) (s t : str) :
  forallb p s = true -> spanLength p (s ++ t) = length s + spanLength p t.
Proof.
  induction s as [|c s IH]; simpl; [reflexivity|].
  intros H. apply andb_prop in H as [Hc Hs]. rewrite Hc, IH by exact Hs.
  reflexivity.
Qed.

Lemma spanLength_firstn (p : ascii -> bool) (s : str) (k : nat) :
  k <= spanLength p s -> forallb p (firstn k s) = true.
Proof.
  revert k. induction s as [|c s IH]; intros k Hk; simpl in *.
  - assert (k = 0) by lia. subst. reflexivity.
  - destruct k; [reflexivity|]. simpl. destruct (p c); [|lia].
    simpl. apply IH. lia.
Qed.



(** ** Characters and trimming *)

Ltac each_ascii c :=
  destruct c as [[] [] [] [] [] [] [] []]; try reflexivity; try discriminate.


Lemma space_or_dot (c : ascii) :
  isSpace c = true -> isLineTerminator c = false ->
  negb (isLineTerminator c) = true.
Proof. intros _ ->. reflexivity. Qed.


Lemma trimStart_spec (s : str) :
  exists ws, s = ws ++ trimStart s /\ forallb isSpace ws = true.
Proof.
  induction s as [|c s (ws & Hs & Hws)]; simpl.
  - exists []. auto.
  - destruct (isSpace c) eqn:Hc.
    + exists (c :: ws). simpl. rewrite Hc, Hws, <- Hs. auto.
    + exists []. auto.
Qed.

Lemma trimStart_head (s : str) :
  match trimStart s with
  | [] => True
  | c :: _ => isSpace c = false
  end.
Proof.
  induction s as [|c s IH]; simpl; [exact I|].
  destruct (isSpace c) eqn:Hc; [exact IH | exact Hc].
Qed.

Lemma trimStart_idem (s : str) : trimStart (trimStart s) = trimStart s.
Proof.
  pose proof (trimStart_head s) as H. destruct (trimStart s) as [|c t];
    [reflexivity|]. simpl. rewrite H. reflexivity.
Qed.


Lemma trimStart_spaces (ws s : str) :
  forallb isSpace ws = true -> trimStart (ws ++ s) = trimStart s.
Proof.
  induction ws as [|c ws IH]; simpl; [reflexivity|].
  intros H. apply andb_prop in H as [Hc Hws]. rewrite Hc. apply IH, Hws.
Qed.

Lemma trimStart_snoc (s : str) (c : ascii) :
  isSpace c = false -> exists t, trimStart (s ++ [c]) = t ++ [c]
                                 /\ (trimStart s = s -> t = s).
Proof.
  intros Hc. induction s as [|x s (t & Ht & Hfix)]; simpl.
  - rewrite Hc. exists []. auto.
  - destruct (isSpace x) eqn:Hx.
    + exists t. split; [exact Ht|]. intros H.
      pose proof (trimStart_head s) as Hh. rewrite H in Hh. congruence.
    + exists (x :: s). auto.
Qed.

Lemma trim_spec (s : str) :
  exists ws1 ws2, s = ws1 ++ trim s ++ ws2
                  /\ forallb isSpace ws1 = true /\ forallb isSpace ws2 = true.
Proof.
  destruct (trimStart_spec s) as (ws1 & Hs & Hws1).
  destruct (trimStart_spec (rev (trimStart s))) as (ws2 & Hr & Hws2).
  exists ws1, (rev ws2). split; [|split; [exact Hws1|]].
  - unfold trim, trimEnd. rewrite <- rev_app_distr, <- Hr, rev_involutive.
    exact Hs.
  - rewrite forallb_forall in *. intros x Hx. apply Hws2, in_rev, Hx.
Qed.

Lemma trim_trimmed (s : str) : trimmed (trim s).
Proof.
  unfold trimmed, trim, trimEnd. split.
  - pose proof (trimStart_head s) as Hh.
    destruct (trimStart s) as [|c t] eqn:Ht; [reflexivity|].
    simpl rev. destruct (trimStart_snoc (rev t) c Hh) as (u & -> & _).
    rewrite rev_app_distr. simpl. rewrite Hh. reflexivity.
  - rewrite rev_involutive. apply trimStart_idem.
Qed.




Lemma trim_spaces_l (ws s : str) :
  forallb isSpace ws = true -> trim (ws ++ s) = trim s.
Proof.
  intros H. unfold trim. rewrite trimStart_spaces by exact H. reflexivity.
Qed.

Lemma trim_skipn (k : nat) (s : str) :
  k <= spanLength isSpace s -> trim (skipn k s) = trim s.
Proof.
  intros Hk. rewrite <- (firstn_skipn k s) at 2.
  rewrite trim_spaces_l; [reflexivity | apply spanLength_firstn, Hk].
Qed.

Lemma trim_nil_spaces (s : str) : trim s = [] -> forallb isSpace s = true.
Proof.
  intros H. destruct (trim_spec s) as (ws1 & ws2 & Hs & H1 & H2).
  rewrite H in Hs. rewrite Hs. simpl. rewrite forallb_app, H1, H2. reflexivity.
Qed.

Lemma oneLine_app (a b : str) : oneLine (a ++ b) = oneLine a && oneLine b.
Proof. apply forallb_app. Qed.


Lemma oneLine_firstn (k : nat) (s : str) :
  oneLine s = true -> oneLine (firstn k s) = true.
Proof.
  intros H. rewrite <- (firstn_skipn k s), oneLine_app in H.
  apply andb_prop in H as [H _]. exact H.
Qed.

Lemma oneLine_skipn (k : nat) (s : str) :
  oneLine s = true -> oneLine (skipn k s) = true.
Proof.
  intros H. rewrite <- (firstn_skipn k s), oneLine_app in H.
  apply andb_prop in H as [_ H]. exact H.
Qed.


(** ** The tag-line pattern *)

Lemma TAG_LINE_PATTERN_body : TAG_LINE_PATTERN = Seq Bol tagLineBody.
Proof. reflexivity. Qed.


Lemma flat_map_assoc {A B C : Type} (f : A -> list B) (g : B -> list C)
      (l : list A) :
  flat_map g (flat_map f l) = flat_map (fun x => flat_map g (f x)) l.
Proof.
  induction l as [|a l IH]; simpl; [reflexivity|].
  rewrite flat_map_app, IH. reflexivity.
Qed.

Lemma run_Seq_assoc (a b c : regex) (st : cursor) :
  run (Seq (Seq a b) c) st = run (Seq a (Seq b c)) st.
Proof. simpl. apply flat_map_assoc. Qed.

Lemma run_Seq_ext (a b b' : regex) (st : cursor) :
  (forall x, run b x = run b' x) -> run (Seq a b) st = run (Seq a b') st.
Proof. intros H. simpl. apply flat_map_ext. exact H. Qed.

Lemma tagLineBody_parts (st : cursor) :
  run tagLineBody st
  = run (Seq (Star Space) (Seq tagHead (Seq Wordb tagTail))) st.
Proof.
  unfold tagLineBody, tagHead. apply run_Seq_ext. intros x.
  rewrite run_Seq_assoc. apply run_Seq_ext. intros y.
  rewrite run_Seq_assoc. apply run_Seq_ext. intros z.
  rewrite run_Seq_assoc. reflexivity.
Qed.

Lemma In_tagLineBody (st st' : cursor) :
  In st' (run tagLineBody st)
  <-> exists k s5,
      k <= spanLength isSpace (rest st)
      /\ In s5 (run tagHead (advance k st))
      /\ xorb (atWord (hd_error (before s5))) (atWord (hd_error (rest s5)))
         = true
      /\ In st' (run tagTail s5).
Proof.
  rewrite tagLineBody_parts, In_run_Seq. split.
  - intros (s1 & H1 & H). apply In_run_Star_class in H1 as (k & Hk & ->).
    apply In_run_Seq in H as (s5 & H5 & H).
    apply In_run_Seq in H as (s6 & H6 & H).
    apply In_run_Wordb in H6 as [Hb ->]. exists k, s5. auto.
  - intros (k & s5 & Hk & H5 & Hb & H). exists (advance k st). split.
    + apply In_run_Star_class. exists k. auto.
    + apply In_run_Seq. exists s5. split; [exact H5|].
      apply In_run_Seq. exists s5. split; [|exact H].
      apply In_run_Wordb. auto.
Qed.

Lemma spanLength_full (p : ascii -> bool) (s : str) :
  spanLength p s = length s -> forallb p s = true.
Proof.
  intros H. rewrite <- (firstn_all s). apply spanLength_firstn. lia.
Qed.

Lemma forallb_spanLength (p : ascii -> bool) (s : str) :
  forallb p s = true -> spanLength p s = length s.
Proof.
  intros H. pose proof (spanLength_all p s [] H) as E.
  rewrite app_nil_r in E. simpl in E. lia.
Qed.

(** The tail of the pattern: some of the white space, then everything
    up to the end of the line, which is captured. *)
Lemma In_tagTail (st st' : cursor) :
  In st' (run tagTail st)
  <-> exists k,
      k <= spanLength isSpace (rest st)
      /\ oneLine (skipn k (rest st)) = true
      /\ st' = mkCursor (rev (rest st) ++ before st) []
                        ((2, skipn k (rest st)) :: caps st).
Proof.
  unfold tagTail. rewrite In_run_Seq. split.
  - intros (s7 & H7 & H). apply In_run_Star_class in H7 as (k & Hk & ->).
    apply In_run_Seq in H as (s8 & H8 & H).
    apply In_run_Eol in H as [Hend ->].
    apply In_run_Grp in H8 as (t1 & Ht1 & ->). simpl in Hend.
    apply In_run_Star_class in Ht1 as (j & Hj & ->).
    unfold advance in Hend |- *. simpl in *.
    set (r := skipn k (rest st)) in *.
    assert (length r <= j) as Hlen.
    { apply (f_equal (@length ascii)) in Hend. rewrite length_skipn in Hend.
      simpl in Hend. lia. }
    pose proof (spanLength_le (fun c => negb (isLineTerminator c)) r) as Hle.
    assert (forallb (fun c => negb (isLineTerminator c)) r = true) as Hall
      by (apply spanLength_full; lia).
    exists k. split; [exact Hk|]. split; [exact Hall|].
    rewrite (firstn_all2 r) by exact Hlen. rewrite Hend.
    f_equal.
    + unfold r. rewrite app_assoc, <- rev_app_distr, firstn_skipn. reflexivity.
    + f_equal. f_equal.
      rewrite !length_app, !length_rev.
      replace (length r + (length (firstn k (rest st)) + length (before st))
               - (length (firstn k (rest st)) + length (before st)))
        with (length (rev r)) by (rewrite length_rev; lia).
      rewrite firstn_app, firstn_all, Nat.sub_diag. simpl.
      rewrite app_nil_r. apply rev_involutive.
  - intros (k & Hk & Hone & ->).
    exists (advance k st). split; [apply In_run_Star_class; eauto|].
    set (r := skipn k (rest st)) in *.
    apply In_run_Seq.
    exists (mkCursor (rev (rest st) ++ before st) [] ((2, r) :: caps st)).
    split; [|apply In_run_Eol; auto].
    apply In_run_Grp. exists (advance (length r) (advance k st)). split.
    + apply In_run_Star_class. exists (length r). split; [|reflexivity].
      simpl. fold r. rewrite forallb_spanLength; [lia | exact Hone].
    + unfold advance. simpl. fold r.
      rewrite firstn_all, skipn_all. f_equal.
      * unfold r. rewrite app_assoc, <- rev_app_distr, firstn_skipn.
        reflexivity.
      * f_equal. f_equal.
        rewrite !length_app, !length_rev.
        replace (length r + (length (firstn k (rest st)) + length (before st))
                 - (length (firstn k (rest st)) + length (before st)))
          with (length (rev r)) by (rewrite length_rev; lia).
        rewrite firstn_app, firstn_all, Nat.sub_diag. simpl.
        rewrite app_nil_r. symmetry. apply rev_involutive.
Qed.

Lemma exec_TAG (l : str) :
  exec TAG_LINE_PATTERN l
  = match run tagLineBody (atStart l) with
    | st' :: _ =>
        Some (mkResult 0 (firstn (length l - length (rest st')) l) (caps st'))
    | [] => None
    end.
Proof. rewrite TAG_LINE_PATTERN_body. apply exec_Bol. Qed.

Lemma exec_TAG_Some (l : str) (m : Regex.result) :
  exec TAG_LINE_PATTERN l = Some m ->
  exists st', In st' (run tagLineBody (atStart l)) /\ groups m = caps st'.
Proof.
  rewrite exec_TAG. destruct (run tagLineBody (atStart l)) as [|st' tl];
    [discriminate|].
  intros H. inversion H; subst. exists st'. split; [left|]; reflexivity.
Qed.


Lemma consumes_advance (k : nat) (st : cursor) : consumes st (advance k st).
Proof.
  exists (firstn k (rest st)). unfold advance. simpl.
  rewrite firstn_skipn. auto.
Qed.

Lemma In_tagHead_at (st s5 : cursor) :
  In s5 (run tagHead st) ->
  exists s3 s4 c s',
    consumes st s3 /\ rest s3 = "@"%char :: s'
    /\ s4 = mkCursor ("@"%char :: before s3) s' (caps s3)
    /\ consumes s4 s5 /\ c = "@"%char.
Proof.
  unfold tagHead. intros H.
  apply In_run_Seq in H as (s2 & H2 & H).
  apply In_run_Seq in H as (s3 & H3 & H).
  apply In_run_Seq in H as (s4 & H4 & H).
  apply In_run_Cls in H4 as (c & s' & Hrest & Hc & ->).
  apply Ascii.eqb_eq in Hc. subst c.
  exists s3, (mkCursor ("@"%char :: before s3) s' (caps s3)), "@"%char, s'.
  repeat split; auto.
  - eapply consumes_trans; eapply run_consumes; eauto.
  - eapply run_consumes; eauto.
Qed.

(** A line the pattern matches holds an at sign, and the [content]
    group is captured and holds no line terminator. *)
Lemma exec_TAG_facts (l : str) (m : Regex.result) :
  exec TAG_LINE_PATTERN l = Some m ->
  In "@"%char l
  /\ exists g2, group 2 m = Some g2 /\ oneLine g2 = true.
Proof.
  intros H. apply exec_TAG_Some in H as (st' & Hin & Hg).
  apply In_tagLineBody in Hin as (k & s5 & Hk & H5 & Hb & Ht).
  apply In_tagTail in Ht as (j & Hj & Hone & ->). split.
  - apply In_tagHead_at in H5 as (s3 & s4 & c & s' & Hc3 & Hrest & _).
    pose proof (consumes_trans _ _ _ (consumes_advance k (atStart l)) Hc3)
      as (x & Hx & _).
    simpl in Hx. rewrite Hx, Hrest. apply in_or_app. right. left. reflexivity.
  - exists (skipn j (rest s5)). split; [|exact Hone].
    unfold group. rewrite Hg. simpl. reflexivity.
Qed.







(** ** The comment marker *)





Lemma replace_chars (r : regex) (s : str) (c : ascii) :
  In c (replace r [] s) -> In c s.
Proof.
  unfold replace. destruct (exec r s) as [m|]; [|auto].
  simpl. intros H. apply in_app_or in H as [H|H].
  - rewrite <- (firstn_skipn (index m) s). apply in_or_app. left. exact H.
  - rewrite <- (firstn_skipn (index m + length (matched m)) s).
    apply in_or_app. right. exact H.
Qed.



(** ** Lines *)








Lemma split_chars (r : regex) (fuel : nat) (bef s : str) (piece : str)
      (c : ascii) :
  In piece (splitFrom r fuel bef s) -> In c piece -> In c s.
Proof.
  revert bef s. induction fuel as [|f IH]; intros bef s Hp Hc; simpl in Hp.
  - destruct Hp as [<-|[]]. exact Hc.
  - destruct (scan r bef s) as [m|]; [|destruct Hp as [<-|[]]; exact Hc].
    destruct (matched m); [destruct Hp as [<-|[]]; exact Hc|].
    destruct Hp as [<-|Hp].
    + rewrite <- (firstn_skipn (index m - length bef) s).
      apply in_or_app. left. exact Hc.
    + apply IH in Hp; [|exact Hc].
      match type of Hp with
      | In c (skipn ?n s) =>
          rewrite <- (firstn_skipn n s); apply in_or_app; right; exact Hp
      end.
Qed.











(** ** Trimming a text made of trimmed lines *)











(** ** The tokenizer *)

Lemma tokenizeLine_tag (st : tokenizer) (rawLine : str) (m : Regex.result) :
  exec TAG_LINE_PATTERN (normalizeJavadocLine rawLine) = Some m ->
  tokenizeLine st rawLine
  = if isSupportedTag (toLowerCase (orEmpty (group 1 m)))
    then mkTokenizer (blocks (flush st))
                     (Some (toLowerCase (orEmpty (group 1 m))))
                     (buffer (flush st) ++ [trim (orEmpty (group 2 m))])
    else flush st.
Proof. intros H. unfold tokenizeLine. rewrite H. reflexivity. Qed.

Lemma tokenizeLine_text (st : tokenizer) (rawLine : str) :
  exec TAG_LINE_PATTERN (normalizeJavadocLine rawLine) = None ->
  tokenizeLine st rawLine
  = match activeTag st with
    | Some _ => mkTokenizer (blocks st) (activeTag st)
                            (buffer st ++ [trim (normalizeJavadocLine rawLine)])
    | None => st
    end.
Proof. intros H. unfold tokenizeLine. rewrite H. reflexivity. Qed.





(** ** The rebuilt text *)
















(** ** Texts of white space *)

Lemma fold_tokenizeLine_idle (lines : list str) (st : tokenizer) :
  (forall l, In l lines ->
             exec TAG_LINE_PATTERN (normalizeJavadocLine l) = None) ->
  activeTag st = None ->
  fold_left tokenizeLine lines st = st.
Proof.
  induction lines as [|l lines IH]; intros Hl Hst; [reflexivity|].
  simpl. rewrite tokenizeLine_text by (apply Hl; left; reflexivity).
  rewrite Hst. apply IH; [|exact Hst]. intros l' Hl'. apply Hl. right. exact Hl'.
Qed.

Lemma tokenizeTagBlocks_blank (rawTags : str) :
  trim rawTags = [] -> tokenizeTagBlocks rawTags = [].
Proof.
  intros H. apply trim_nil_spaces in H. unfold tokenizeTagBlocks.
  rewrite fold_tokenizeLine_idle; [reflexivity| |reflexivity].
  intros l Hl.
  destruct (exec TAG_LINE_PATTERN (normalizeJavadocLine l)) as [m|] eqn:E;
    [|reflexivity].
  apply exec_TAG_facts in E as [Hat _].
  unfold normalizeJavadocLine in Hat. apply replace_chars in Hat.
  unfold split in Hl. apply (split_chars _ _ _ _ _ _ Hl) in Hat.
  rewrite forallb_forall in H. apply H in Hat. discriminate Hat.
Qed.


(** ** Parsing the rebuilt text *)




(** ** The locator on any list *)

(** X1: whatever the list, sorted or not, a document returned by the
    locator is an element of the list and its range holds the line. *)
Theorem X1_binarySearchMethod_returns_enclosing
        (ms : list MethodDoc) (l : nat) :
  match binarySearchMethod ms l with
  | Some D => In D ms /\ startLine D <= l <= endLine D
  | None => True
  end.
Proof.
  unfold binarySearchMethod. destruct ms as [|first rest]; [exact I|].
  destruct (nth_error (first :: rest) (length (first :: rest) - 1));
    [|exact I].
  destruct ((l <? startLine first) || (endLine m <? l)); [exact I|].
  destruct (findRightmostStartLineAtOrBefore (first :: rest) l <? 0)%Z;
    [exact I|].
  destruct (nth_error (first :: rest)
              (Z.to_nat (findRightmostStartLineAtOrBefore (first :: rest) l)))
    as [candidate|] eqn:E; [|exact I].
  destruct (isLineInsideMethod candidate l) eqn:Hin; [|exact I].
  split; [apply nth_error_In in E; exact E|].
  unfold isLineInsideMethod in Hin. apply andb_prop in Hin as [H1 H2].
  apply Nat.leb_le in H1, H2. lia.
Qed.

Lemma X1_witness_second_range :
  binarySearchMethod apart 6 = Some (span "second" 5 9)
  /\ In (span "second" 5 9) apart /\ 5 <= 6 <= 9.
Proof.
  split; [reflexivity|].
  exact (X1_binarySearchMethod_returns_enclosing apart 6).
Defined.

(** X2: on start lines in ascending order, the index found by the
    binary search cuts the list in two: the entries up to it start at or
    before the line, those after it start after the line.  The index
    lies between [-1] and the last index. *)
Theorem X2_findRightmost_cuts_the_list (ms : list MethodDoc) (l : nat) :
  ascending (map startLine ms) = true ->
  (-1 <= findRightmostStartLineAtOrBefore ms l < Z.of_nat (length ms))%Z
  /\ forall i a,
      nth_error ms i = Some a ->
      (startLine a <= l
       <-> (Z.of_nat i <= findRightmostStartLineAtOrBefore ms l)%Z).
Proof.
  intros Ha. apply ascending_by in Ha.
  destruct (upperBound_spec ms l 0 (length ms) Ha) as (Hr & Hlow & Hhigh).
  - lia.
  - intros; lia.
  - intros i a Hi Hnth.
    assert (i < length ms) by (apply nth_error_Some; congruence). lia.
  - unfold findRightmostStartLineAtOrBefore.
    set (r := upperBound ms l 0 (length ms)) in *.
    assert (r = 0 \/ exists a, nth_error ms (r - 1) = Some a /\ 0 < r)
      as Hcase.
    { destruct r as [|r']; [left; reflexivity|right].
      destruct (nth_error ms (S r' - 1)) eqn:E; [eauto with arith|].
      apply nth_error_None in E. lia. }
    split.
    + destruct Hcase as [->|(a & Hnth & Hpos)]; [lia|].
      assert (r - 1 < length ms) by (apply nth_error_Some; congruence). lia.
    + intros i a Hnth. split; intros H.
      * destruct (Nat.lt_ge_cases i r) as [Hlt|Hge]; [lia|].
        specialize (Hhigh i a Hge Hnth). lia.
      * apply (Hlow i a); [lia | exact Hnth].
Qed.

Lemma X2_witness_two_ranges :
  ascending (map startLine apart) = true
  /\ findRightmostStartLineAtOrBefore apart 4 = 0%Z
  /\ (startLine (span "second" 5 9) <= 4
      <-> (Z.of_nat 1 <= findRightmostStartLineAtOrBefore apart 4)%Z).
Proof.
  split; [reflexivity|]. split; [reflexivity|].
  apply (X2_findRightmost_cuts_the_list apart 4); reflexivity.
Defined.

(** ** The highlight of the sidebar *)

Lemma sameId_eq (a b : option str) : sameId a b = true <-> a = b.
Proof.
  destruct a as [x|], b as [y|]; simpl; try (split; congruence).
  rewrite eqb_eq. split; congruence.
Qed.

Lemma located_encloses (ms : list MethodDoc) (l : nat) (D : MethodDoc) :
  binarySearchMethod ms l = Some D -> In D ms /\ encloses D l.
Proof.
  intros H. unfold binarySearchMethod in H.
  destruct ms as [|first rest]; [discriminate|].
  destruct (nth_error (first :: rest) (length (first :: rest) - 1));
    [|discriminate].
  destruct ((l <? startLine first) || (endLine m <? l)); [discriminate|].
  destruct (findRightmostStartLineAtOrBefore (first :: rest) l <? 0)%Z;
    [discriminate|].
  destruct (nth_error (first :: rest)
              (Z.to_nat (findRightmostStartLineAtOrBefore (first :: rest) l)))
    as [candidate|] eqn:E; [|discriminate].
  destruct (isLineInsideMethod candidate l) eqn:Hin; [|discriminate].
  inversion H; subst. split; [apply nth_error_In in E; exact E|].
  unfold isLineInsideMethod in Hin. apply andb_prop in Hin as [H1 H2].
  apply Nat.leb_le in H1, H2. split; assumption.
Qed.

Lemma updateHighlight_remembers (l : nat) (s : Sidebar) :
  view (updateHighlight l s) = view s
  /\ currentMethods (updateHighlight l s) = currentMethods s
  /\ lastHighlightId (updateHighlight l s)
     = option_map id (binarySearchMethod (currentMethods s) l).
Proof.
  unfold updateHighlight.
  destruct (sameId (option_map id (binarySearchMethod (currentMethods s) l))
                   (lastHighlightId s)) eqn:Hsame.
  - apply sameId_eq in Hsame. auto.
  - destruct (binarySearchMethod (currentMethods s) l) as [D|];
      cbn [option_map]; cbv iota; [|simpl; auto].
    destruct (truthy (id D)); [|simpl; auto].
    unfold postMessage. simpl. destruct (view s) eqn:Hv; simpl; auto.
Qed.

(** X3: a cursor move sends the webview at most one message, a
    highlight of a method of the list shown that holds the cursor line
    and that is not the one remembered as highlighted; it leaves the
    list and the view as they are and remembers what it has located. *)
Theorem X3_updateHighlight_posts_located_method (l : nat) (s : Sidebar) :
  view (updateHighlight l s) = view s
  /\ currentMethods (updateHighlight l s) = currentMethods s
  /\ lastHighlightId (updateHighlight l s)
     = option_map id (binarySearchMethod (currentMethods s) l)
  /\ (posted (updateHighlight l s) = posted s
      \/ exists D,
          In D (currentMethods s) /\ encloses D l
          /\ lastHighlightId s <> Some (id D)
          /\ posted (updateHighlight l s)
             = posted s ++ [HighlightMethod (id D)]).
Proof.
  destruct (updateHighlight_remembers l s) as (Hv & Hms & Hlast).
  repeat (split; [assumption|]). clear Hv Hms Hlast.
  unfold updateHighlight.
  destruct (sameId (option_map id (binarySearchMethod (currentMethods s) l))
                   (lastHighlightId s)) eqn:Hsame; [left; reflexivity|].
  destruct (binarySearchMethod (currentMethods s) l) as [D|] eqn:HD;
    cbn [option_map] in *; cbv iota; [|left; reflexivity].
  destruct (truthy (id D)); [|left; reflexivity].
  unfold postMessage. simpl. destruct (view s); [|left; reflexivity].
  right. exists D. destruct (located_encloses _ _ _ HD) as [Hin Henc].
  repeat split; try assumption; try reflexivity; try apply Henc.
  intros E. rewrite E in Hsame.
  assert (sameId (Some (id D)) (Some (id D)) = true) as Ht
      by (apply sameId_eq; reflexivity).
  congruence.
Qed.

(** X4: a cursor move that locates the method located by the move
    before it, or none as the move before it, changes nothing and sends
    nothing. *)
Theorem X4_updateHighlight_same_method_is_silent (l1 l2 : nat) (s : Sidebar) :
  option_map id (binarySearchMethod (currentMethods s) l2)
  = option_map id (binarySearchMethod (currentMethods s) l1) ->
  updateHighlight l2 (updateHighlight l1 s) = updateHighlight l1 s.
Proof.
  intros Hsame.
  destruct (updateHighlight_remembers l1 s) as (_ & Hms & Hlast).
  unfold updateHighlight at 1. rewrite Hms, Hlast, Hsame.
  assert (sameId (option_map id (binarySearchMethod (currentMethods s) l1))
                 (option_map id (binarySearchMethod (currentMethods s) l1))
          = true) as -> by (apply sameId_eq; reflexivity).
  reflexivity.
Qed.

Lemma X4_witness_within_one_method :
  option_map id (binarySearchMethod (currentMethods (showing apart)) 7)
  = option_map id (binarySearchMethod (currentMethods (showing apart)) 6)
  /\ posted (updateHighlight 6 (showing apart))
     = [HighlightMethod (lit "second_5")]
  /\ updateHighlight 7 (updateHighlight 6 (showing apart))
     = updateHighlight 6 (showing apart).
Proof.
  split; [reflexivity|]. split; [reflexivity|].
  apply (X4_updateHighlight_same_method_is_silent 6 7 (showing apart)).
  reflexivity.
Defined.
Lemma updateHighlight_nothing_shown (l : nat) (s : Sidebar) :
  currentMethods s = [] -> lastHighlightId s = None ->
  updateHighlight l s = s.
Proof.
  intros Hms Hlast. unfold updateHighlight. rewrite Hms, Hlast.
  reflexivity.
Qed.

(** X5: once the view is cleared or the provider is disposed, cursor
    moves, however many, change nothing and send nothing. *)
Theorem X5_cleared_view_stays_silent (moves : list nat) (s : Sidebar) :
  fold_left (fun s' l => updateHighlight l s') moves (clearView s)
  = clearView s
  /\ fold_left (fun s' l => updateHighlight l s') moves (dispose s)
     = dispose s.
Proof.
  assert (forall s0, currentMethods s0 = [] -> lastHighlightId s0 = None ->
                     fold_left (fun s' l => updateHighlight l s') moves s0
                     = s0) as Hquiet.
  { induction moves as [|l moves IH]; intros s0 Hms Hlast; [reflexivity|].
    cbn [fold_left]. rewrite updateHighlight_nothing_shown by assumption.
    apply IH; assumption. }
  split; apply Hquiet; try reflexivity;
    unfold clearView, postMessage; cbn [view]; destruct (view s); reflexivity.
Qed.

(** ** Matching tokens *)

Lemma findMatchingFrom_spec (o c : ascii) (s : str) :
  o <> c ->
  forall (i : nat) (d : Z),
  match findMatchingFrom s i d o c with
  | Some k =>
      exists n, k = i + n
        /\ nth_error s n = Some c
        /\ (d + balance o c (firstn (S n) s) = 0)%Z
        /\ forall m, m < n -> nth_error s m = Some c ->
                     (d + balance o c (firstn (S m) s))%Z <> 0%Z
  | None =>
      forall n, nth_error s n = Some c ->
                (d + balance o c (firstn (S n) s))%Z <> 0%Z
  end.
Proof.
  intros Hoc. induction s as [|x s IH]; intros i d.
  - simpl. intros n Hn. destruct n; discriminate.
  - cbn [findMatchingFrom].
    assert (forall d',
      (d' = d + (if Ascii.eqb x o then 1
                 else if Ascii.eqb x c then -1 else 0))%Z ->
      (nth_error (x :: s) 0 = Some c -> d' <> 0%Z) ->
      match findMatchingFrom s (S i) d' o c with
      | Some k =>
          exists n, k = i + n
            /\ nth_error (x :: s) n = Some c
            /\ (d + balance o c (firstn (S n) (x :: s)) = 0)%Z
            /\ forall m, m < n -> nth_error (x :: s) m = Some c ->
                 (d + balance o c (firstn (S m) (x :: s)))%Z <> 0%Z
      | None =>
          forall n, nth_error (x :: s) n = Some c ->
                    (d + balance o c (firstn (S n) (x :: s)))%Z <> 0%Z
      end) as Hrest.
    { intros d' Hd' Hhead. specialize (IH (S i) d').
      destruct (findMatchingFrom s (S i) d' o c) as [k|].
      - destruct IH as (n & -> & Hn & Hbal & Hmin). exists (S n).
        split; [lia|]. split; [exact Hn|]. split.
        + cbn [firstn balance]. cbn [firstn] in Hbal. lia.
        + intros m Hm Hnth. destruct m as [|m].
          * cbn [firstn balance]. specialize (Hhead Hnth). lia.
          * cbn [firstn balance]. simpl in Hnth.
            specialize (Hmin m ltac:(lia) Hnth). cbn [firstn] in Hmin. lia.
      - intros n Hnth. destruct n as [|n].
        + cbn [firstn balance]. specialize (Hhead Hnth). lia.
        + cbn [firstn balance]. simpl in Hnth.
          specialize (IH n Hnth). cbn [firstn] in IH. lia. }
    destruct (Ascii.eqb x o) eqn:Exo.
    + apply Hrest; [reflexivity|]. intros Hx. simpl in Hx.
      apply Ascii.eqb_eq in Exo. congruence.
    + destruct (Ascii.eqb x c) eqn:Exc.
      * destruct (d - 1 =? 0)%Z eqn:Ed.
        -- apply Z.eqb_eq in Ed. exists 0. split; [lia|].
           apply Ascii.eqb_eq in Exc. subst x. split; [reflexivity|].
           split; [|intros m Hm; lia].
           cbn [firstn balance]. rewrite Exo, Ascii.eqb_refl. lia.
        -- apply Z.eqb_neq in Ed. apply Hrest; [lia|]. intros _. lia.
      * apply Hrest; [lia|]. intros Hx. simpl in Hx.
        apply Ascii.eqb_neq in Exc. congruence.
Qed.

Lemma findMatchingIndex_least
      (text : str) (startIndex : nat) (openToken closeToken : ascii) :
  openToken <> closeToken ->
  match findMatchingIndex text startIndex openToken closeToken with
  | Some i =>
      closesAt text startIndex openToken closeToken i
      /\ forall j, closesAt text startIndex openToken closeToken j -> i <= j
  | None => forall j, ~ closesAt text startIndex openToken closeToken j
  end.
Proof.
  intros Hoc. unfold findMatchingIndex.
  pose proof (findMatchingFrom_spec openToken closeToken
                (skipn startIndex text) Hoc startIndex 0%Z) as H.
  assert (forall n, nth_error (skipn startIndex text) n
                    = nth_error text (startIndex + n)) as Hnth.
  { intros n. apply nth_error_skipn. }
  assert (forall n, firstn (S n) (skipn startIndex text)
                    = slice text startIndex (startIndex + n + 1)) as Hsl.
  { intros n. unfold slice. f_equal. lia. }
  destruct (findMatchingFrom (skipn startIndex text) startIndex 0
                             openToken closeToken) as [k|].
  - destruct H as (n & -> & Hn & Hbal & Hmin). split.
    + split; [lia|]. split; [rewrite <- Hnth; exact Hn|].
      rewrite <- Hsl. lia.
    + intros j (Hj & Hjn & Hjb).
      destruct (Nat.lt_ge_cases j (startIndex + n)) as [Hlt|]; [|assumption].
      exfalso. apply (Hmin (j - startIndex)); [lia| |].
      * rewrite Hnth. replace (startIndex + (j - startIndex)) with j by lia.
        exact Hjn.
      * rewrite Hsl. replace (startIndex + (j - startIndex)) with j by lia.
        lia.
  - intros j (Hj & Hjn & Hjb).
    apply (H (j - startIndex)).
    + rewrite Hnth. replace (startIndex + (j - startIndex)) with j by lia.
      exact Hjn.
    + rewrite Hsl. replace (startIndex + (j - startIndex)) with j by lia.
      lia.
Qed.

(** X6: for distinct tokens, [findMatchingIndex] returns the first
    index from [startIndex] on that holds a closing token and up to
    which the opening and the closing tokens balance, and it returns
    [-1] exactly when there is no such index. *)
Theorem X6_findMatchingIndex_first_balanced
        (text : str) (startIndex : nat) (openToken closeToken : ascii) :
  openToken <> closeToken ->
  match findMatchingIndex text startIndex openToken closeToken with
  | Some i =>
      closesAt text startIndex openToken closeToken i
      /\ forall j, closesAt text startIndex openToken closeToken j -> i <= j
  | None => forall j, ~ closesAt text startIndex openToken closeToken j
  end.
Proof. apply findMatchingIndex_least. Qed.

Lemma X6_witness_nested_parentheses :
  "("%char <> ")"%char
  /\ findMatchingIndex "f(a(b)c)d)" 1 "(" ")" = Some 7
  /\ closesAt "f(a(b)c)d)" 1 "(" ")" 7
  /\ forall j, closesAt "f(a(b)c)d)" 1 "(" ")" j -> 7 <= j.
Proof.
  split; [discriminate|]. split; [reflexivity|].
  apply (X6_findMatchingIndex_first_balanced "f(a(b)c)d)" 1 "(" ")").
  discriminate.
Defined.

(** ** Splitting a parameter list *)

Lemma join_snoc_app (sep : str) (l : list str) (a b : str) :
  join sep (l ++ [a ++ b]) = join sep (l ++ [a]) ++ b.
Proof.
  destruct l as [|x l]; [reflexivity|].
  rewrite !join_snoc by discriminate. rewrite <- !app_assoc. reflexivity.
Qed.

(** What a turn of the loop does to the two depths. *)
Lemma splitStep_cases (st : splitter) (c : ascii) :
  (c = ","%char /\ angleDepth st = 0 /\ parenDepth st = 0
   /\ splitStep st c = mkSplitter (result st ++ [current st]) [] 0 0)
  \/ (~ (c = ","%char /\ angleDepth st = 0 /\ parenDepth st = 0)
      /\ exists a b,
          splitStep st c = mkSplitter (result st) (current st ++ [c]) a b
          /\ forall r cur,
              splitStep (mkSplitter r cur (angleDepth st) (parenDepth st)) c
              = mkSplitter r (cur ++ [c]) a b).
Proof.
  unfold splitStep.
  destruct (Ascii.eqb c "<") eqn:E1.
  { right. apply Ascii.eqb_eq in E1. subst c.
    split; [intros [H _]; discriminate|]. eexists _, _.
    split; [reflexivity|]. intros r cur. reflexivity. }
  destruct (Ascii.eqb c ">") eqn:E2.
  { right. apply Ascii.eqb_eq in E2. subst c.
    split; [intros [H _]; discriminate|]. eexists _, _.
    split; [reflexivity|]. intros r cur. reflexivity. }
  destruct (Ascii.eqb c "(") eqn:E3.
  { right. apply Ascii.eqb_eq in E3. subst c.
    split; [intros [H _]; discriminate|]. eexists _, _.
    split; [reflexivity|]. intros r cur. reflexivity. }
  destruct (Ascii.eqb c ")") eqn:E4.
  { right. apply Ascii.eqb_eq in E4. subst c.
    split; [intros [H _]; discriminate|]. eexists _, _.
    split; [reflexivity|]. intros r cur. reflexivity. }
  destruct (Ascii.eqb c "," && (angleDepth st =? 0) && (parenDepth st =? 0))
    eqn:E5.
  - left. apply andb_prop in E5 as [E5 Hp]. apply andb_prop in E5 as [Hc Ha].
    apply Ascii.eqb_eq in Hc. apply Nat.eqb_eq in Ha, Hp.
    rewrite Ha, Hp. auto.
  - right. split.
    + intros (Hc & Ha & Hp). subst c. rewrite Ha, Hp in E5. discriminate.
    + eexists _, _. split; [reflexivity|]. intros r cur. cbn [angleDepth parenDepth].
      rewrite E5. reflexivity.
Qed.

(** The pieces pushed and the piece in progress, joined by commas, are
    the text read so far. *)
Lemma fold_splitStep_whole (t : str) (st : splitter) :
  join (lit ",") (result (fold_left splitStep t st)
                  ++ [current (fold_left splitStep t st)])
  = join (lit ",") (result st ++ [current st]) ++ t.
Proof.
  revert st. induction t as [|c t IH]; intros st.
  - simpl. rewrite app_nil_r. reflexivity.
  - cbn [fold_left]. rewrite IH.
    change (c :: t) with ([c] ++ t). rewrite app_assoc. f_equal.
    destruct (splitStep_cases st c)
      as [(-> & _ & _ & ->)|(_ & a & b & -> & _)]; cbn [result current].
    + rewrite join_snoc; [reflexivity|].
      destruct (result st); discriminate.
    + apply join_snoc_app.
Qed.




(** X7: the pieces of [splitByTopLevelComma], joined by commas, are the
    text, but for a last piece of white space only, which is dropped. *)
Theorem X7_splitByTopLevelComma_joins_back (paramsText : str) :
  join (lit ",") (splitByTopLevelComma paramsText) = paramsText
  \/ exists blank,
      forallb isSpace blank = true
      /\ join (lit ",") (splitByTopLevelComma paramsText ++ [blank])
         = paramsText.
Proof.
  pose proof (fold_splitStep_whole paramsText (mkSplitter [] [] 0 0)) as H.
  simpl in H. unfold splitByTopLevelComma.
  destruct (truthy (trim (current (fold_left splitStep paramsText
                                             (mkSplitter [] [] 0 0)))))
    eqn:E.
  - left. exact H.
  - right. eexists. split; [|exact H].
    apply trim_nil_spaces.
    destruct (trim (current (fold_left splitStep paramsText
                                       (mkSplitter [] [] 0 0))));
      [reflexivity | discriminate].
Qed.


(** ** Annotations and modifiers of a parameter *)

Lemma trimStart_suffix (s : str) : exists pre, s = pre ++ trimStart s.
Proof.
  induction s as [|c s [pre IH]]; [exists []; reflexivity|].
  simpl. destruct (isSpace c).
  - exists (c :: pre). simpl. f_equal. exact IH.
  - exists []. reflexivity.
Qed.

Lemma trimStart_length (s : str) : length (trimStart s) <= length s.
Proof.
  destruct (trimStart_suffix s) as [pre H]. rewrite H at 2.
  rewrite length_app. lia.
Qed.

Lemma skipn_suffix {A : Type} (n : nat) (l : list A) :
  exists pre, l = pre ++ skipn n l.
Proof. exists (firstn n l). symmetry. apply firstn_skipn. Qed.

Lemma skipn_shorter {A : Type} (n : nat) (l : list A) :
  1 <= n -> l <> [] -> length (skipn n l) < length l.
Proof.
  intros Hn Hne. rewrite length_skipn. destruct l; [congruence|].
  cbn [length]. lia.
Qed.

Lemma stripLeadingAnnotation_suffix (text : str) :
  (exists pre, text = pre ++ stripLeadingAnnotation text)
  /\ (text <> [] -> length (stripLeadingAnnotation text) < length text).
Proof.
  unfold stripLeadingAnnotation.
  set (index1 := 1 + spanLength _ (skipn 1 text)).
  set (index2 := index1 + spanLength isSpace (skipn index1 text)).
  assert (1 <= index2) as Hpos by (subst index2 index1; lia).
  assert (forall n, 1 <= n -> text <> [] -> length (skipn n text) < length text)
    as Hlen by (intros n; apply skipn_shorter).
  destruct (nth_error text index2) as [c|];
    [destruct (Ascii.eqb c "(");
     [destruct (findMatchingIndex text index2 "(" ")") as [closeParen|]|]|].
  - split; [apply skipn_suffix|]. apply Hlen. lia.
  - split; [exists text; rewrite app_nil_r; reflexivity|].
    intros Hne. destruct text; [congruence|]. simpl. lia.
  - split; [apply skipn_suffix|]. apply Hlen. exact Hpos.
  - split; [apply skipn_suffix|]. apply Hlen. exact Hpos.
Qed.

Lemma leadingModifier_length (trimmed modifier : str) :
  leadingModifier trimmed = Some modifier ->
  0 < length modifier /\ trimmed <> [].
Proof.
  unfold leadingModifier, PARAM_MODIFIERS. intros H.
  apply find_some in H as [Hin Hb]. destruct Hin as [<-|[]].
  split; [simpl; lia|]. intros ->. discriminate Hb.
Qed.

Lemma stripLoop_spec (fuel : nat) (remaining : str) :
  length remaining < fuel ->
  (exists pre, remaining = pre ++ stripLoop fuel remaining)
  /\ trimStart (stripLoop fuel remaining) = stripLoop fuel remaining
  /\ startsWith (stripLoop fuel remaining) "@" = false
  /\ leadingModifier (stripLoop fuel remaining) = None.
Proof.
  revert remaining. induction fuel as [|f IH]; intros remaining Hf; [lia|].
  cbn [stripLoop]. destruct remaining as [|c0 rem0] eqn:Hrem.
  { split; [exists []; reflexivity|]. repeat split; reflexivity. }
  rewrite <- Hrem in *. clear Hrem c0 rem0.
  destruct (trimStart_suffix remaining) as [ws Hws].
  pose proof (trimStart_length remaining) as Hlen.
  destruct (startsWith (trimStart remaining) "@") eqn:Hat.
  - destruct (stripLeadingAnnotation_suffix (trimStart remaining))
      as [[pre Hpre] Hshort].
    assert (trimStart remaining <> []) as Hne
        by (intros E; rewrite E in Hat; discriminate).
    specialize (Hshort Hne).
    destruct (IH (stripLeadingAnnotation (trimStart remaining)))
      as ([pre' Hpre'] & Hrest); [lia|].
    split; [|exact Hrest].
    exists (ws ++ pre ++ pre'). rewrite <- !app_assoc, <- Hpre', <- Hpre.
    exact Hws.
  - destruct (leadingModifier (trimStart remaining)) as [modifier|] eqn:Hmod.
    + destruct (leadingModifier_length _ _ Hmod) as [Hm Hne].
      assert (length (sliceFrom (trimStart remaining) (length modifier))
              < length (trimStart remaining)) as Hshort.
      { unfold sliceFrom. apply skipn_shorter; [lia | exact Hne]. }
      destruct (IH (sliceFrom (trimStart remaining) (length modifier)))
        as ([pre' Hpre'] & Hrest); [lia|].
      split; [|exact Hrest].
      destruct (skipn_suffix (length modifier) (trimStart remaining))
        as [pre Hpre].
      exists (ws ++ pre ++ pre'). rewrite <- !app_assoc.
      rewrite <- Hpre'. unfold sliceFrom. rewrite <- Hpre. exact Hws.
    + split; [exists ws; exact Hws|].
      split; [apply trimStart_idem|]. split; [exact Hat | exact Hmod].
Qed.

(** X9: what [stripAnnotationsAndModifiers] returns is an end of the
    declaration that starts neither with white space, nor with an
    annotation, nor with the [final] modifier; stripped again, it is
    unchanged. *)
Theorem X9_stripAnnotationsAndModifiers_reaches_the_type (paramDecl : str) :
  (exists stripped,
      paramDecl = stripped ++ stripAnnotationsAndModifiers paramDecl)
  /\ trimStart (stripAnnotationsAndModifiers paramDecl)
     = stripAnnotationsAndModifiers paramDecl
  /\ startsWith (stripAnnotationsAndModifiers paramDecl) "@" = false
  /\ leadingModifier (stripAnnotationsAndModifiers paramDecl) = None
  /\ stripAnnotationsAndModifiers (stripAnnotationsAndModifiers paramDecl)
     = stripAnnotationsAndModifiers paramDecl.
Proof.
  destruct (stripLoop_spec (S (length paramDecl)) paramDecl)
    as (Hsuf & Htrim & Hat & Hmod); [lia|].
  fold (stripAnnotationsAndModifiers paramDecl) in *.
  repeat (split; [assumption|]).
  set (r := stripAnnotationsAndModifiers paramDecl) in *.
  unfold stripAnnotationsAndModifiers. cbn [stripLoop].
  destruct r eqn:Hr; [reflexivity|]. rewrite <- Hr in *.
  rewrite Htrim, Hat, Hmod. reflexivity.
Qed.

(** ** The parameter-type table *)

Lemma startsWith_nil (s : str) : startsWith s [] = true.
Proof. destruct s; reflexivity. Qed.

Lemma lastIndexOf_absent (x : ascii) (s : str) :
  lastIndexOf s [x] = None -> ~ In x s.
Proof.
  induction s as [|c s IH]; [intros _ []|].
  cbn [lastIndexOf]. destruct (lastIndexOf s [x]); [discriminate|].
  cbn [startsWith]. rewrite startsWith_nil, andb_true_r.
  destruct (Ascii.eqb x c) eqn:E; [discriminate|]. intros _ [H|H].
  - apply Ascii.eqb_neq in E. congruence.
  - apply IH; [reflexivity | exact H].
Qed.

Lemma lastIndexOf_last (x : ascii) (s : str) (i : nat) :
  lastIndexOf s [x] = Some i -> ~ In x (skipn (S i) s).
Proof.
  revert i. induction s as [|c s IH]; intros i; [discriminate|].
  cbn [lastIndexOf]. destruct (lastIndexOf s [x]) as [j|] eqn:E.
  - intros H. inversion H; subst. apply (IH j eq_refl).
  - destruct (startsWith (c :: s) [x]); [|discriminate].
    intros H. inversion H; subst. simpl. apply lastIndexOf_absent, E.
Qed.

Lemma trim_In (c : ascii) (s : str) : In c (trim s) -> In c s.
Proof.
  intros H. destruct (trim_spec s) as (ws1 & ws2 & Hs & _ & _).
  rewrite Hs. apply in_or_app. right. apply in_or_app. left. exact H.
Qed.

Lemma In_set {V : Type} (k k' : str) (v v' : V) (m : JsMap.t V) :
  In (k', v') (JsMap.set k v m) -> In (k', v') m \/ (k' = k /\ v' = v).
Proof.
  induction m as [|[k0 v0] m IH]; simpl.
  - intros [H|[]]. inversion H. auto.
  - destruct (Js.eqb k0 k) eqn:E.
    + apply eqb_eq in E. subst k0. intros [H|H]; [|auto].
      inversion H. auto.
    + intros [H|H]; [auto|]. destruct (IH H); auto.
Qed.

Lemma truthy_nonempty (s : str) : truthy s = true <-> s <> [].
Proof. destruct s; simpl; split; congruence. Qed.

Lemma addParam_keeps (P : str -> str -> Prop) (table : JsMap.t str)
      (declaration : str) :
  (forall name type,
      name <> [] -> type <> [] -> trimmed name -> trimmed type ->
      ~ In " "%char name -> P name type) ->
  NoDup (JsMap.keys table) ->
  (forall name type, In (name, type) table -> P name type) ->
  NoDup (JsMap.keys (addParam table declaration))
  /\ forall name type,
      In (name, type) (addParam table declaration) -> P name type.
Proof.
  intros HP Hnd Hall. unfold addParam.
  destruct (negb (truthy (trim declaration))); [auto|].
  set (cleaned := stripAnnotationsAndModifiers (trim declaration)).
  destruct (lastIndexOf cleaned " ") as [lastSpace|] eqn:Hlast; [|auto].
  destruct (truthy (trim (sliceFrom cleaned (lastSpace + 1)))) eqn:Hn;
    [|auto].
  destruct (truthy (trim (slice cleaned 0 lastSpace))) eqn:Ht; [|auto].
  cbn [negb orb]. split; [apply NoDup_set, Hnd|].
  intros name type Hin. apply In_set in Hin as [Hin|[-> ->]]; [auto|].
  apply HP.
  - apply truthy_nonempty, Hn.
  - apply truthy_nonempty, Ht.
  - apply trim_trimmed.
  - apply trim_trimmed.
  - intros Hsp. apply trim_In in Hsp. unfold sliceFrom in Hsp.
    replace (lastSpace + 1) with (S lastSpace) in Hsp by lia.
    apply (lastIndexOf_last _ _ _ Hlast Hsp).
Qed.

(** X10: in the table of [parseSignatureParams] no name occurs twice,
    and every entry has a name and a type that are not empty and have
    no white space at either end; the name holds no blank. *)
Theorem X10_parseSignatureParams_entries (signature : str) :
  NoDup (JsMap.keys (parseSignatureParams signature))
  /\ forall name type,
      In (name, type) (parseSignatureParams signature) ->
      name <> [] /\ type <> [] /\ trimmed name /\ trimmed type
      /\ ~ In " "%char name.
Proof.
  unfold parseSignatureParams.
  destruct (extractParenContent signature) as [paramsText|];
    [|split; [constructor | intros ? ? []]].
  assert (forall (ds : list str) (table : JsMap.t str),
             NoDup (JsMap.keys table) ->
             (forall name type,
                 In (name, type) table ->
                 name <> [] /\ type <> [] /\ trimmed name /\ trimmed type
                 /\ ~ In " "%char name) ->
             NoDup (JsMap.keys (fold_left addParam ds table))
             /\ forall name type,
                 In (name, type) (fold_left addParam ds table) ->
                 name <> [] /\ type <> [] /\ trimmed name /\ trimmed type
                 /\ ~ In " "%char name) as Hfold.
  { induction ds as [|d ds IH]; intros table Hnd Hall; [auto|].
    cbn [fold_left].
    destruct (addParam_keeps
                (fun name type =>
                   name <> [] /\ type <> [] /\ trimmed name /\ trimmed type
                   /\ ~ In " "%char name) table d) as [Hnd' Hall'];
      auto. }
  apply Hfold; [constructor | intros ? ? []].
Qed.

Lemma X10_witness_two_parameters :
  parseSignatureParams "void put(final String key, Map<K, V> table)"
  = [(lit "key", lit "String"); (lit "table", lit "Map<K, V>")]
  /\ (lit "table" <> [] /\ lit "Map<K, V>" <> []
      /\ trimmed (lit "table") /\ trimmed (lit "Map<K, V>")
      /\ ~ In " "%char (lit "table")).
Proof.
  split; [reflexivity|].
  apply (proj2 (X10_parseSignatureParams_entries
                  "void put(final String key, Map<K, V> table)")).
  right. left. reflexivity.
Defined.

(** ** Tag lines and blocks *)

Lemma flat_map_singleton {A : Type} (l : list A) :
  flat_map (fun x => [x]) l = l.
Proof. induction l as [|a l IH]; simpl; [|rewrite IH]; reflexivity. Qed.

Lemma run_seqs_cons (r : regex) (rs : list regex) (st : cursor) :
  run (seqs (r :: rs)) st = run (Seq r (seqs rs)) st.
Proof.
  destruct rs as [|r2 rs]; [|reflexivity].
  simpl. symmetry. apply flat_map_singleton.
Qed.

Lemma In_run_alts (rs : list regex) (st st' : cursor) :
  In st' (run (alts rs) st) -> exists r, In r rs /\ In st' (run r st).
Proof.
  induction rs as [|r rs IH].
  - simpl. destruct (rest st); intros [].
  - destruct rs as [|r2 rs].
    + intros H. exists r. split; [left; reflexivity | exact H].
    + change (alts (r :: r2 :: rs)) with (Alt r (alts (r2 :: rs))).
      intros H. apply In_run_Alt in H as [H|H].
      * exists r. split; [left; reflexivity | exact H].
      * destruct (IH H) as (r' & Hin & Hrun). exists r'.
        split; [right; exact Hin | exact Hrun].
Qed.

(** A literal under the [i] flag consumes a text equal to it up to the
    case of the letters, and captures nothing. *)
Lemma In_run_LitI (t : str) (st st' : cursor) :
  In st' (run (LitI t) st) ->
  exists w,
    rest st = w ++ rest st' /\ before st' = rev w ++ before st
    /\ caps st' = caps st /\ toLowerCase w = toLowerCase t.
Proof.
  revert st. induction t as [|c t IH]; intros st H.
  - destruct H as [<-|[]]. exists []. auto.
  - unfold LitI in H. cbn [map] in H. rewrite run_seqs_cons in H.
    apply In_run_Seq in H as (mid & H1 & H2).
    apply In_run_Cls in H1 as (d & s' & Hrest & Hd & ->).
    destruct (IH _ H2) as (w & Hw1 & Hw2 & Hw3 & Hw4).
    cbn [rest before caps] in *. exists (d :: w). split; [|split; [|split]].
    + rewrite Hrest, Hw1. reflexivity.
    + rewrite Hw2. simpl. rewrite <- app_assoc. reflexivity.
    + exact Hw3.
    + simpl. apply Ascii.eqb_eq in Hd. rewrite Hd, Hw4. reflexivity.
Qed.

(** What the [tag] group captures is, in lower case, a supported tag. *)
Lemma In_run_tagGroup (st st' : cursor) :
  In st' (run (Grp 1 tagNames) st) ->
  exists w, caps st' = (1, w) :: caps st
            /\ isSupportedTag (toLowerCase w) = true.
Proof.
  intros H. apply In_run_Grp in H as (st1 & H1 & ->).
  apply In_run_alts in H1 as (r & Hr & H1).
  apply in_map_iff in Hr as (t & <- & Ht).
  apply In_run_LitI in H1 as (w & Hw1 & Hw2 & Hw3 & Hw4).
  exists w. cbn [caps]. split.
  - rewrite Hw3, Hw2, length_app, length_rev.
    replace (length w + length (before st) - length (before st))
      with (length w) by lia.
    rewrite <- (length_rev w), firstn_app, Nat.sub_diag, firstn_all.
    simpl. rewrite app_nil_r, rev_involutive. reflexivity.
  - rewrite Hw4. clear - Ht. simpl in Ht.
    repeat (destruct Ht as [<-|Ht]; [vm_compute; reflexivity|]).
    destruct Ht.
Qed.

Lemma advance_caps (k : nat) (st : cursor) : caps (advance k st) = caps st.
Proof. reflexivity. Qed.

Lemma exec_TAG_supported (l : str) (m : Regex.result) :
  exec TAG_LINE_PATTERN l = Some m ->
  isSupportedTag (toLowerCase (orEmpty (group 1 m))) = true.
Proof.
  intros H. apply exec_TAG_Some in H as (st' & Hin & Hg).
  apply In_tagLineBody in Hin as (k & s5 & Hk & H5 & Hb & Ht).
  apply In_tagTail in Ht as (j & Hj & Hone & ->).
  unfold tagHead in H5.
  apply In_run_Seq in H5 as (s2 & H2 & H5).
  apply In_run_Seq in H5 as (s3 & H3 & H5).
  apply In_run_Seq in H5 as (s4 & H4 & H5).
  apply In_run_tagGroup in H5 as (w & Hw & Hsup).
  unfold group. rewrite Hg. cbn [caps lookup Nat.eqb]. rewrite Hw.
  cbn [lookup Nat.eqb orEmpty]. exact Hsup.
Qed.

Lemma tokenizeLine_lineTag (st : tokenizer) (rawLine : str) :
  map tag (blocks (flush (tokenizeLine st rawLine)))
  = map tag (blocks (flush st)) ++ optionList (lineTag rawLine).
Proof.
  unfold lineTag.
  destruct (exec TAG_LINE_PATTERN (normalizeJavadocLine rawLine)) as [m|] eqn:E.
  - rewrite (tokenizeLine_tag st rawLine m E), (exec_TAG_supported _ _ E).
    unfold flush at 1. cbn [activeTag blocks]. rewrite map_app. reflexivity.
  - rewrite (tokenizeLine_text st rawLine E). cbn [optionList].
    rewrite app_nil_r. unfold flush.
    destruct (activeTag st) eqn:Ha; cbn [activeTag blocks].
    + rewrite !map_app. reflexivity.
    + rewrite ?Ha. reflexivity.
Qed.

Lemma fold_tokenizeLine_lineTag (lines : list str) (st : tokenizer) :
  map tag (blocks (flush (fold_left tokenizeLine lines st)))
  = map tag (blocks (flush st))
    ++ flat_map (fun l => optionList (lineTag l)) lines.
Proof.
  revert st. induction lines as [|l lines IH]; intros st.
  - simpl. rewrite app_nil_r. reflexivity.
  - cbn [fold_left flat_map]. rewrite IH, tokenizeLine_lineTag, app_assoc.
    reflexivity.
Qed.

Lemma flush_tidy (st : tokenizer) : tidy st -> tidy (flush st).
Proof.
  intros [Hb Ha]. unfold flush. destruct (activeTag st) as [t|] eqn:Ht.
  - split; [|discriminate]. cbn [blocks]. apply Forall_app.
    split; [exact Hb|]. constructor; [|constructor].
    split; [apply Ha; reflexivity | apply trim_trimmed].
  - split; [exact Hb|]. rewrite Ht. discriminate.
Qed.

Lemma tokenizeLine_tidy (st : tokenizer) (rawLine : str) :
  tidy st -> tidy (tokenizeLine st rawLine).
Proof.
  intros Hst.
  destruct (exec TAG_LINE_PATTERN (normalizeJavadocLine rawLine)) as [m|] eqn:E.
  - rewrite (tokenizeLine_tag st rawLine m E), (exec_TAG_supported _ _ E).
    destruct (flush_tidy st Hst) as [Hb _]. split; [exact Hb|].
    cbn [activeTag]. intros t Ht. inversion Ht; subst.
    apply (exec_TAG_supported _ _ E).
  - rewrite (tokenizeLine_text st rawLine E).
    destruct (activeTag st) eqn:Ha; [|exact Hst].
    destruct Hst as [Hb Hact]. split; [exact Hb|]. cbn [activeTag].
    intros t Ht. apply Hact. rewrite Ha. exact Ht.
Qed.

(** X11: the tags of the blocks are the tags of the tag lines of the
    text, in order: every line that the tag pattern matches opens one
    block and no other line does.  Every block has a supported tag and
    a content without white space at either end. *)
Theorem X11_tokenizeTagBlocks_one_block_per_tag_line (rawTags : str) :
  map tag (tokenizeTagBlocks rawTags)
  = flat_map (fun l => optionList (lineTag l)) (split lineBreak rawTags)
  /\ Forall (fun b => isSupportedTag (tag b) = true /\ trimmed (content b))
            (tokenizeTagBlocks rawTags).
Proof.
  unfold tokenizeTagBlocks. split.
  - rewrite fold_tokenizeLine_lineTag. reflexivity.
  - apply flush_tidy.
    assert (forall lines st, tidy st -> tidy (fold_left tokenizeLine lines st))
      as Hfold.
    { induction lines as [|l lines IH]; intros st Hst; [exact Hst|].
      apply IH, tokenizeLine_tidy, Hst. }
    apply Hfold. split; [constructor | discriminate].
Qed.

(** ** The Tag Table, field by field *)

Lemma lastOf_app {A : Type} (l : list A) (x : A) : lastOf (l ++ [x]) = Some x.
Proof.
  induction l as [|a l IH]; [reflexivity|]. simpl. rewrite IH. reflexivity.
Qed.

Lemma withTag_snoc (names : list String.string) (bs : list ParsedTagBlock)
      (b : ParsedTagBlock) :
  withTag names (bs ++ [b])
  = withTag names bs
    ++ (if existsb (fun n : String.string => Js.eqb (tag b) n) names
        then [b] else []).
Proof. unfold withTag. rewrite filter_app. reflexivity. Qed.

Lemma lastOf_withTag_snoc (names : list String.string)
      (bs : list ParsedTagBlock) (b : ParsedTagBlock) :
  lastOf (withTag names (bs ++ [b]))
  = if existsb (fun n : String.string => Js.eqb (tag b) n) names
    then Some b else lastOf (withTag names bs).
Proof.
  rewrite withTag_snoc.
  destruct (existsb _ names);
    [apply lastOf_app | rewrite app_nil_r; reflexivity].
Qed.

Lemma applyBlock_tableOf (paramTypes : JsMap.t str) (returnType : str)
      (bs : list ParsedTagBlock) (b : ParsedTagBlock) :
  applyBlock paramTypes returnType (tableOf paramTypes returnType bs) b
  = tableOf paramTypes returnType (bs ++ [b]).
Proof.
  unfold tableOf, lastContent.
  rewrite !lastOf_withTag_snoc, !withTag_snoc, !flat_map_app, !map_app,
    !filter_app.
  unfold applyBlock. destruct b as [tg ct]. cbn [tag content existsb].
  destruct (Js.eqb tg "param") eqn:E1;
    [apply eqb_eq in E1; subst tg; cbn -[trim parseParamTag parseThrowsTag];
     destruct (parseParamTag (trim ct) paramTypes);
     cbn -[trim]; rewrite ?app_nil_r; reflexivity|].
  destruct (Js.eqb tg "return") eqn:E2;
    [apply eqb_eq in E2; subst tg; cbn -[trim parseParamTag parseThrowsTag];
     match goal with
     | |- context [Js.eqb returnType ?x] => destruct (Js.eqb returnType x)
     end;
     cbn -[trim]; rewrite ?app_nil_r; reflexivity|].
  destruct (Js.eqb tg "returns") eqn:E3;
    [apply eqb_eq in E3; subst tg; cbn -[trim parseParamTag parseThrowsTag];
     match goal with
     | |- context [Js.eqb returnType ?x] => destruct (Js.eqb returnType x)
     end;
     cbn -[trim]; rewrite ?app_nil_r; reflexivity|].
  destruct (Js.eqb tg "throws") eqn:E4;
    [apply eqb_eq in E4; subst tg; cbn -[trim parseParamTag parseThrowsTag];
     destruct (parseThrowsTag (trim ct));
     cbn -[trim]; rewrite ?app_nil_r; reflexivity|].
  destruct (Js.eqb tg "exception") eqn:E5;
    [apply eqb_eq in E5; subst tg; cbn -[trim parseParamTag parseThrowsTag];
     destruct (parseThrowsTag (trim ct));
     cbn -[trim]; rewrite ?app_nil_r; reflexivity|].
  destruct (Js.eqb tg "since") eqn:E6;
    [apply eqb_eq in E6; subst tg; cbn -[trim parseParamTag parseThrowsTag];
     rewrite ?app_nil_r; reflexivity|].
  destruct (Js.eqb tg "author") eqn:E7;
    [apply eqb_eq in E7; subst tg; cbn -[trim parseParamTag parseThrowsTag];
     rewrite ?app_nil_r; reflexivity|].
  destruct (Js.eqb tg "deprecated") eqn:E8;
    [apply eqb_eq in E8; subst tg; cbn -[trim parseParamTag parseThrowsTag];
     rewrite ?app_nil_r; reflexivity|].
  destruct (Js.eqb tg "see") eqn:E9;
    [apply eqb_eq in E9; subst tg; cbn -[trim parseParamTag parseThrowsTag];
     destruct (trim ct); cbn -[trim]; rewrite ?app_nil_r; reflexivity|].
  destruct (Js.eqb tg "doc") eqn:E10;
    [apply eqb_eq in E10; subst tg; cbn -[trim parseParamTag parseThrowsTag];
     rewrite ?app_nil_r; reflexivity|].
  destruct (Js.eqb tg "example") eqn:E11;
    [apply eqb_eq in E11; subst tg; cbn -[trim parseParamTag parseThrowsTag];
     rewrite ?app_nil_r; reflexivity|].
  cbn -[trim parseParamTag parseThrowsTag]. rewrite ?app_nil_r. reflexivity.
Qed.

Lemma fold_applyBlock_tableOf (paramTypes : JsMap.t str) (returnType : str)
      (bs done : list ParsedTagBlock) :
  fold_left (applyBlock paramTypes returnType) bs
            (tableOf paramTypes returnType done)
  = tableOf paramTypes returnType (done ++ bs).
Proof.
  revert done. induction bs as [|b bs IH]; intros done.
  - rewrite app_nil_r. reflexivity.
  - cbn [fold_left]. rewrite applyBlock_tableOf, IH, <- app_assoc.
    reflexivity.
Qed.

Lemma tableOf_nil (paramTypes : JsMap.t str) (returnType : str) :
  tableOf paramTypes returnType [] = createEmptyTagTable.
Proof.
  unfold tableOf, lastContent. cbn [withTag filter flat_map map lastOf option_map].
  destruct (Js.eqb returnType "void"); reflexivity.
Qed.

(** X12: the fields of the Tag Table are read off the blocks one tag at
    a time.  The parameters, the exceptions and the references are
    those of their blocks that parse, in the order of the text; the
    return tag, when the return type is not ["void"], and each tag kept
    once come from the last of their blocks, and a last block without
    content leaves the tag unset. *)
Theorem X12_parseTagTable_field_by_field (rawTags signature : str) :
  parseTagTable rawTags signature
  = tableOf (parseSignatureParams signature) (parseReturnType signature)
            (tokenizeTagBlocks rawTags).
Proof.
  unfold parseTagTable.
  destruct (negb (truthy (trim rawTags))) eqn:E.
  - rewrite tokenizeTagBlocks_blank, tableOf_nil; [reflexivity|].
    destruct (trim rawTags); [reflexivity | discriminate E].
  - cbv zeta. destruct (tokenizeTagBlocks rawTags) as [|b bs] eqn:Hb.
    + rewrite tableOf_nil. reflexivity.
    + rewrite <- tableOf_nil
        with (paramTypes := parseSignatureParams signature)
             (returnType := parseReturnType signature).
      rewrite fold_applyBlock_tableOf. reflexivity.
Qed.

(** ** The class of a file *)

(** X13: [findClassSymbol] returns a class-like symbol of the list, and
    one named like the file whenever the list has one; it returns
    nothing only for a list without class-like symbols. *)
Theorem X13_findClassSymbol_prefers_file_name
        (baseNameOf : str -> str) (symbols_ : list DocumentSymbol)
        (filePath_ : str) :
  match findClassSymbol baseNameOf symbols_ filePath_ with
  | Some found =>
      In found symbols_ /\ isClassLikeSymbol found = true
      /\ ((exists s, In s symbols_ /\ isClassLikeSymbol s = true
                     /\ sym_name s = baseNameOf filePath_) ->
          sym_name found = baseNameOf filePath_)
  | None => forall s, In s symbols_ -> isClassLikeSymbol s = false
  end.
Proof.
  unfold findClassSymbol.
  destruct (filter isClassLikeSymbol symbols_) as [|firstClass others] eqn:E.
  - intros s Hs. destruct (isClassLikeSymbol s) eqn:Hc; [|reflexivity].
    assert (In s (filter isClassLikeSymbol symbols_)) as Hin
        by (apply filter_In; auto).
    rewrite E in Hin. destruct Hin.
  - destruct (find (fun s => Js.eqb (sym_name s) (baseNameOf filePath_))
                   (firstClass :: others)) as [matched|] eqn:F.
    + apply find_some in F as [Hin Hname]. rewrite <- E in Hin.
      apply filter_In in Hin as [Hin Hc]. apply eqb_eq in Hname. auto.
    + assert (In firstClass (filter isClassLikeSymbol symbols_)) as Hin
          by (rewrite E; left; reflexivity).
      apply filter_In in Hin as [Hin Hc]. repeat split; auto.
      intros (s & Hs & Hsc & Hsn). exfalso.
      assert (In s (firstClass :: others)) as Hs'
          by (rewrite <- E; apply filter_In; auto).
      pose proof (find_none _ _ F s Hs') as Hno. cbv beta in Hno.
      rewrite Hsn, eqb_refl in Hno. discriminate.
Qed.

Lemma X13_witness_second_class_named_like_file :
  findClassSymbol (fun _ => lit "Main")
                  [plainSymbol "Helper" Class []; plainSymbol "Main" Class []]
                  "Main.java"
  = Some (plainSymbol "Main" Class [])
  /\ sym_name (plainSymbol "Main" Class []) = lit "Main".
Proof.
  split; [reflexivity|].
  apply (X13_findClassSymbol_prefers_file_name
           (fun _ => lit "Main")
           [plainSymbol "Helper" Class []; plainSymbol "Main" Class []]
           "Main.java").
  exists (plainSymbol "Main" Class []).
  split; [right; left; reflexivity|]. split; reflexivity.
Defined.

(** ** The lists of a document model *)

Lemma ascending_cons (a b : nat) (ks : list nat) :
  ascending (a :: b :: ks) = (a <=? b) && ascending (b :: ks).
Proof. reflexivity. Qed.

Lemma ascending_insertBy {A : Type} (key : A -> nat) (x : A) (l : list A) :
  ascending (map key l) = true -> ascending (map key (insertBy key x l)) = true.
Proof.
  induction l as [|y l IH]; intros H; [reflexivity|].
  cbn [insertBy]. destruct (key x <=? key y) eqn:E.
  - cbn [map] in *. rewrite ascending_cons, E, H. reflexivity.
  - apply Nat.leb_gt in E.
    destruct l as [|z l].
    + cbn [insertBy map]. rewrite ascending_cons, andb_true_r.
      apply Nat.leb_le. lia.
    + cbn [map] in H. rewrite ascending_cons in H.
      apply andb_prop in H as [Hyz Hl]. specialize (IH Hl).
      cbn [insertBy] in IH |- *. destruct (key x <=? key z) eqn:E2.
      * cbn [map] in IH |- *. rewrite ascending_cons, IH, andb_true_r.
        apply Nat.leb_le. lia.
      * cbn [map] in IH |- *. rewrite ascending_cons, IH, andb_true_r.
        exact Hyz.
Qed.

Lemma ascending_sortBy {A : Type} (key : A -> nat) (l : list A) :
  ascending (map key (sortBy key l)) = true.
Proof.
  induction l as [|x l IH]; [reflexivity|].
  apply ascending_insertBy, IH.
Qed.

Lemma length_insertBy {A : Type} (key : A -> nat) (x : A) (l : list A) :
  length (insertBy key x l) = S (length l).
Proof.
  induction l as [|y l IH]; [reflexivity|]. cbn [insertBy].
  destruct (key x <=? key y); cbn [length]; [|rewrite IH]; reflexivity.
Qed.

Lemma length_sortBy {A : Type} (key : A -> nat) (l : list A) :
  length (sortBy key l) = length l.
Proof.
  induction l as [|x l IH]; [reflexivity|].
  unfold sortBy in *. cbn [fold_right length].
  rewrite length_insertBy, IH. reflexivity.
Qed.

(** X14: the three lists of the document model that [parse] returns
    are in ascending order of start line, whatever the order of the
    symbols and whichever declarations fail. *)
Theorem X14_parse_lists_ascend
        (baseNameOf : str -> str) (fault : FlattenedSymbol -> option str)
        (text filePath_ : str) (symbols_ : list DocumentSymbol)
        (gitInfo_ : option GitAuthorInfo) :
  let doc := fst (parse baseNameOf fault text filePath_ symbols_ gitInfo_) in
  ascending (map startLine (methods doc)) = true
  /\ ascending (map field_startLine (fields doc)) = true
  /\ ascending (map enum_startLine (enumConstants doc)) = true.
Proof.
  cbv zeta. unfold parse. cbv zeta.
  destruct (parseClassJavadoc _) as [author_ since_].
  destruct (parseAll isMethodSymbol _ _) as [methods_ log1].
  destruct (parseAll isFieldSymbol _ _) as [fields_ log2].
  destruct (parseAll isEnumMemberSymbol _ _) as [enumConstants_ log3].
  cbn [fst methods fields enumConstants].
  repeat split; apply ascending_sortBy.
Qed.

(** ** Every declaration is accounted for *)

Lemma filter_split_length {A : Type} (f g : A -> bool) (l : list A) :
  length (filter (fun x => f x && negb (g x)) l)
  + length (filter (fun x => f x && g x) l)
  = length (filter f l).
Proof.
  induction l as [|x l IH]; [reflexivity|]. simpl.
  destruct (f x), (g x); simpl; lia.
Qed.

Lemma kinds_exclusive (s : DocumentSymbol) :
  isMethodSymbol s || isFieldSymbol s || isEnumMemberSymbol s = true ->
  (if isMethodSymbol s then 1 else 0) + (if isFieldSymbol s then 1 else 0)
  + (if isEnumMemberSymbol s then 1 else 0) = 1.
Proof.
  unfold isMethodSymbol, isFieldSymbol, isEnumMemberSymbol.
  destruct (sym_kind s); simpl; intros H; try reflexivity; discriminate H.
Qed.

Lemma flattenSymbol_leaves (s : DocumentSymbol) :
  forall parentName fs,
    In fs (flattenSymbol parentName s) ->
    isMethodSymbol (symbol fs) || isFieldSymbol (symbol fs)
    || isEnumMemberSymbol (symbol fs) = true.
Proof.
  induction s as [n d k r sr children IH] using DocumentSymbol_tree_ind.
  intros parentName fs. cbn [flattenSymbol].
  destruct (isClassLikeSymbol (mkDocumentSymbol n d k r sr children)).
  - destruct (0 <? length children); [|intros []].
    intros H. apply in_flat_map in H as (c & Hc & H).
    rewrite Forall_forall in IH. apply (IH c Hc _ _ H).
  - destruct (isMethodSymbol _ || isFieldSymbol _ || isEnumMemberSymbol _)
      eqn:E; [|intros []].
    intros [<-|[]]. exact E.
Qed.

Lemma categories_partition (l : list FlattenedSymbol) :
  (forall fs, In fs l ->
              isMethodSymbol (symbol fs) || isFieldSymbol (symbol fs)
              || isEnumMemberSymbol (symbol fs) = true) ->
  length (filter (fun fs => isMethodSymbol (symbol fs)) l)
  + length (filter (fun fs => isFieldSymbol (symbol fs)) l)
  + length (filter (fun fs => isEnumMemberSymbol (symbol fs)) l)
  = length l.
Proof.
  induction l as [|fs l IH]; intros H; [reflexivity|].
  pose proof (kinds_exclusive (symbol fs) (H fs (or_introl eq_refl))) as Hk.
  specialize (IH (fun x Hx => H x (or_intror Hx))).
  cbn [filter].
  destruct (isMethodSymbol (symbol fs)), (isFieldSymbol (symbol fs)),
    (isEnumMemberSymbol (symbol fs)); cbn [length] in *; lia.
Qed.

(** X15: [parse] accounts for every declaration that the flattening
    lists: each one is in exactly one of the three lists of the
    document model or, when its extraction failed, in one line of the
    console. *)
Theorem X15_parse_accounts_for_every_declaration
        (baseNameOf : str -> str) (fault : FlattenedSymbol -> option str)
        (text filePath_ : str) (symbols_ : list DocumentSymbol)
        (gitInfo_ : option GitAuthorInfo) :
  let result := parse baseNameOf fault text filePath_ symbols_ gitInfo_ in
  length (methods (fst result)) + length (fields (fst result))
  + length (enumConstants (fst result)) + length (snd result)
  = length (flattenSymbols symbols_ []).
Proof.
  cbv zeta. unfold parse. cbv zeta.
  destruct (parseClassJavadoc _) as [author_ since_].
  unfold parseMethod, parseField, parseEnumConstant.
  rewrite !parseAll_tryCatch. cbn [fst snd methods fields enumConstants].
  rewrite !length_sortBy, !length_app, !length_map.
  set (flat := flattenSymbols symbols_ []).
  unfold parsedOf, failedOf.
  pose proof (filter_split_length (fun fs => isMethodSymbol (symbol fs))
                                  (faulty fault) flat) as H1.
  pose proof (filter_split_length (fun fs => isFieldSymbol (symbol fs))
                                  (faulty fault) flat) as H2.
  pose proof (filter_split_length (fun fs => isEnumMemberSymbol (symbol fs))
                                  (faulty fault) flat) as H3.
  assert (length (filter (fun fs => isMethodSymbol (symbol fs)) flat)
          + length (filter (fun fs => isFieldSymbol (symbol fs)) flat)
          + length (filter (fun fs => isEnumMemberSymbol (symbol fs)) flat)
          = length flat) as Hp.
  { apply categories_partition. intros fs Hfs. unfold flat, flattenSymbols in Hfs.
    apply in_flat_map in Hfs as (s & _ & Hfs).
    apply (flattenSymbol_leaves s _ _ Hfs). }
  lia.
Qed.

(** ** Searching for a match *)

Lemma cursorAt_S (bef : str) (c : ascii) (s : str) (k : nat) :
  cursorAt bef (c :: s) (S k) = cursorAt (c :: bef) s k.
Proof.
  unfold cursorAt. cbn [firstn skipn rev]. rewrite <- app_assoc. reflexivity.
Qed.

(** The search reports the first position at which the pattern matches
    and, there, the match the matcher tries first. *)
Lemma scan_Some (r : regex) (s bef : str) (m : Regex.result) :
  scan r bef s = Some m ->
  exists k st' others,
    k <= length s
    /\ run r (cursorAt bef s k) = st' :: others
    /\ (forall j, j < k -> run r (cursorAt bef s j) = [])
    /\ index m = length bef + k
    /\ matched m = firstn (length (skipn k s) - length (rest st')) (skipn k s)
    /\ groups m = caps st'.
Proof.
  revert bef. induction s as [|c s IH]; intros bef H.
  - cbn [scan] in H. destruct (run r (mkCursor bef [] [])) as [|st' tl] eqn:E;
      [discriminate|].
    inversion H; subst. exists 0, st', tl. cbn [index matched groups].
    repeat split; auto; try lia; try (intros j Hj; lia).
  - cbn [scan] in H.
    destruct (run r (mkCursor bef (c :: s) [])) as [|st' tl] eqn:E.
    + destruct (IH _ H) as (k & st' & tl & Hk & Hrun & Hmin & Hi & Hm & Hg).
      exists (S k), st', tl. rewrite cursorAt_S. repeat split; auto.
      * simpl. lia.
      * intros j Hj. destruct j as [|j]; [exact E|].
        rewrite cursorAt_S. apply Hmin. lia.
      * rewrite Hi. simpl. lia.
    + inversion H; subst. exists 0, st', tl. cbn [index matched groups].
      repeat split; auto; try lia; try (intros j Hj; lia); simpl; lia.
Qed.

Lemma scan_None (r : regex) (s bef : str) :
  scan r bef s = None ->
  forall k, k <= length s -> run r (cursorAt bef s k) = [].
Proof.
  revert bef. induction s as [|c s IH]; intros bef H k Hk.
  - cbn [scan] in H. destruct (run r (mkCursor bef [] [])) eqn:E;
      [|discriminate].
    simpl in Hk. assert (k = 0) as -> by lia. exact E.
  - cbn [scan] in H.
    destruct (run r (mkCursor bef (c :: s) [])) eqn:E; [|discriminate].
    destruct k as [|k]; [exact E|].
    rewrite cursorAt_S. apply IH; [exact H | simpl in Hk; lia].
Qed.

Lemma scan_found (r : regex) (s bef : str) (k : nat) :
  k <= length s -> run r (cursorAt bef s k) <> [] ->
  exists m, scan r bef s = Some m.
Proof.
  intros Hk Hrun. destruct (scan r bef s) as [m|] eqn:E; [eauto|].
  exfalso. apply Hrun. apply (scan_None r s bef E k Hk).
Qed.

(** What a match covers is what was consumed. *)
Lemma consumed_firstn (st st' : cursor) :
  consumes st st' ->
  rest st
  = firstn (length (rest st) - length (rest st')) (rest st) ++ rest st'.
Proof.
  intros (c & Hc & _). rewrite Hc at 2 3. rewrite length_app.
  replace (length c + length (rest st') - length (rest st'))
    with (length c) by lia.
  rewrite firstn_app, Nat.sub_diag, firstn_all. simpl.
  rewrite app_nil_r. exact Hc.
Qed.

(** [exec] in one statement: the text before the match, the match and
    the text after it. *)
Lemma exec_Some (r : regex) (s : str) (m : Regex.result) :
  exec r s = Some m ->
  exists st' others,
    index m <= length s
    /\ run r (cursorAt [] s (index m)) = st' :: others
    /\ (forall j, j < index m -> run r (cursorAt [] s j) = [])
    /\ s = firstn (index m) s ++ matched m ++ rest st'
    /\ groups m = caps st'.
Proof.
  unfold exec. intros H.
  destruct (scan_Some r s [] m H) as (k & st' & tl & Hk & Hrun & Hmin & Hi
                                       & Hm & Hg).
  simpl in Hi. subst k. exists st', tl. repeat split; auto.
  rewrite Hm.
  assert (consumes (cursorAt [] s (index m)) st') as Hc.
  { apply (run_consumes r). rewrite Hrun. left. reflexivity. }
  apply consumed_firstn in Hc. cbn [cursorAt rest] in Hc.
  rewrite <- Hc. symmetry. apply firstn_skipn.
Qed.

Lemma replace_Some (r : regex) (s : str) (m : Regex.result) :
  exec r s = Some m ->
  exists st',
    In st' (run r (cursorAt [] s (index m)))
    /\ s = firstn (index m) s ++ matched m ++ rest st'
    /\ replace r [] s = firstn (index m) s ++ rest st'.
Proof.
  intros H. destruct (exec_Some r s m H) as (st' & tl & Hk & Hrun & _ & Hs & _).
  exists st'. split; [rewrite Hrun; left; reflexivity|]. split; [exact Hs|].
  unfold replace. rewrite H. cbn [app]. f_equal.
  rewrite Hs at 1. rewrite skipn_app, skipn_all2, app_nil_l.
  - rewrite length_firstn, Nat.min_l by exact Hk.
    replace (index m + length (matched m) - index m)
      with (length (matched m)) by lia.
    rewrite skipn_app, Nat.sub_diag, skipn_all. reflexivity.
  - rewrite length_firstn. lia.
Qed.

(** ** The arguments of an enum constant *)

Lemma startsWith_char (x : ascii) (s : str) :
  startsWith s [x] = true <-> exists t, s = x :: t.
Proof.
  destruct s as [|c s]; cbn [startsWith].
  - split; [discriminate | intros [t H]; discriminate].
  - rewrite startsWith_nil, andb_true_r, Ascii.eqb_eq. split.
    + intros ->. eauto.
    + intros [t H]. inversion H. reflexivity.
Qed.

Lemma indexOf_char (x : ascii) (s : str) :
  match indexOf s [x] with
  | Some i => (exists t, skipn i s = x :: t) /\ ~ In x (firstn i s)
  | None => ~ In x s
  end.
Proof.
  induction s as [|c s IH]; [simpl; auto|].
  cbn [indexOf]. destruct (startsWith (c :: s) [x]) eqn:E.
  - apply startsWith_char in E as [t E]. inversion E; subst.
    split; [exists t; reflexivity | intros []].
  - assert (c <> x) as Hc.
    { intros ->. assert (startsWith (x :: s) [x] = true) as Ht
          by (apply startsWith_char; eauto). congruence. }
    destruct (indexOf s [x]) as [i|]; cbn [option_map].
    + destruct IH as [[t Ht] Hno]. split; [exists t; exact Ht|].
      cbn [firstn]. intros [H|H]; [congruence | auto].
    + intros [H|H]; [congruence | auto].
Qed.

Lemma closingParenFrom_findMatchingFrom (s : str) (i : nat) (depth : Z) :
  closingParenFrom s i depth = findMatchingFrom s i depth "(" ")".
Proof.
  revert i depth. induction s as [|c s IH]; intros i depth; [reflexivity|].
  cbn [closingParenFrom findMatchingFrom]. rewrite !IH. reflexivity.
Qed.

Lemma firstn_S_nth {A : Type} (l : list A) (n : nat) (x : A) :
  nth_error l n = Some x -> firstn (S n) l = firstn n l ++ [x].
Proof.
  revert n. induction l as [|a l IH]; intros n H; [destruct n; discriminate|].
  destruct n as [|n]; [inversion H; reflexivity|].
  cbn [firstn app]. f_equal. apply IH. exact H.
Qed.

Lemma balance_app (o c : ascii) (a b : str) :
  balance o c (a ++ b) = (balance o c a + balance o c b)%Z.
Proof.
  induction a as [|x a IH]; [reflexivity|]. cbn [app balance].
  rewrite IH. lia.
Qed.

(** X16: [extractEnumArguments] returns nothing for a line without an
    opening parenthesis.  Otherwise it returns a text of the line that
    starts at its first opening parenthesis; when that parenthesis is
    closed on the line, the text ends with the parenthesis that closes
    it, and its parentheses balance. *)
Theorem X16_extractEnumArguments_from_first_parenthesis (lineText : str) :
  match indexOf lineText "(" with
  | None => extractEnumArguments lineText = []
  | Some openIndex =>
      startsWith (extractEnumArguments lineText) "(" = true
      /\ (exists after,
             sliceFrom lineText openIndex
             = extractEnumArguments lineText ++ after)
      /\ ((exists i, closesAt lineText openIndex "(" ")" i) ->
          endsWith (extractEnumArguments lineText) ")" = true
          /\ balance "(" ")" (extractEnumArguments lineText) = 0%Z)
  end.
Proof.
  unfold extractEnumArguments.
  pose proof (indexOf_char "(" lineText) as Hidx.
  change (indexOf lineText [ "("%char ]) with (indexOf lineText "(") in Hidx.
  destruct (indexOf lineText "(") as [openIndex|]; [|reflexivity].
  destruct Hidx as [[t Ht] _].
  rewrite closingParenFrom_findMatchingFrom.
  pose proof (findMatchingIndex_least lineText openIndex "(" ")"
                ltac:(discriminate)) as Hmatch.
  unfold findMatchingIndex in Hmatch.
  destruct (findMatchingFrom (skipn openIndex lineText) openIndex 0 "(" ")")
    as [i|].
  - destruct Hmatch as [(Hle & Hnth & Hbal) _].
    assert (nth_error (skipn openIndex lineText) (i - openIndex)
            = Some ")"%char) as Hnth'.
    { rewrite nth_error_skipn. replace (openIndex + (i - openIndex)) with i
        by lia. exact Hnth. }
    assert (i <> openIndex) as Hne.
    { intros ->. rewrite Nat.sub_diag, Ht in Hnth'. discriminate. }
    unfold slice in *. replace (i + 1 - openIndex) with (S (i - openIndex))
      in * by lia.
    rewrite (firstn_S_nth _ _ _ Hnth') in *.
    split; [|split].
    + rewrite Ht. destruct (i - openIndex) eqn:E; [lia|].
      apply startsWith_char. cbn [firstn app]. eauto.
    + exists (skipn (S (i - openIndex)) (skipn openIndex lineText)).
      rewrite <- (firstn_S_nth _ _ _ Hnth'). symmetry. apply firstn_skipn.
    + intros _. split; [|exact Hbal].
      unfold endsWith. rewrite rev_app_distr. apply startsWith_char.
      cbn [rev app]. eauto.
  - set (s := sliceFrom lineText openIndex).
    assert (s = "("%char :: t) as Hs by exact Ht.
    set (r := seqs _).
    destruct (exec r s) as [m|] eqn:E.
    + destruct (replace_Some r s m E) as (st' & Hin & Hsm & ->).
      unfold r in Hin. cbn [seqs] in Hin.
      apply In_run_Seq in Hin as (s1 & H1 & Hin).
      apply In_run_Seq in Hin as (s2 & H2 & Hin).
      apply In_run_Eol in Hin as [Hend ->]. rewrite Hend, app_nil_r.
      assert (index m <> 0) as Hpos.
      { intros Hz. rewrite Hz in H1.
        apply In_run_Cls in H1 as (c & s' & Hrest & Hc & _).
        unfold cursorAt in Hrest. cbn [skipn rest] in Hrest.
        rewrite Hs in Hrest. inversion Hrest; subst c. discriminate Hc. }
      split; [|split].
      * rewrite Hs. destruct (index m); [congruence|].
        apply startsWith_char. cbn [firstn]. eauto.
      * exists (skipn (index m) s). symmetry. apply firstn_skipn.
      * intros [i Hi]. exfalso. apply (Hmatch i Hi).
    + unfold replace. rewrite E. split; [|split].
      * rewrite Hs. apply startsWith_char. eauto.
      * exists []. rewrite app_nil_r. reflexivity.
      * intros [i Hi]. exfalso. apply (Hmatch i Hi).
Qed.

(** ** The code of a line *)





(** ** The comment above a declaration *)

Lemma findOpening_spec (lines : list str) (endLine_ : nat) :
  forall startLine_ comment,
    findOpening lines endLine_ startLine_ = Some comment ->
    exists first,
      first <= startLine_
      /\ comment = join [LF] (sliceLines lines first (endLine_ + 1))
      /\ includes (lineAt lines first) "/**" = true
      /\ forall j, first < j <= startLine_ ->
                   includes (lineAt lines j) "/**" = false
                   /\ (j <> endLine_ -> includes (lineAt lines j) "*/" = false).
Proof.
  induction startLine_ as [|above IH]; intros comment H; cbn [findOpening] in H.
  - destruct (includes (lineAt lines 0) "/**") eqn:E.
    + inversion H; subst. exists 0. repeat split; auto; intros; lia.
    + destruct (negb (0 =? endLine_) && includes (lineAt lines 0) "*/");
        discriminate.
  - destruct (includes (lineAt lines (S above)) "/**") eqn:E.
    + inversion H; subst. exists (S above). repeat split; auto; intros; lia.
    + destruct (negb (S above =? endLine_)
                && includes (lineAt lines (S above)) "*/") eqn:E2;
        [discriminate|].
      destruct (IH _ H) as (first & Hle & Hc & Hopen & Hbetween).
      exists first. split; [lia|]. split; [exact Hc|]. split; [exact Hopen|].
      intros j Hj. destruct (Nat.eq_dec j (S above)) as [->|Hne].
      * split; [exact E|]. intros Hne.
        apply Nat.eqb_neq in Hne. rewrite Hne in E2. exact E2.
      * apply Hbetween. lia.
Qed.

Lemma extractCommentFrom_shape (lines : list str) (targetLine : nat) :
  forall n, n <= targetLine ->
    extractCommentFrom lines targetLine n = []
    \/ exists first last,
        last < n
        /\ commentAbove lines targetLine first last
        /\ extractCommentFrom lines targetLine n
           = join [LF] (sliceLines lines first (last + 1)).
Proof.
  induction n as [|endLine_ IH]; intros Hn; [left; reflexivity|].
  assert (extractCommentFrom lines targetLine endLine_ = []
          \/ exists first last,
              last < S endLine_
              /\ commentAbove lines targetLine first last
              /\ extractCommentFrom lines targetLine endLine_
                 = join [LF] (sliceLines lines first (last + 1))) as Hrest.
  { destruct IH as [H|(first & last & Hl & Hc & H)]; [lia | left; exact H|].
    right. exists first, last. split; [lia | auto]. }
  cbn [extractCommentFrom].
  destruct (negb (truthy (trim (lineAt lines endLine_)))); [exact Hrest|].
  destruct (negb (endsWith (trim (lineAt lines endLine_)) "*/")) eqn:Eend;
    [exact Hrest|].
  destruct (negb (onlyBlankOrAnnotations
                    (sliceLines lines (endLine_ + 1) targetLine))) eqn:Eonly;
    [exact Hrest|].
  destruct (findOpening lines endLine_ endLine_) as [comment|] eqn:Eopen;
    [|exact Hrest].
  apply negb_false_iff in Eend, Eonly.
  destruct (findOpening_spec _ _ _ _ Eopen) as (first & Hle & -> & Hopen & Hb).
  right. exists first, endLine_. split; [lia|]. split; [|reflexivity].
  unfold commentAbove. repeat split; auto; try lia.
  - intros j Hj. apply (Hb j). lia.
  - intros j Hj. apply (Hb j); lia.
Qed.

(** X18: what [extractComment] returns is empty, or it is a run of
    lines of the text above the target line: a comment whose first line
    holds the opening token and whose last line ends with the closing
    token, separated from the target line by nothing but blank lines
    and annotations. *)
Theorem X18_extractComment_returns_comment_above (text : str) (targetLine : nat) :
  extractComment text targetLine = []
  \/ exists first last,
      commentAbove (splitOn LF text) targetLine first last
      /\ extractComment text targetLine
         = join [LF] (sliceLines (splitOn LF text) first (last + 1)).
Proof.
  unfold extractComment.
  destruct (extractCommentFrom_shape (splitOn LF text) targetLine targetLine
              (Nat.le_refl _)) as [H|(first & last & _ & Hc & H)];
    [left; exact H | right; eauto].
Qed.

(** ** Cache and lookups together *)

(** X19: a result cached for a document at a version is what the cache
    answers for that document at that version, and at no other
    version. *)
Theorem X19_cached_result_is_served_for_its_version
        (cacheKey : str) (v v' : Z) (symbols_ : list DocumentSymbol)
        (c : Cache) :
  fst (getCachedSymbols cacheKey v' (setCachedSymbols cacheKey v symbols_ c))
  = if (v =? v')%Z then Some symbols_ else None.
Proof.
  unfold getCachedSymbols, setCachedSymbols. rewrite get_set_same.
  cbn [version symbols]. destruct (v =? v')%Z; reflexivity.
Qed.











(** ** The first match *)

Lemma firstMatch_Seq (r1 r2 : regex) (st mid st' : cursor) :
  firstMatch r1 st = Some mid -> firstMatch r2 mid = Some st' ->
  firstMatch (Seq r1 r2) st = Some st'.
Proof.
  unfold firstMatch. cbn [run]. intros H1 H2.
  destruct (run r1 st) as [|x tl]; [discriminate|]. inversion H1; subst x.
  cbn [flat_map]. destruct (run r2 mid); [discriminate|]. exact H2.
Qed.

Lemma firstMatch_Seq_none (r1 r2 : regex) (st : cursor) :
  run r1 st = [] -> run (Seq r1 r2) st = [].
Proof. cbn [run]. intros ->. reflexivity. Qed.

Lemma countdown_head (n : nat) : hd_error (countdown n) = Some n.
Proof. destruct n; reflexivity. Qed.

Lemma firstMatch_Star_class (p : ascii -> bool) (st : cursor) :
  firstMatch (Star (Cls p)) st
  = Some (advance (spanLength p (rest st)) st).
Proof.
  unfold firstMatch. rewrite run_Star_class.
  destruct (spanLength p (rest st)); reflexivity.
Qed.

Lemma run_Plus_class_none (p : ascii -> bool) (st : cursor) :
  spanLength p (rest st) = 0 -> run (Plus (Cls p)) st = [].
Proof.
  intros H. unfold Plus. apply firstMatch_Seq_none. rewrite run_Cls.
  destruct (rest st) as [|c s]; [reflexivity|]. simpl in H.
  destruct (p c); [discriminate | reflexivity].
Qed.

Lemma firstMatch_Plus_class (p : ascii -> bool) (st : cursor) (n : nat) :
  spanLength p (rest st) = S n ->
  firstMatch (Plus (Cls p)) st = Some (advance (S n) st).
Proof.
  intros H. unfold Plus. destruct (rest st) as [|c s] eqn:Hrest;
    [discriminate|].
  simpl in H. destruct (p c) eqn:Hp; [|discriminate]. inversion H; subst n.
  apply firstMatch_Seq with (mid := mkCursor (c :: before st) s (caps st)).
  - unfold firstMatch. rewrite run_Cls, Hrest, Hp. reflexivity.
  - rewrite firstMatch_Star_class. cbn [rest].
    rewrite <- (advance_S _ st c s Hrest). reflexivity.
Qed.

Lemma firstMatch_Alt_right (r1 r2 : regex) (st : cursor) :
  run r1 st = [] -> firstMatch (Alt r1 r2) st = firstMatch r2 st.
Proof. unfold firstMatch. cbn [run]. intros ->. reflexivity. Qed.

Lemma firstMatch_Cls (p : ascii -> bool) (st : cursor) (c : ascii) (s : str) :
  rest st = c :: s -> p c = true ->
  firstMatch (Cls p) st = Some (mkCursor (c :: before st) s (caps st)).
Proof.
  intros Hrest Hp. unfold firstMatch. rewrite run_Cls, Hrest, Hp. reflexivity.
Qed.

(** One code unit of a class, then the longest run of another. *)
Lemma firstMatch_class_run (p q : ascii -> bool) (st : cursor) (c : ascii)
      (s : str) :
  rest st = c :: s -> p c = true ->
  firstMatch (Seq (Cls p) (Star (Cls q))) st
  = Some (advance (S (spanLength q s)) st).
Proof.
  intros Hrest Hp.
  apply firstMatch_Seq with (mid := mkCursor (c :: before st) s (caps st)).
  - apply firstMatch_Cls; assumption.
  - rewrite firstMatch_Star_class. cbn [rest].
    rewrite <- (advance_S _ st c s Hrest). reflexivity.
Qed.

Lemma firstMatch_Grp (n : nat) (r : regex) (st st1 : cursor) :
  firstMatch r st = Some st1 ->
  firstMatch (Grp n r) st
  = Some (capturing n
            (rev (firstn (length (before st1) - length (before st))
                         (before st1))) st1).
Proof.
  unfold firstMatch. cbn [run]. intros H.
  destruct (run r st) as [|x tl]; [discriminate|]. inversion H; subst x.
  reflexivity.
Qed.

Lemma firstMatch_Grp_advance (n k : nat) (r : regex) (st : cursor) :
  k <= length (rest st) ->
  firstMatch r st = Some (advance k st) ->
  firstMatch (Grp n r) st
  = Some (capturing n (firstn k (rest st)) (advance k st)).
Proof.
  intros Hk H. rewrite (firstMatch_Grp n r st _ H). f_equal. f_equal.
  unfold advance. cbn [before]. rewrite length_app, length_rev, length_firstn.
  rewrite Nat.min_l by exact Hk.
  replace (k + length (before st) - length (before st)) with k by lia.
  rewrite firstn_app, length_rev, length_firstn, Nat.min_l by exact Hk.
  rewrite Nat.sub_diag. cbn [firstn]. rewrite app_nil_r.
  rewrite firstn_all2 by (rewrite length_rev, length_firstn; lia).
  apply rev_involutive.
Qed.

Lemma firstMatch_Eol (st : cursor) :
  rest st = [] -> firstMatch Eol st = Some st.
Proof. unfold firstMatch. cbn [run]. intros ->. reflexivity. Qed.

Lemma exec_Bol_first (r : regex) (s : str) (st' : cursor) :
  firstMatch r (atStart s) = Some st' ->
  exec (Seq Bol r) s
  = Some (mkResult 0 (firstn (length s - length (rest st')) s) (caps st')).
Proof.
  unfold firstMatch. rewrite exec_Bol. intros H.
  destruct (run r (atStart s)) as [|x tl]; [discriminate|].
  inversion H; subst x. reflexivity.
Qed.

Lemma exec_Bol_none (r : regex) (s : str) :
  run r (atStart s) = [] -> exec (Seq Bol r) s = None.
Proof. rewrite exec_Bol. intros ->. reflexivity. Qed.

Lemma spanLength_true (s : str) : spanLength (fun _ => true) s = length s.
Proof. induction s as [|c s IH]; simpl; [|rewrite IH]; reflexivity. Qed.

(** The tail of the two tag patterns: white space, then the rest of the
    text as the second group. *)
Lemma firstMatch_description (st : cursor) :
  firstMatch (Seq (Star Space) (Seq (Grp 2 (Star Any)) Eol)) st
  = Some (capturing 2 (skipn (spanLength isSpace (rest st)) (rest st))
            (advance (length (rest st)) st)).
Proof.
  set (k := spanLength isSpace (rest st)).
  assert (k <= length (rest st)) as Hk by apply spanLength_le.
  eapply firstMatch_Seq; [apply firstMatch_Star_class|]. fold k.
  eapply firstMatch_Seq.
  - apply (firstMatch_Grp_advance 2 (length (rest (advance k st)))).
    + lia.
    + unfold Any. rewrite firstMatch_Star_class, spanLength_true. reflexivity.
  - rewrite firstn_all.
    assert (advance (length (rest (advance k st))) (advance k st)
            = advance (length (rest st)) st) as ->.
    { unfold advance. cbn [rest before caps]. f_equal.
      - rewrite !firstn_all, app_assoc, <- rev_app_distr, firstn_skipn.
        reflexivity.
      - rewrite !skipn_all. reflexivity. }
    cbn [advance rest]. apply firstMatch_Eol. cbn [capturing rest advance].
    apply skipn_all.
Qed.

(** ** The blocks of [@throws] and [@param] *)

Lemma throwsPattern_parts :
  throwsPattern
  = Seq Bol (Seq (Grp 1 (Plus (Cls isWordOrDot)))
                 (Seq (Star Space) (Seq (Grp 2 (Star Any)) Eol))).
Proof. reflexivity. Qed.

Lemma trim_after_spaces (s : str) :
  trim (skipn (spanLength isSpace s) s) = trim s.
Proof. apply trim_skipn. lia. Qed.

(** X22: [parseThrowsTag] reads the longest run of word characters and
    dots at the start of the content as the type and the rest, trimmed,
    as the description; a content that does not start with such a
    character is not parsed. *)
Theorem X22_parseThrowsTag_type_then_description (content : str) :
  parseThrowsTag content
  = match spanLength isWordOrDot content with
    | 0 => None
    | S n =>
        Some (mkThrowsTag (firstn (S n) content)
                          (trim (skipn (S n) content)))
    end.
Proof.
  unfold parseThrowsTag. rewrite throwsPattern_parts.
  destruct (spanLength isWordOrDot content) as [|n] eqn:Hn.
  - rewrite exec_Bol_none; [reflexivity|].
    apply firstMatch_Seq_none. cbn [run].
    change (run (Seq (Cls isWordOrDot) (Star (Cls isWordOrDot)))
                (atStart content))
      with (run (Plus (Cls isWordOrDot)) (atStart content)).
    rewrite run_Plus_class_none; [reflexivity | exact Hn].
  - assert (S n <= length content) as Hlen
        by (rewrite <- Hn; apply spanLength_le).
    erewrite exec_Bol_first.
    2:{ eapply firstMatch_Seq.
        - apply (firstMatch_Grp_advance 1 (S n)); [exact Hlen|].
          apply firstMatch_Plus_class. exact Hn.
        - apply firstMatch_description. }
    unfold group. cbn [groups caps capturing advance rest lookup Nat.eqb orEmpty].
    rewrite trim_after_spaces. reflexivity.
Qed.

Lemma paramPattern_parts :
  paramPattern
  = Seq Bol
      (Seq (Grp 1 (Alt (Seq (Chr "<")
                            (seqs [Star Space; Cls isIdentStart;
                                   Star (Cls isIdentPart); Star Space;
                                   Chr ">"]))
                       (Seq (Cls isIdentStart) (Star (Cls isIdentPart)))))
           (Seq (Star Space) (Seq (Grp 2 (Star Any)) Eol))).
Proof. reflexivity. Qed.

Lemma isIdentStart_not_angle (c : ascii) :
  isIdentStart c = true -> Ascii.eqb c "<" = false.
Proof. each_ascii c. Qed.

Lemma isIdentStart_not_space (c : ascii) :
  isIdentStart c = true -> isSpace c = false.
Proof. each_ascii c. Qed.

Lemma isIdentPart_not_space (c : ascii) :
  isIdentPart c = true -> isSpace c = false.
Proof. each_ascii c. Qed.

Lemma scan_none_intro (r : regex) (s bef : str) :
  (forall k, k <= length s -> run r (cursorAt bef s k) = []) ->
  scan r bef s = None.
Proof.
  revert bef. induction s as [|c s IH]; intros bef H.
  - cbn [scan]. rewrite (H 0 (Nat.le_refl _) : run r (mkCursor bef [] []) = []).
    reflexivity.
  - cbn [scan].
    rewrite (H 0 (Nat.le_0_l _) : run r (mkCursor bef (c :: s) []) = []).
    apply IH. intros k Hk. rewrite <- cursorAt_S. apply H. simpl. lia.
Qed.

(** A text without white space has no run of white space to replace. *)
Lemma replaceAll_spaces_none (repl s : str) :
  forallb (fun c => negb (isSpace c)) s = true ->
  replaceAll (Plus Space) repl s = s.
Proof.
  intros H. unfold replaceAll. cbn [replaceAllFrom].
  rewrite scan_none_intro; [reflexivity|].
  intros k Hk. apply run_Plus_class_none. unfold cursorAt. cbn [rest].
  rewrite <- (firstn_skipn k s), forallb_app in H.
  apply andb_prop in H as [_ H].
  destruct (skipn k s) as [|c t]; [reflexivity|]. simpl in H |- *.
  apply andb_prop in H as [Hc _]. apply negb_true_iff in Hc.
  rewrite Hc. reflexivity.
Qed.

Lemma forallb_impl {A : Type} (p q : A -> bool) (l : list A) :
  (forall x, p x = true -> q x = true) ->
  forallb p l = true -> forallb q l = true.
Proof.
  intros Hpq. induction l as [|a l IH]; [reflexivity|]. simpl.
  intros H. apply andb_prop in H as [Ha Hl].
  rewrite (Hpq a Ha), (IH Hl). reflexivity.
Qed.

(** X23: a content that starts with an identifier is parsed by
    [parseParamTag] into that identifier as the name, the longest one
    there is, the type the table of the signature has for it, or
    ["unknown"], and the rest of the content, trimmed, as the
    description. *)
Theorem X23_parseParamTag_name_then_description
        (c : ascii) (r : str) (paramTypes : JsMap.t str) :
  isIdentStart c = true ->
  parseParamTag (c :: r) paramTypes
  = Some (mkParamTag
            (c :: firstn (spanLength isIdentPart r) r)
            (match JsMap.get (c :: firstn (spanLength isIdentPart r) r)
                             paramTypes with
             | Some t => t
             | None => lit "unknown"
             end)
            (trim (skipn (spanLength isIdentPart r) r))).
Proof.
  intros Hc. unfold parseParamTag. rewrite paramPattern_parts.
  set (n := spanLength isIdentPart r).
  assert (n <= length r) as Hn by apply spanLength_le.
  erewrite exec_Bol_first.
  2:{ eapply firstMatch_Seq; [|apply firstMatch_description].
      apply (firstMatch_Grp_advance 1 (S n)); [simpl; lia|].
      rewrite firstMatch_Alt_right.
      - apply (firstMatch_class_run isIdentStart isIdentPart _ c r);
          [reflexivity | exact Hc].
      - apply firstMatch_Seq_none. unfold Chr. rewrite run_Cls.
        cbn [atStart rest]. unfold isChar. rewrite Ascii.eqb_sym.
        rewrite (isIdentStart_not_angle c Hc). reflexivity. }
  unfold group.
  cbn [groups caps capturing advance rest lookup Nat.eqb orEmpty atStart
       firstn skipn].
  rewrite trim_after_spaces.
  rewrite replaceAll_spaces_none.
  2:{ cbn [forallb]. rewrite (isIdentStart_not_space c Hc). cbn [negb andb].
      apply forallb_impl with (p := isIdentPart).
      - intros x Hx. rewrite (isIdentPart_not_space x Hx). reflexivity.
      - apply spanLength_firstn. fold n. lia. }
  assert (startsWith (c :: firstn n r) "<" = false) as ->.
  { destruct (startsWith (c :: firstn n r) "<") eqn:E; [|reflexivity].
    apply (startsWith_char "<") in E as [t E]. inversion E; subst c.
    discriminate Hc. }
  reflexivity.
Qed.

Lemma X23_witness_plain_name :
  isIdentStart "x" = true
  /\ parseParamTag "x the input" [(lit "x", lit "int")]
     = Some (mkParamTag "x" "int" "the input").
Proof.
  split; [reflexivity|].
  apply (X23_parseParamTag_name_then_description "x" " the input"
           [(lit "x", lit "int")]).
  reflexivity.
Defined.

(** ** The return type of a signature *)

Lemma returnTypePattern_parts :
  returnTypePattern
  = Seq Bol
      (Seq (Grp 1 (Seq (Cls isIdentStart) (StarLazy typeChar)))
           (Seq (Seq Space (Star Space))
                (Seq (Cls isIdentStart)
                     (Seq (Star (Cls isIdentPart))
                          (Seq (Star Space) (Chr "(")))))).
Proof. reflexivity. Qed.

Lemma In_run_Bol (st st' : cursor) :
  In st' (run Bol st) -> st' = st.
Proof.
  cbn [run]. destruct (before st); [intros [<-|[]]; reflexivity | intros []].
Qed.

Lemma consumes_In (st st' : cursor) (c : ascii) :
  consumes st st' -> In c (rest st') -> In c (rest st).
Proof.
  intros (x & Hx & _) H. rewrite Hx. apply in_or_app. right. exact H.
Qed.

Lemma firstn_through {A : Type} (a b : list A) (c : A) :
  firstn (S (length a)) (a ++ c :: b) = a ++ [c].
Proof.
  induction a as [|x a IH]; [reflexivity|]. cbn [length app firstn].
  f_equal. exact IH.
Qed.

(** What a match of the pattern captures and what it ends on. *)
Lemma returnTypePattern_match (st st' : cursor) :
  In st' (run returnTypePattern st) ->
  (exists c x, isIdentStart c = true /\ lookup 1 (caps st') = Some (c :: x))
  /\ In "("%char (rest st).
Proof.
  rewrite returnTypePattern_parts. intros H.
  apply In_run_Seq in H as (s0 & H0 & H). apply In_run_Bol in H0. subst s0.
  apply In_run_Seq in H as (s1 & H1 & H).
  apply In_run_Seq in H as (s2 & H2 & H).
  apply In_run_Seq in H as (s3 & H3 & H).
  apply In_run_Seq in H as (s4 & H4 & H).
  apply In_run_Seq in H as (s5 & H5 & H).
  assert (consumes st s5) as Hcons.
  { eapply consumes_trans; [eapply run_consumes; exact H1|].
    eapply consumes_trans; [eapply run_consumes; exact H2|].
    eapply consumes_trans; [eapply run_consumes; exact H3|].
    eapply consumes_trans; eapply run_consumes; eassumption. }
  apply In_run_Cls in H as (c6 & t6 & Hrest6 & Hc6 & ->).
  apply In_run_Star_class in H5 as (k5 & _ & ->).
  apply In_run_Star_class in H4 as (k4 & _ & ->).
  apply In_run_Seq in H2 as (s2a & H2a & H2b).
  apply In_run_Cls in H2a as (c2 & t2 & _ & _ & ->).
  apply In_run_Star_class in H2b as (k2 & _ & ->).
  apply In_run_Cls in H3 as (c3 & t3 & _ & _ & ->).
  apply In_run_Grp in H1 as (g & Hg & ->).
  apply In_run_Seq in Hg as (g0 & Hg0 & Hg1).
  apply In_run_Cls in Hg0 as (c & t & Hrest & Hc & ->).
  apply run_consumes in Hg1 as (x & Hx1 & Hx2). cbn [rest before] in Hx1, Hx2.
  split.
  - exists c, x. split; [exact Hc|].
    cbn [caps advance lookup Nat.eqb]. f_equal.
    rewrite Hx2.
    assert (length (rev x ++ c :: before st) - length (before st)
            = S (length (rev x))) as ->
        by (rewrite length_app; cbn [length]; lia).
    rewrite firstn_through, rev_app_distr, rev_involutive. reflexivity.
  - apply (consumes_In _ _ _ Hcons). rewrite Hrest6.
    apply Ascii.eqb_eq in Hc6. subst c6. left. reflexivity.
Qed.

Lemma exec_returnTypePattern (s : str) (m : Regex.result) :
  exec returnTypePattern s = Some m ->
  (exists c x, isIdentStart c = true /\ group 1 m = Some (c :: x))
  /\ In "("%char s.
Proof.
  intros H. destruct (exec_Some _ _ _ H) as (st' & tl & Hk & Hrun & _ & _ & Hg).
  assert (In st' (run returnTypePattern (cursorAt [] s (index m)))) as Hin
      by (rewrite Hrun; left; reflexivity).
  apply returnTypePattern_match in Hin as [Hcap Hparen]. split.
  - unfold group. rewrite Hg. exact Hcap.
  - cbn [cursorAt rest] in Hparen. rewrite <- (firstn_skipn (index m) s).
    apply in_or_app. right. exact Hparen.
Qed.

Lemma trim_head (c : ascii) (x : str) :
  isSpace c = false -> exists y, trim (c :: x) = c :: y.
Proof.
  intros Hc. unfold trim. cbn [trimStart]. rewrite Hc.
  unfold trimEnd. destruct (trimStart_spec (rev (c :: x))) as (ws & Hr & Hws).
  assert (rev (rev (c :: x)) = c :: x) as Hrr by apply rev_involutive.
  rewrite Hr, rev_app_distr in Hrr.
  destruct (rev (trimStart (rev (c :: x)))) as [|d y] eqn:E.
  - exfalso. cbn [app] in Hrr.
    assert (forallb isSpace (rev ws) = true) as Hall
        by (rewrite forallb_forall in *; intros a Ha; apply Hws, in_rev, Ha).
    rewrite Hrr in Hall. simpl in Hall. rewrite Hc in Hall. discriminate.
  - cbn [app] in Hrr. inversion Hrr; subst d. exists y. reflexivity.
Qed.

Lemma removeMethodGenericDecl_no_paren (signature : str) :
  ~ In "("%char signature -> removeMethodGenericDecl signature = signature.
Proof.
  intros H. unfold removeMethodGenericDecl.
  destruct (indexOf signature "<"); [|reflexivity].
  pose proof (indexOf_char "(" signature) as Hidx.
  change (indexOf signature [ "("%char ]) with (indexOf signature "(") in Hidx.
  destruct (indexOf signature "(") as [i|]; [|reflexivity].
  destruct Hidx as [[t Ht] _]. exfalso. apply H.
  rewrite <- (firstn_skipn i signature), Ht. apply in_or_app. right. left.
  reflexivity.
Qed.

(** X24: the return type that [parseReturnType] gives is never empty
    and has no white space at either end, and for a signature without
    an opening parenthesis it is ["void"]. *)
Theorem X24_parseReturnType_never_empty (signature : str) :
  parseReturnType signature <> []
  /\ trimmed (parseReturnType signature)
  /\ (In "("%char signature \/ parseReturnType signature = lit "void").
Proof.
  assert (lit "void" <> [] /\ trimmed (lit "void")) as [Hv1 Hv2]
      by (split; [discriminate | split; reflexivity]).
  unfold parseReturnType. cbv zeta.
  set (cleanSignature := trim (replace _ [] signature)).
  set (withoutModifiers := replace _ [] (removeMethodGenericDecl cleanSignature)).
  destruct (exec returnTypePattern withoutModifiers) as [m|] eqn:E;
    [|repeat split; auto; apply Hv2].
  destruct (exec_returnTypePattern _ _ E) as [(c & x & Hc & Hg) Hparen].
  rewrite Hg. cbn [truthy].
  destruct (trim_head c x (isIdentStart_not_space c Hc)) as [y Hy].
  split; [rewrite Hy; discriminate|]. split; [apply trim_trimmed|].
  left. destruct (in_dec ascii_dec "("%char signature) as [Hin|Hno];
    [exact Hin|].
  exfalso. unfold withoutModifiers in Hparen.
  apply replace_chars in Hparen.
  assert (~ In "("%char cleanSignature) as Hclean.
  { intros Hin. apply Hno. unfold cleanSignature in Hin.
    apply trim_In in Hin. apply replace_chars in Hin. exact Hin. }
  rewrite (removeMethodGenericDecl_no_paren _ Hclean) in Hparen.
  exact (Hclean Hparen).
Qed.

(** ** Runs of white space *)

Lemma spanLength_rest (p : ascii -> bool) (s : str) :
  spanLength p (skipn (spanLength p s) s) = 0.
Proof.
  induction s as [|c s IH]; [reflexivity|]. cbn [spanLength].
  destruct (p c) eqn:Hc; cbn [skipn spanLength]; [exact IH|].
  rewrite Hc. reflexivity.
Qed.

Lemma span_neither (p : ascii -> bool) (s : str) :
  spanLength p s = 0 -> spanLength (fun c => negb (p c)) s = 0 -> s = [].
Proof.
  destruct s as [|c s]; [reflexivity|]. cbn [spanLength].
  destruct (p c); cbn [negb]; discriminate.
Qed.

(** The leftmost run of the class, found by the search for [p+]. *)
Lemma scan_Plus_class (p : ascii -> bool) (s bef : str) :
  scan (Plus (Cls p)) bef s
  = match spanLength p (skipn (spanLength (fun c => negb (p c)) s) s) with
    | 0 => None
    | S n =>
        Some (mkResult
                (length bef + spanLength (fun c => negb (p c)) s)
                (firstn (S n) (skipn (spanLength (fun c => negb (p c)) s) s))
                [])
    end.
Proof.
  revert bef. induction s as [|c t IH]; intros bef.
  - cbn [scan]. rewrite run_Plus_class_none by reflexivity. reflexivity.
  - cbn [scan]. destruct (p c) eqn:Hc.
    + pose proof (firstMatch_Plus_class p (mkCursor bef (c :: t) [])
                    (spanLength p t)) as Hfirst.
      cbn [rest spanLength] in Hfirst. rewrite Hc in Hfirst.
      specialize (Hfirst eq_refl). unfold firstMatch in Hfirst.
      destruct (run (Plus (Cls p)) (mkCursor bef (c :: t) [])) as [|st' tl];
        [discriminate|].
      cbn [hd_error] in Hfirst. injection Hfirst as ->.
      cbn [spanLength]. rewrite Hc. cbn [negb skipn spanLength]. rewrite Hc.
      f_equal. f_equal; [lia|].
      f_equal. cbn [advance rest]. rewrite length_skipn.
      pose proof (spanLength_le p t). cbn [length]. lia.
    + rewrite run_Plus_class_none by (cbn [rest spanLength]; rewrite Hc;
                                       reflexivity).
      rewrite IH. cbn [spanLength]. rewrite Hc. cbn [negb skipn].
      destruct (spanLength p (skipn (spanLength (fun c0 => negb (p c0)) t) t));
        [reflexivity|].
      cbn [length]. do 2 f_equal. lia.
Qed.

Lemma squeeze_words (p : ascii -> bool) (repl s : str) :
  squeeze p repl false s
  = firstn (spanLength (fun c => negb (p c)) s) s
    ++ squeeze p repl false (skipn (spanLength (fun c => negb (p c)) s) s).
Proof.
  induction s as [|c s IH]; [reflexivity|].
  cbn [spanLength]. destruct (p c) eqn:Hc; cbn [negb firstn skipn app].
  - reflexivity.
  - cbn [squeeze]. rewrite Hc. f_equal. exact IH.
Qed.

Lemma squeeze_run (p : ascii -> bool) (repl s : str) :
  squeeze p repl true s = squeeze p repl false (skipn (spanLength p s) s).
Proof.
  induction s as [|c s IH]; [reflexivity|].
  cbn [spanLength squeeze]. destruct (p c) eqn:Hc; cbn [skipn].
  - exact IH.
  - cbn [squeeze]. rewrite Hc. reflexivity.
Qed.

Lemma replaceAllFrom_squeeze (p : ascii -> bool) (repl : str) (fuel : nat) :
  forall bef s,
    length s < fuel ->
    replaceAllFrom (Plus (Cls p)) repl fuel bef s = squeeze p repl false s.
Proof.
  induction fuel as [|f IH]; intros bef s Hlen; [lia|].
  cbn [replaceAllFrom]. rewrite scan_Plus_class.
  set (k := spanLength (fun c => negb (p c)) s).
  rewrite (squeeze_words p repl s). fold k.
  destruct (spanLength p (skipn k s)) as [|n] eqn:Hrun.
  - rewrite (span_neither p (skipn k s) Hrun (spanLength_rest _ s)).
    cbn [squeeze]. rewrite <- (firstn_skipn k s) at 1.
    rewrite (span_neither p (skipn k s) Hrun (spanLength_rest _ s)).
    reflexivity.
  - cbn [index matched]. 
    replace (length bef + k - length bef) with k by lia.
    destruct (skipn k s) as [|c t] eqn:Hu; [discriminate|].
    cbn [spanLength] in Hrun. destruct (p c) eqn:Hc; [|discriminate].
    injection Hrun as Hrun. cbn [firstn]. cbn [length].
    pose proof (spanLength_le p t) as Hle.
    rewrite length_firstn, Nat.min_l by lia.
    f_equal. cbn [squeeze]. rewrite Hc. f_equal.
    rewrite squeeze_run, Hrun.
    assert (skipn (k + S n) s = skipn n t) as Hrest.
    { rewrite Nat.add_comm, <- skipn_skipn, Hu. reflexivity. }
    rewrite Hrest. apply IH.
    assert (length (c :: t) <= length s)
        by (rewrite <- Hu, length_skipn; lia).
    cbn [length] in H. rewrite length_skipn. lia.
Qed.

Lemma replaceAll_squeeze (p : ascii -> bool) (repl s : str) :
  replaceAll (Plus (Cls p)) repl s = squeeze p repl false s.
Proof. apply replaceAllFrom_squeeze. lia. Qed.

Lemma squeeze_singleSpaced (s : str) :
  (forall b, singleSpaced (squeeze isSpace (lit " ") b s) = true)
  /\ atSpace (squeeze isSpace (lit " ") true s) = false.
Proof.
  induction s as [|c s [IH1 IH2]]; [split; [intros b|]; reflexivity|].
  cbn [squeeze]. destruct (isSpace c) eqn:Hc.
  - split; [|exact IH2]. intros [|]; [apply IH1|].
    change (lit " " ++ squeeze isSpace (lit " ") true s)
      with (" "%char :: squeeze isSpace (lit " ") true s).
    cbn [singleSpaced]. rewrite IH2, IH1. reflexivity.
  - split; [|exact Hc]. intros _. cbn [singleSpaced]. rewrite Hc.
    apply IH1.
Qed.

Lemma singleSpaced_suffix (a b : str) :
  singleSpaced (a ++ b) = true -> singleSpaced b = true.
Proof.
  induction a as [|c a IH]; [auto|]. cbn [app singleSpaced].
  intros H. apply andb_prop in H as [_ H]. apply IH, H.
Qed.

Lemma singleSpaced_prefix (a b : str) :
  singleSpaced (a ++ b) = true -> singleSpaced a = true.
Proof.
  induction a as [|c a IH]; [reflexivity|]. cbn [app singleSpaced].
  intros H. apply andb_prop in H as [Hc H]. rewrite (IH H), andb_true_r.
  destruct (isSpace c); [|reflexivity].
  apply andb_prop in Hc as [-> Hc]. cbn [andb].
  destruct a as [|d a]; [reflexivity | exact Hc].
Qed.

Lemma singleSpaced_trim (s : str) :
  singleSpaced s = true -> singleSpaced (trim s) = true.
Proof.
  intros H. destruct (trim_spec s) as (ws1 & ws2 & Hs & _ & _).
  rewrite Hs in H. apply singleSpaced_suffix, singleSpaced_prefix in H.
  exact H.
Qed.

(** X25: the signature that [extractFullSignature] returns has no white
    space at either end, and inside it no white space but single
    blanks: every run of white space of the declaration, line breaks
    included, has become one blank. *)
Theorem X25_extractFullSignature_single_spaced
        (lines : list str) (startLine_ : nat) :
  trimmed (extractFullSignature lines startLine_)
  /\ singleSpaced (extractFullSignature lines startLine_) = true.
Proof.
  unfold extractFullSignature. split; [apply trim_trimmed|].
  apply singleSpaced_trim. unfold Space. rewrite replaceAll_squeeze.
  apply squeeze_singleSpaced.
Qed.

(** ** Words between white space *)

Lemma forallb_rev {A : Type} (p : A -> bool) (l : list A) :
  forallb p l = true -> forallb p (rev l) = true.
Proof.
  rewrite !forallb_forall. intros H x Hx. apply H, in_rev, Hx.
Qed.

Lemma spanLength_head (p : ascii -> bool) (a b : str) :
  a <> [] -> spanLength p (a ++ b) = 0 -> spanLength p a = 0.
Proof.
  destruct a as [|c a]; [congruence|]. cbn [app spanLength].
  destruct (p c); [discriminate | reflexivity].
Qed.

Lemma splitFrom_words (fuel : nat) :
  forall bef s,
    length s < fuel -> s <> [] ->
    spanLength isSpace s = 0 -> spanLength isSpace (rev s) = 0 ->
    Forall (fun w => w <> [] /\ noSpace w = true)
           (splitFrom (Plus Space) fuel bef s).
Proof.
  induction fuel as [|f IH]; intros bef s Hlen Hne Hhead Hlast; [lia|].
  cbn [splitFrom]. unfold Space at 1. rewrite scan_Plus_class.
  set (k := spanLength (fun c => negb (isSpace c)) s).
  assert (noSpace (firstn k s) = true) as Hword
      by (apply spanLength_firstn; unfold k; lia).
  assert (firstn k s <> []) as Hk.
  { unfold k. destruct s as [|c s]; [congruence|].
    cbn [spanLength] in Hhead |- *.
    destruct (isSpace c); [discriminate|]. cbn [negb firstn]. discriminate. }
  destruct (spanLength isSpace (skipn k s)) as [|n] eqn:Hrun.
  - pose proof (span_neither isSpace (skipn k s) Hrun (spanLength_rest _ s))
      as Hnil.
    constructor; [|constructor]. split; [exact Hne|].
    rewrite <- (firstn_skipn k s), Hnil, app_nil_r. exact Hword.
  - cbn [index matched].
    replace (length bef + k - length bef) with k by lia.
    destruct (skipn k s) as [|c t] eqn:Hu; [discriminate|].
    cbn [firstn length].
    pose proof (spanLength_le isSpace (c :: t)) as Hle. rewrite Hrun in Hle.
    cbn [length] in Hle.
    rewrite length_firstn, Nat.min_l by lia.
    constructor; [split; assumption|].
    assert (skipn (k + S n) s = skipn (S n) (c :: t)) as Hrest
        by (rewrite Nat.add_comm, <- skipn_skipn, Hu; reflexivity).
    rewrite Hrest.
    assert (s = firstn k s ++ firstn (S n) (c :: t) ++ skipn (S n) (c :: t))
      as Hs by (rewrite firstn_skipn, <- Hu, firstn_skipn; reflexivity).
    assert (forallb isSpace (firstn (S n) (c :: t)) = true) as Hspaces
        by (apply spanLength_firstn; lia).
    assert (skipn (S n) (c :: t) <> []) as Hr.
    { intros Hnil. rewrite Hnil, app_nil_r in Hs.
      rewrite Hs, rev_app_distr in Hlast.
      rewrite spanLength_all in Hlast by (apply forallb_rev, Hspaces).
      rewrite length_rev, length_firstn, Nat.min_l in Hlast
        by (cbn [length]; lia).
      lia. }
    apply IH.
    + assert (length (c :: t) <= length s)
        by (rewrite <- Hu, length_skipn; lia).
      rewrite length_skipn. cbn [length] in *. lia.
    + exact Hr.
    + rewrite <- Hrun. apply spanLength_rest.
    + rewrite Hs, app_assoc, rev_app_distr in Hlast.
      apply spanLength_head in Hlast; [exact Hlast|].
      intros Hnil. apply Hr. apply (f_equal (@rev ascii)) in Hnil.
      rewrite rev_involutive in Hnil. exact Hnil.
Qed.

Lemma trimmed_spans (s : str) :
  trimmed s -> spanLength isSpace s = 0 /\ spanLength isSpace (rev s) = 0.
Proof.
  assert (forall u, trimStart u = u -> spanLength isSpace u = 0) as Hfix.
  { intros [|c u]; [reflexivity|]. cbn [trimStart spanLength].
    destruct (isSpace c); [|reflexivity]. intros H.
    pose proof (trimStart_length u) as Hle. rewrite H in Hle.
    cbn [length] in Hle. lia. }
  intros [H1 H2]. split; apply Hfix; assumption.
Qed.

(** X26: the type that [extractFieldType] reads off a declaration line
    is never empty and holds no white space: it is a word of the line,
    or ["unknown"]. *)
Theorem X26_extractFieldType_is_a_word (l : str) :
  extractFieldType l <> [] /\ noSpace (extractFieldType l) = true.
Proof.
  assert (lit "unknown" <> [] /\ noSpace (lit "unknown") = true) as Hunknown
      by (split; [discriminate | reflexivity]).
  unfold extractFieldType. cbv zeta.
  set (w := trim (replace _ [] _)).
  destruct w as [|c w'] eqn:Hw; [exact Hunknown|].
  destruct (2 <=? length (split (Plus Space) (c :: w'))); [|exact Hunknown].
  destruct (nth_error (split (Plus Space) (c :: w'))
                      (length (split (Plus Space) (c :: w')) - 2))
    as [part|] eqn:Hpart; [|exact Hunknown].
  apply nth_error_In in Hpart.
  assert (trimmed (c :: w')) as Htrim by (rewrite <- Hw; apply trim_trimmed).
  apply trimmed_spans in Htrim as [Hhead Hlast].
  pose proof (splitFrom_words (S (length (c :: w'))) [] (c :: w')
                (Nat.lt_succ_diag_r _) ltac:(discriminate) Hhead Hlast)
    as Hall.
  rewrite Forall_forall in Hall. exact (Hall part Hpart).
Qed.
